(** * saggitarius-di: the resolution engine, embedded in Rocq

    The development follows [src/definition.ts], [src/api.ts] and the engine
    classes [DependencyProvider], [DefinitionResolver], [ObjectFactory],
    [ObjectProvider] and [DependencyManager].

    JavaScript objects with identity (definitions, context registries, local
    [elems] arrays, futures, promises, instances) live in explicit stores and
    are named by their address.  Asynchronous functions are command trees
    ([cmd]); an event loop with a FIFO job queue runs them: a body runs
    without interruption up to its next [await], and a continuation becomes a
    job when the promise it waits for settles. *)

From stdpp Require Import gmap strings list fin_maps.

Set Default Proof Using "Type".

(** ** Identities *)

Abbreviation addr := nat (only parsing).

(** Modelled from the spec: [Typing.type] of the package
    [@saggitarius/typing] turns a reference into a type token, "an opaque,
    globally-unique identity value used as a map key"; a token is written
    here as the name it was registered under. *)
Abbreviation TypeToken := string (only parsing).

(** Modelled from the spec: [Typing.hashOf] gives the symbol used as the
    memoization key, one symbol per type token. *)
Abbreviation symbol := string (only parsing).
Definition hashOf (t : TypeToken) : symbol := t.

(** [new Error(message)]. *)
Abbreviation Error := string (only parsing).

(** [AsyncFactory]: user code.  [toClass(ctor)] wraps [new ctor(...args)],
    which builds a new object each time it runs; a factory may also throw. *)
Inductive AsyncFactory : Type :=
| Construct (cls : string)
| Raise (e : Error).

Global Instance AsyncFactory_eq_dec : EqDecision AsyncFactory.
Proof. solve_decision. Defined.

(** ** Runtime values *)

Inductive val : Type :=
| VUndef                      (* undefined *)
| VStr (s : string)           (* a literal payload *)
| VObj (a : addr)             (* an instance built by a factory *)
| VArr (a : addr)             (* an array object *)
| VRec (a : addr)             (* a plain object used as a record *)
| VDef (a : addr)             (* a Definition object *)
| VFut (a : addr)             (* a Future *)
| VProm (a : addr)            (* a Promise *)
| VFactory (f : AsyncFactory). (* a factory function *)

Global Instance val_eq_dec : EqDecision val.
Proof. solve_decision. Defined.

(** ** src/definition.ts *)

Inductive Dependency : Type :=
| DRef (t : TypeToken)        (* Reference: something [Typing.type] accepts *)
| DDef (d : addr).            (* a literal Definition object *)

Global Instance Dependency_eq_dec : EqDecision Dependency.
Proof. solve_decision. Defined.

(** A slot of a JavaScript array of dependencies: [None] is a hole of a
    sparse array, [Some None] the value [undefined]. *)
Definition slot := option (option Dependency).

Inductive Kind := KValue | KType | KArray | KRecord | KReference.

Global Instance Kind_eq_dec : EqDecision Kind.
Proof. solve_decision. Defined.

(** [Definition], the tagged union; optional fields are options. *)
Inductive Definition_ : Type :=
| DValue (value : val)
| DArray (elements : option (list slot))
| DRecord (elements : option (list (string * option Dependency)))
| DType (type : TypeToken) (shared : option bool)
        (factory : option AsyncFactory)
        (args : option (list slot))
        (props : option (list (string * option Dependency)))
| DReference (target : TypeToken).

Global Instance Definition_eq_dec : EqDecision Definition_.
Proof. solve_decision. Defined.

Definition kind (d : Definition_) : Kind :=
  match d with
  | DValue _ => KValue
  | DArray _ => KArray
  | DRecord _ => KRecord
  | DType _ _ _ _ _ => KType
  | DReference _ => KReference
  end.

Definition makeValue (value : val) : Definition_ := DValue value.
Definition makeType (type : TypeToken) : Definition_ :=
  DType type None None None None.
Definition makeReference (target : TypeToken) : Definition_ :=
  DReference target.
Definition makeArray (elements : list slot) : Definition_ :=
  DArray (Some elements).
Definition makeRecord (elements : list (string * option Dependency))
  : Definition_ := DRecord (Some elements).

(** ** The stores *)

(** An instance: what [new ctor(...args)] built, the type [Typing.store]
    tagged it with, and the properties [Object.assign] put on it. *)
Record Instance := mkInstance {
  cls : string;
  ctorArgs : list val;
  typeTag : option TypeToken;
  fields : list (string * val)
}.

Record Heap := mkHeap {
  defs : list Definition_;            (* Definition objects *)
  resolvedSym : gmap addr addr;       (* def[ResolvedSymbol] *)
  defRegistry : gmap TypeToken addr;  (* DefinitionRegistry = Map<Type, Definition> *)
  objRegistry : gmap addr val;        (* InstanceRegistry = WeakMap<Definition, Future> *)
  ctxRegistries : list (gmap symbol val); (* the [registry] objects of contexts *)
  arrays : list (list (option val));  (* array objects, [None] is a hole *)
  records : list (list (string * val)); (* record objects *)
  instances : list Instance;          (* objects built by factories *)
  factoryLog : list (addr * list val); (* factory calls: definition, arguments *)
  pluginLog : list (nat * addr)       (* plugin calls: plugin index, definition resolved *)
}.

Definition emptyHeap : Heap :=
  mkHeap [] ∅ ∅ ∅ [] [] [] [] [] [].

(** [DiContext] of src/lib: [api.Context] with [instance] and [registry];
    the registry is an object, held by reference. *)
Record DiContext := mkCtx {
  stack : list addr;
  shared : bool;
  parameters : option (list (string * val));
  instance : option val;
  registry : option addr
}.

(** Field updates of the store. *)
Definition set_defs (f : list Definition_ → list Definition_) (h : Heap) : Heap :=
  mkHeap (f (defs h)) (resolvedSym h) (defRegistry h) (objRegistry h)
         (ctxRegistries h) (arrays h) (records h) (instances h)
         (factoryLog h) (pluginLog h).
Definition set_resolvedSym (f : gmap addr addr → gmap addr addr) (h : Heap) : Heap :=
  mkHeap (defs h) (f (resolvedSym h)) (defRegistry h) (objRegistry h)
         (ctxRegistries h) (arrays h) (records h) (instances h)
         (factoryLog h) (pluginLog h).
Definition set_defRegistry (f : gmap TypeToken addr → gmap TypeToken addr) (h : Heap) : Heap :=
  mkHeap (defs h) (resolvedSym h) (f (defRegistry h)) (objRegistry h)
         (ctxRegistries h) (arrays h) (records h) (instances h)
         (factoryLog h) (pluginLog h).
Definition set_objRegistry (f : gmap addr val → gmap addr val) (h : Heap) : Heap :=
  mkHeap (defs h) (resolvedSym h) (defRegistry h) (f (objRegistry h))
         (ctxRegistries h) (arrays h) (records h) (instances h)
         (factoryLog h) (pluginLog h).
Definition set_ctxRegistries (f : list (gmap symbol val) → list (gmap symbol val)) (h : Heap) : Heap :=
  mkHeap (defs h) (resolvedSym h) (defRegistry h) (objRegistry h)
         (f (ctxRegistries h)) (arrays h) (records h) (instances h)
         (factoryLog h) (pluginLog h).
Definition set_arrays (f : list (list (option val)) → list (list (option val))) (h : Heap) : Heap :=
  mkHeap (defs h) (resolvedSym h) (defRegistry h) (objRegistry h)
         (ctxRegistries h) (f (arrays h)) (records h) (instances h)
         (factoryLog h) (pluginLog h).
Definition set_records (f : list (list (string * val)) → list (list (string * val))) (h : Heap) : Heap :=
  mkHeap (defs h) (resolvedSym h) (defRegistry h) (objRegistry h)
         (ctxRegistries h) (arrays h) (f (records h)) (instances h)
         (factoryLog h) (pluginLog h).
Definition set_instances (f : list Instance → list Instance) (h : Heap) : Heap :=
  mkHeap (defs h) (resolvedSym h) (defRegistry h) (objRegistry h)
         (ctxRegistries h) (arrays h) (records h) (f (instances h))
         (factoryLog h) (pluginLog h).
Definition set_factoryLog (f : list (addr * list val) → list (addr * list val)) (h : Heap) : Heap :=
  mkHeap (defs h) (resolvedSym h) (defRegistry h) (objRegistry h)
         (ctxRegistries h) (arrays h) (records h) (instances h)
         (f (factoryLog h)) (pluginLog h).
Definition set_pluginLog (f : list (nat * addr) → list (nat * addr)) (h : Heap) : Heap :=
  mkHeap (defs h) (resolvedSym h) (defRegistry h) (objRegistry h)
         (ctxRegistries h) (arrays h) (records h) (instances h)
         (factoryLog h) (f (pluginLog h)).

(** ** JavaScript arrays and plain objects *)

(** [elems[index] = v]: an index past the end extends the array, the slots
    in between are holes. *)
Definition arraySet (l : list (option val)) (index : nat) (v : val)
  : list (option val) :=
  if decide (index < length l) then <[index := Some v]> l
  else l ++ replicate (index - length l) None ++ [Some v].

(** [elems[index]]: a hole and an index past the end read [undefined]. *)
Definition arrayGet (l : list (option val)) (index : nat) : val :=
  match l !! index with
  | Some (Some v) => v
  | _ => VUndef
  end.

(** [...args]: the elements in order, holes as [undefined]. *)
Definition spread (l : list (option val)) : list val :=
  map (default VUndef) l.

(** [elems[key] = v] on a plain object: an own key keeps its place. *)
Fixpoint recordSet (l : list (string * val)) (key : string) (v : val)
  : list (string * val) :=
  match l with
  | [] => [(key, v)]
  | (k', v') :: l' =>
      if decide (k' = key) then (k', v) :: l' else (k', v') :: recordSet l' key v
  end.

Fixpoint recordGet (l : list (string * val)) (key : string) : val :=
  match l with
  | [] => VUndef
  | (k', v') :: l' => if decide (k' = key) then v' else recordGet l' key
  end.

(** [Object.assign(target, source)] on the own properties. *)
Definition objectAssign (target source : list (string * val))
  : list (string * val) :=
  foldl (λ t kv, recordSet t kv.1 kv.2) target source.

(** ** Asynchronous code

    The body of a function is a command tree.  [Get] and [Put] read and
    write the store; [Await] suspends the body; [Async] calls an [async]
    function: its body runs at once up to its first [await] and the caller
    goes on with the promise.  [Fuel] marks the place where the model ran out
    of unfolding depth; no JavaScript behaviour corresponds to it. *)

Inductive cmd : Type :=
| Ret (v : val)
| Throw (e : Error)
| Fuel
| Get (k : Heap → cmd)
| Put (h : Heap) (k : cmd)
| Await (v : val) (k : val → cmd)
| Async (body : cmd) (k : val → cmd)
| PromiseAll (ps : list val) (k : val → cmd)
| NewFuture (k : val → cmd)
| FutureSet (f : val) (v : val) (k : cmd).

(** [modify f k]: a read followed by a write, with nothing in between. *)
Definition modify (f : Heap → Heap) (k : cmd) : cmd :=
  Get (λ h, Put (f h) k).

Inductive Settled : Type :=
| Fulfilled (v : val)
| Rejected (e : Error).

Global Instance Settled_eq_dec : EqDecision Settled.
Proof. solve_decision. Defined.

(** What waits for a promise: a suspended body (with the promise it will
    settle), a promise that was resolved with this one, or a [Promise.all]. *)
Inductive Reaction : Type :=
| RAwait (own : addr) (k : val → cmd)
| RAdopt (own : addr)
| RAll (agg : addr).

(** A promise or future.  [remaining] counts, for the promise of a
    [Promise.all], the elements not fulfilled yet. *)
Record Cell := mkCell {
  state : option Settled;
  reactions : list Reaction;
  remaining : nat
}.

Inductive Job : Type :=
| JRun (own : addr) (c : cmd)
| JAll (agg : addr) (s : Settled).

Record Sched := mkSched {
  cells : list Cell;
  queue : list Job;
  exhausted : bool
}.

Definition emptySched : Sched := mkSched [] [] false.

Definition thenable (v : val) : option addr :=
  match v with
  | VProm a | VFut a => Some a
  | _ => None
  end.

Definition job_of (r : Reaction) (s : Settled) : Job :=
  match r with
  | RAwait own k =>
      JRun own (match s with Fulfilled v => k v | Rejected e => Throw e end)
  | RAdopt own =>
      JRun own (match s with Fulfilled v => Ret v | Rejected e => Throw e end)
  | RAll agg => JAll agg s
  end.

Definition enqueue (j : Job) (σ : Sched) : Sched :=
  mkSched (cells σ) (queue σ ++ [j]) (exhausted σ).

Definition alloc (c : Cell) (σ : Sched) : Sched :=
  mkSched (cells σ ++ [c]) (queue σ) (exhausted σ).

(** A promise settles once; what waited for it becomes a job. *)
Definition settle (a : addr) (s : Settled) (σ : Sched) : Sched :=
  match cells σ !! a with
  | Some c =>
      match state c with
      | Some _ => σ
      | None =>
          mkSched (<[a := mkCell (Some s) [] (remaining c)]> (cells σ))
                  (queue σ ++ map (λ r, job_of r s) (reactions c))
                  (exhausted σ)
      end
  | None => σ
  end.

Definition subscribe (a : addr) (r : Reaction) (σ : Sched) : Sched :=
  match cells σ !! a with
  | Some c =>
      match state c with
      | Some s => enqueue (job_of r s) σ
      | None =>
          mkSched (<[a := mkCell None (reactions c ++ [r]) (remaining c)]> (cells σ))
                  (queue σ) (exhausted σ)
      end
  | None => σ
  end.

Definition subscribeAll (agg : addr) (σ : Sched) (p : val) : Sched :=
  match thenable p with
  | Some a => subscribe a (RAll agg) σ
  | None => enqueue (JAll agg (Fulfilled p)) σ
  end.

(** Runs the body [c] of the function whose promise is [own] up to its next
    suspension. *)
Fixpoint exec (own : addr) (c : cmd) (σ : Sched) (h : Heap) : Sched * Heap :=
  match c with
  | Ret v =>
      match thenable v with
      | Some a => (subscribe a (RAdopt own) σ, h)
      | None => (settle own (Fulfilled v) σ, h)
      end
  | Throw e => (settle own (Rejected e) σ, h)
  | Fuel => (mkSched (cells σ) (queue σ) true, h)
  | Get k => exec own (k h) σ h
  | Put h' k => exec own k σ h'
  | Await v k =>
      match thenable v with
      | Some a => (subscribe a (RAwait own k) σ, h)
      | None => (enqueue (JRun own (k v)) σ, h)
      end
  | Async body k =>
      let p := length (cells σ) in
      let '(σ1, h1) := exec p body (alloc (mkCell None [] 0) σ) h in
      exec own (k (VProm p)) σ1 h1
  | PromiseAll ps k =>
      let agg := length (cells σ) in
      let σ1 := alloc (mkCell None [] (length ps)) σ in
      let σ2 := match ps with
                | [] => settle agg (Fulfilled VUndef) σ1
                | _ => σ1
                end in
      exec own (k (VProm agg)) (foldl (subscribeAll agg) σ2 ps) h
  | NewFuture k =>
      let f := length (cells σ) in
      exec own (k (VFut f)) (alloc (mkCell None [] 0) σ) h
  | FutureSet f v k =>
      match thenable f with
      | Some a => exec own k (settle a (Fulfilled v) σ) h
      | None => exec own k σ h
      end
  end.

Definition runJob (j : Job) (σ : Sched) (h : Heap) : Sched * Heap :=
  match j with
  | JRun own c => exec own c σ h
  | JAll agg (Rejected e) => (settle agg (Rejected e) σ, h)
  | JAll agg (Fulfilled _) =>
      match cells σ !! agg with
      | Some c =>
          match state c, remaining c with
          | None, 1 => (settle agg (Fulfilled VUndef) σ, h)
          | None, S n =>
              (mkSched (<[agg := mkCell None (reactions c) n]> (cells σ))
                       (queue σ) (exhausted σ), h)
          | _, _ => (σ, h)
          end
      | None => (σ, h)
      end
  end.

(** The event loop: takes the jobs in the order they became ready, until
    none is left (or [n] jobs were run). *)
Fixpoint loop (n : nat) (σ : Sched) (h : Heap) : Sched * Heap :=
  match n with
  | 0 => (σ, h)
  | S n' =>
      match queue σ with
      | [] => (σ, h)
      | j :: q =>
          let '(σ1, h1) := runJob j (mkSched (cells σ) q (exhausted σ)) h in
          loop n' σ1 h1
      end
  end.

(** A call from top-level code: the body starts at once; the caller holds
    the promise. *)
Definition spawn (c : cmd) (σ : Sched) (h : Heap) : addr * Sched * Heap :=
  let p := length (cells σ) in
  let '(σ1, h1) := exec p c (alloc (mkCell None [] 0) σ) h in
  (p, σ1, h1).

Definition result (p : addr) (σ : Sched) : option Settled :=
  c ← cells σ !! p; state c.

(** ** The engine (src/lib) *)

(** [IDefinitionResolver]: a plugin.  [resolve ctx d] is how the copy reads
    after [Object.assign(resolved, await resolver.resolve(ctx, resolved))]
    when it read [d] before. *)
Record IDefinitionResolver := mkResolver {
  resolve : DiContext → Definition_ → Definition_
}.

Definition DefinitionResolvers := list IDefinitionResolver.

(** [Reflect.defineProperty(def, ResolvedSymbol, {writable: false,
    configurable: false, value})]: the first definition stays. *)
Definition defineResolved (def value : addr) (m : gmap addr addr)
  : gmap addr addr :=
  match m !! def with
  | Some _ => m
  | None => <[def := value]> m
  end.

Definition allocDef (d : Definition_) (k : addr → cmd) : cmd :=
  Get (λ h, Put (set_defs (λ l, l ++ [d]) h) (k (length (defs h)))).

Section Engine.

Variable resolvers : DefinitionResolvers.

(** *** DefinitionResolver *)

(** [DefinitionResolver.getDefinition]. *)
Definition Resolver_getDefinition (type : Dependency) (k : addr → cmd) : cmd :=
  match type with
  | DRef t =>
      Get (λ h,
        match defRegistry h !! t with
        | Some def => k def
        | None =>
            let def := length (defs h) in
            Put (set_defRegistry <[t := def]>
                   (set_defs (λ l, l ++ [makeType t]) h))
                (k def)
        end)
  | DDef def => k def
  end.

(** The [while (def.kind === Definition.Kind.Reference)] loop. *)
Fixpoint followReferences (fuel : nat) (def : addr) (tags : list addr)
    (k : addr → list addr → cmd) : cmd :=
  Get (λ h,
    match defs h !! def with
    | Some (DReference target) =>
        match fuel with
        | 0 => Fuel
        | S fuel' =>
            Resolver_getDefinition (DRef target) (λ def',
              Get (λ h',
                match resolvedSym h' !! def' with
                | Some _ => k def' (tags ++ [def])
                | None => followReferences fuel' def' (tags ++ [def]) k
                end))
        end
    | _ => k def tags
    end).

(** The [for (const resolver of this.resolvers)] loop on the copy
    [resolved] of [def]. *)
Fixpoint runResolvers (ctx : DiContext) (index : nat)
    (rs : DefinitionResolvers) (def resolved : addr) (k : cmd) : cmd :=
  match rs with
  | [] => k
  | r :: rs' =>
      Async (modify (set_pluginLog (λ l, l ++ [(index, def)])) (Ret VUndef))
        (λ p, Await p (λ _,
           modify (set_defs (λ l,
                     match l !! resolved with
                     | Some d => <[resolved := resolve r ctx d]> l
                     | None => l
                     end))
                  (runResolvers ctx (S index) rs' def resolved k)))
  end.

(** [DefinitionResolver.resolve]. *)
Definition DefinitionResolver_resolve (fuel : nat) (ctx : DiContext)
    (type : Dependency) : cmd :=
  Resolver_getDefinition type (λ def0,
    followReferences fuel def0 [] (λ def tags,
      let tagAndReturn :=
        Get (λ h,
          match resolvedSym h !! def with
          | Some value =>
              Put (set_resolvedSym
                     (λ m, foldl (λ m tag, defineResolved tag value m) m tags) h)
                  (Ret (VDef value))
          | None => Ret VUndef
          end) in
      Get (λ h,
        match resolvedSym h !! def with
        | Some _ => tagAndReturn
        | None =>
            match defs h !! def with
            | Some d =>
                allocDef d (λ resolved,
                  runResolvers ctx 0 resolvers def resolved
                    (modify (set_resolvedSym (defineResolved def resolved))
                            tagAndReturn))
            | None => Throw "TypeError"
            end
        end))).

(** *** DependencyProvider *)

(** [DependencyProvider.hashOf] on a definition. *)
Definition DependencyProvider_hashOf (d : Definition_) : option symbol :=
  match d with
  | DType t _ _ _ _ => Some (hashOf t)
  | _ => None
  end.

Definition isShared (d : Definition_) : bool :=
  match d with
  | DType _ sh _ _ _ => default true sh
  | _ => false
  end.

(** [ctx.registry[hash]] *)
Definition registryLookup (h : Heap) (ctx : DiContext) (hash : symbol)
  : option val :=
  a ← registry ctx; r ← ctxRegistries h !! a; r !! hash.

(** [ctx.registry[hash] = fut] on the registry object at [reg]. *)
Definition registryStore (reg : addr) (hash : symbol) (fut : val)
    (h : Heap) : Heap :=
  set_ctxRegistries (λ l,
    match l !! reg with
    | Some r => <[reg := <[hash := fut]> r]> l
    | None => l
    end) h.

(** [DependencyProvider.forkContext] on the store [h]:
    [{shared, stack: [...stack, dep], registry: {...registry}}], or the
    error it throws. *)
Definition forkContext (ctx : DiContext) (dep : addr) (h : Heap)
  : Error + DiContext * Heap :=
  let registry_ := default ∅ (a ← registry ctx; ctxRegistries h !! a) in
  let shared_ := from_option isShared false (defs h !! dep) in
  if bool_decide (dep ∈ stack ctx) then inl "Cyclic dependency"
  else inr (mkCtx (stack ctx ++ [dep]) shared_ None None
                  (Some (length (ctxRegistries h))),
            set_ctxRegistries (λ l, l ++ [registry_]) h).

Definition forking (ctx : DiContext) (dep : addr)
    (k : DiContext → cmd) : cmd :=
  Get (λ h,
    match forkContext ctx dep h with
    | inl e => Throw e
    | inr (ctx', h') => Put h' (k ctx')
    end).

(** [DependencyProvider.getDefinition]. *)
Definition DependencyProvider_getDefinition (fuel : nat) (ctx : DiContext)
    (dep : Dependency) (k : val → cmd) : cmd :=
  Async (DefinitionResolver_resolve fuel ctx dep) k.

Section Provider.

(** The collaborators, as the constructor and [bootstrap] wire them:
    [this.get] / [depsProvider.get], [provider.get], [factory.create]. *)
Variable get : DiContext → option Dependency → cmd.
Variable provider_get : DiContext → addr → cmd.
Variable factory_create : DiContext → addr → cmd.

(** [DependencyProvider.getValue]. *)
Definition getValue (value : val) (k : val → cmd) : cmd :=
  match value with
  | VProm _ => k value
  | _ => Async (Ret value) k
  end.

(** [(dep.elements || []).map(async (def, index) => ...)]: [map] does not
    visit a hole and leaves a hole in its result. *)
Fixpoint mapElements (callback : option Dependency → nat → cmd)
    (l : list slot) (index : nat) (acc : list val)
    (k : list val → cmd) : cmd :=
  match l with
  | [] => k acc
  | None :: l' => mapElements callback l' (S index) (acc ++ [VUndef]) k
  | Some def :: l' =>
      Async (callback def index)
            (λ p, mapElements callback l' (S index) (acc ++ [p]) k)
  end.

(** [elements[index] = ...]: what the callback of [getArray] does with the
    value its [await this.get(ctx, def)] hands it. *)
Definition setElement (elems index : nat) (v : val) : cmd :=
  modify (set_arrays (λ l,
            match l !! elems with
            | Some a => <[elems := arraySet a index v]> l
            | None => l
            end))
         (Ret VUndef).

(** [DependencyProvider.getArray]. *)
Definition getArray (ctx : DiContext) (elements : option (list slot))
    (k : val → cmd) : cmd :=
  Get (λ h,
    let elems := length (arrays h) in
    Put (set_arrays (λ l, l ++ [[]]) h)
      (mapElements
         (λ def index,
            Async (get ctx def) (λ p, Await p (setElement elems index)))
         (default [] elements) 0 []
         (λ ps, PromiseAll ps (λ all,
            Async (Await all (λ _, Ret (VArr elems))) k)))).

(** [Object.keys(dep.elements || {}).map(async (key) => ...)]; the keys
    of an object are pairwise distinct. *)
Fixpoint mapKeys (callback : string → option Dependency → cmd)
    (l : list (string * option Dependency)) (acc : list val)
    (k : list val → cmd) : cmd :=
  match l with
  | [] => k acc
  | (key, def) :: l' =>
      Async (callback key def) (λ p, mapKeys callback l' (acc ++ [p]) k)
  end.

(** [elements[key] = ...]: the same for the callback of [getRecord]. *)
Definition setProperty (elems : nat) (key : string) (v : val) : cmd :=
  modify (set_records (λ l,
            match l !! elems with
            | Some o => <[elems := recordSet o key v]> l
            | None => l
            end))
         (Ret VUndef).

(** [DependencyProvider.getRecord]. *)
Definition getRecord (ctx : DiContext)
    (elements : option (list (string * option Dependency)))
    (k : val → cmd) : cmd :=
  Get (λ h,
    let elems := length (records h) in
    Put (set_records (λ l, l ++ [[]]) h)
      (mapKeys
         (λ key def,
            Async (get ctx def) (λ p, Await p (setProperty elems key)))
         (default [] elements) []
         (λ ps, PromiseAll ps (λ all,
            Async (Await all (λ _, Ret (VRec elems))) k)))).

(** [DependencyProvider.getType]. *)
Definition getType (ctx : DiContext) (dep : addr) (k : val → cmd) : cmd :=
  if shared ctx then Async (provider_get ctx dep) k
  else Async (factory_create ctx dep) k.

(** [DependencyProvider.getDependency]. *)
Definition getDependency (ctx : DiContext) (dep : addr)
    (k : val → cmd) : cmd :=
  forking ctx dep (λ ctx',
    Get (λ h,
      match defs h !! dep with
      | Some (DValue value) => getValue value k
      | Some (DArray elements) => getArray ctx' elements k
      | Some (DRecord elements) => getRecord ctx' elements k
      | Some (DType _ _ _ _ _) => getType ctx' dep k
      | _ => Throw "Invalid definition"
      end)).

(** [DependencyProvider.get] from the point where
    [await this.getDefinition(ctx, dep)] hands it the definition. *)
Definition DependencyProvider_get_resume (ctx : DiContext) (def : val) : cmd :=
  match def with
  | VDef def =>
      Get (λ h,
        let hash := d ← defs h !! def; DependencyProvider_hashOf d in
        match hash ≫= registryLookup h ctx with
        | Some memo => Ret memo
        | None => getDependency ctx def (λ p', Await p' Ret)
        end)
  | _ => Throw "TypeError"
  end.

(** [DependencyProvider.get]; the [try { ... } catch (err) { throw err; }]
    around the body rethrows what it catches. *)
Definition DependencyProvider_get_body (fuel : nat) (ctx : DiContext)
    (dep : option Dependency) : cmd :=
  match dep with
  | None => Ret VUndef
  | Some dep =>
      DependencyProvider_getDefinition fuel ctx dep (λ p,
        Await p (DependencyProvider_get_resume ctx))
  end.

End Provider.

(** *** ObjectFactory *)

Section Factory.

Variable depsProvider_get : DiContext → option Dependency → cmd.

(** [ObjectFactory.getFactory]. *)
Definition getFactory (def : addr) : cmd :=
  Get (λ h,
    match defs h !! def with
    | Some (DType _ _ (Some factory) _ _) => Ret (VFactory factory)
    | _ => Throw "Factory is not defined"
    end).

(** [ObjectFactory.getArgs]. *)
Definition getArgs (ctx : DiContext) (def : addr) : cmd :=
  Get (λ h,
    match defs h !! def with
    | Some (DType _ _ _ (Some args) _) =>
        allocDef (makeArray args) (λ d,
          Async (depsProvider_get ctx (Some (DDef d))) Ret)
    | _ =>
        Get (λ h, Put (set_arrays (λ l, l ++ [[]]) h)
                      (Ret (VArr (length (arrays h)))))
    end).

(** [ObjectFactory.getProps]. *)
Definition getProps (ctx : DiContext) (def : addr) : cmd :=
  Get (λ h,
    match defs h !! def with
    | Some (DType _ _ _ _ (Some props)) =>
        allocDef (makeRecord props) (λ d,
          Async (depsProvider_get ctx (Some (DDef d))) Ret)
    | _ =>
        Get (λ h, Put (set_records (λ l, l ++ [[]]) h)
                      (Ret (VRec (length (records h)))))
    end).

(** [factory(...args)]: the call of the user's factory for [def]. *)
Definition invoke (def : addr) (factory : AsyncFactory) (args : val) : cmd :=
  Get (λ h,
    let args_ := match args with
                 | VArr a => spread (default [] (arrays h !! a))
                 | _ => []
                 end in
    Put (set_factoryLog (λ l, l ++ [(def, args_)]) h)
      (match factory with
       | Construct c =>
           Get (λ h,
             Put (set_instances (λ l, l ++ [mkInstance c args_ None []]) h)
                 (Ret (VObj (length (instances h)))))
       | Raise e => Throw e
       end)).

(** [Typing.store(instance, def.type)]. *)
Definition store (instance : val) (def : addr) (h : Heap) : Heap :=
  match instance, defs h !! def with
  | VObj o, Some (DType t _ _ _ _) =>
      set_instances (λ l,
        match l !! o with
        | Some i => <[o := mkInstance (cls i) (ctorArgs i) (Some t) (fields i)]> l
        | None => l
        end) h
  | _, _ => h
  end.

(** [Object.assign(instance, props)]. *)
Definition assignProps (instance props : val) (h : Heap) : Heap :=
  match instance, props with
  | VObj o, VRec r =>
      set_instances (λ l,
        match l !! o with
        | Some i =>
            <[o := mkInstance (cls i) (ctorArgs i) (typeTag i)
                     (objectAssign (fields i) (default [] (records h !! r)))]> l
        | None => l
        end) h
  | _, _ => h
  end.

(** [ObjectFactory.create], cut at its [await]s; its [try]/[catch]
    rethrows.  From [await this.getProps(ctx, def)] on: *)
Definition create_assign (instance_ props : val) : cmd :=
  modify (assignProps instance_ props) (Ret instance_).

(** from [await factory(...args)] on: *)
Definition create_publish (ctx : DiContext) (def : addr) (instance_ : val)
  : cmd :=
  modify (store instance_ def)
    (let setShared k :=
       match instance ctx with
       | Some fut => FutureSet fut instance_ k
       | None => k
       end in
     setShared
       (Async (getProps ctx def) (λ propsPromise,
        Await propsPromise (create_assign instance_)))).

(** from [await argsPromise] on: *)
Definition create_invoke (ctx : DiContext) (def : addr) (factory args : val)
  : cmd :=
  match factory with
  | VFactory f =>
      Async (invoke def f args) (λ instancePromise,
      Await instancePromise (create_publish ctx def))
  | _ => Throw "TypeError"
  end.

(** from [await factoryPromise] on: *)
Definition create_awaitArgs (ctx : DiContext) (def : addr)
    (argsPromise factory : val) : cmd :=
  Await argsPromise (create_invoke ctx def factory).

Definition ObjectFactory_create (ctx : DiContext) (def : addr) : cmd :=
  Async (getFactory def) (λ factoryPromise,
  Async (getArgs ctx def) (λ argsPromise,
  Await factoryPromise (create_awaitArgs ctx def argsPromise))).

End Factory.

(** *** ObjectProvider *)

Section ObjectProvider.

Variable factory_create : DiContext → addr → cmd.

(** [ObjectProvider.get]. *)
Definition ObjectProvider_get (ctx : DiContext) (def : addr) : cmd :=
  Get (λ h,
    match defs h !! def with
    | Some (DType type _ _ _ _) =>
        let hash := hashOf type in
        match registryLookup h ctx hash with
        | Some fut => Await fut Ret
        | None =>
            match objRegistry h !! def with
            | Some inst => Ret inst
            | None =>
                let withInstance k :=
                  match instance ctx with
                  | Some i => k i
                  | None => NewFuture k
                  end in
                withInstance (λ inst,
                  Get (λ h,
                    let '(reg, h1) :=
                      match registry ctx with
                      | Some a => (a, h)
                      | None => (length (ctxRegistries h),
                                 set_ctxRegistries (λ l, l ++ [∅]) h)
                      end in
                    let ctx' := mkCtx (stack ctx) (shared ctx)
                                      (parameters ctx) (Some inst) (Some reg) in
                    Put (registryStore reg hash inst
                           (set_objRegistry <[def := inst]> h1))
                        (Async (factory_create ctx' def) Ret)))
            end
        end
    | _ => Throw "TypeError"
    end).

End ObjectProvider.

(** *** The wiring of [bootstrap] *)

(** [depsProvider.get], with [depsProvider.provider = objProvider],
    [depsProvider.factory = objFactory] and both built over
    [depsProvider]; [fuel] bounds the depth of nested calls. *)
Fixpoint DependencyProvider_get (fuel : nat) (ctx : DiContext)
    (dep : option Dependency) : cmd :=
  match fuel with
  | 0 => Fuel
  | S fuel' =>
      let get := DependencyProvider_get fuel' in
      let create := ObjectFactory_create get in
      DependencyProvider_get_body get (ObjectProvider_get create) create
        fuel ctx dep
  end.

Definition objFactory_create (fuel : nat) : DiContext → addr → cmd :=
  ObjectFactory_create (DependencyProvider_get fuel).

Definition objProvider_get (fuel : nat) : DiContext → addr → cmd :=
  ObjectProvider_get (objFactory_create fuel).

(** *** DependencyManager *)

(** [DependencyManager.get]: not [async], it hands on the promise of
    [depsProvider.get]. *)
Definition DependencyManager_get (fuel : nat) (type : TypeToken) : cmd :=
  let ctx := mkCtx [] true None None None in
  DependencyProvider_get fuel ctx (Some (DRef type)).

(** [DependencyManager.create]: [async], it returns the promise of
    [depsProvider.get]. *)
Definition DependencyManager_create (fuel : nat) (type : TypeToken)
    (parameters_ : list (string * val)) : cmd :=
  let ctx := mkCtx [] false (Some parameters_) None None in
  Async (DependencyProvider_get fuel ctx (Some (DRef type))) Ret.

End Engine.

(** ** Top-level code

    Code outside the engine calls [dm.get] / [dm.create] (the call returns a
    promise at once) and lets the event loop run. *)

Definition Config : Type := Sched * Heap.

Definition call (c : cmd) (cfg : Config) : addr * Config :=
  let '(σ, h) := cfg in
  let '(p, σ1, h1) := spawn c σ h in (p, (σ1, h1)).

Definition run (n : nat) (cfg : Config) : Config :=
  let '(σ, h) := cfg in loop n σ h.

(** Nothing is left to run, and the model did not run out of depth. *)
Definition quiescent (cfg : Config) : Prop :=
  queue cfg.1 = [] ∧ exhausted cfg.1 = false.

Definition outcome (p : addr) (cfg : Config) : option Settled :=
  result p cfg.1.

(** The engine of [bootstrap]: [new lib.DefinitionResolver(defRegistry, [])]. *)
Definition bootstrapResolvers : DefinitionResolvers := [].

Definition dm_get (type : TypeToken) : cmd :=
  DependencyManager_get bootstrapResolvers 32 type.

Definition dm_create (type : TypeToken) (parameters_ : list (string * val)) : cmd :=
  DependencyManager_create bootstrapResolvers 32 type parameters_.

(** The registry after [dm.bind(type)] gave a type not bound before the
    definition [d]. *)
Definition bound (type : TypeToken) (d : Definition_) (h : Heap) : Heap :=
  set_defRegistry <[type := length (defs h)]> (set_defs (λ l, l ++ [d]) h).

(** [dm.bind(type).toClass(ctor)] with arguments and properties. *)
Definition toClass (type : TypeToken) (ctor : string)
    (args : option (list slot))
    (props : option (list (string * option Dependency))) : Definition_ :=
  DType type None (Some (Construct ctor)) args props.

(** [dm.bind(type).toClass(ctor).shared(b)]. *)
Definition toClassShared (type : TypeToken) (ctor : string) (b : bool)
    (args : option (list slot))
    (props : option (list (string * option Dependency))) : Definition_ :=
  DType type (Some b) (Some (Construct ctor)) args props.

(** [dm.bind(type).toFactory(() => { throw new Error(e) })]. *)
Definition toFailing (type : TypeToken) (e : Error)
    (props : option (list (string * option Dependency))) : Definition_ :=
  DType type None (Some (Raise e)) None props.

(** *** Scenarios *)

(** One class, bound with the default sharing. *)
Definition heapFoo : Heap := bound "foo" (toClass "foo" "Foo" None None) emptyHeap.

(** [await dm.get("foo")], then [await dm.create("foo", {})]. *)
Definition getThenCreate : option Settled * option Settled * Config * Config :=
  let '(p1, cfg) := call (dm_get "foo") (emptySched, heapFoo) in
  let cfg1 := run 64 cfg in
  let '(p2, cfg) := call (dm_create "foo" []) cfg1 in
  let cfg2 := run 64 cfg in
  (outcome p1 cfg2, outcome p2 cfg2, cfg1, cfg2).

(** [await dm.get(t)] twice, one after the other. *)
Definition getTwice (h : Heap) (t : TypeToken)
  : option Settled * option Settled * Config * Config :=
  let '(p1, cfg) := call (dm_get t) (emptySched, h) in
  let cfg1 := run 64 cfg in
  let '(p2, cfg) := call (dm_get t) cfg1 in
  let cfg2 := run 64 cfg in
  (outcome p1 cfg2, outcome p2 cfg2, cfg1, cfg2).

(** [dm.get(t)] twice without waiting in between, and once more later. *)
Definition getConcurrently (h : Heap) (t : TypeToken)
  : option Settled * option Settled * option Settled * Config :=
  let '(p1, cfg) := call (dm_get t) (emptySched, h) in
  let '(p2, cfg) := call (dm_get t) cfg in
  let cfg := run 64 cfg in
  let '(p3, cfg) := call (dm_get t) cfg in
  let cfg := run 64 cfg in
  (outcome p1 cfg, outcome p2 cfg, outcome p3 cfg, cfg).

(** [await dm.get(t)]. *)
Definition getOnce (h : Heap) (t : TypeToken) : option Settled * Config :=
  let '(p, cfg) := call (dm_get t) (emptySched, h) in
  let cfg := run 256 cfg in
  (outcome p cfg, cfg).

(** An array with a class at both ends, a hole and an [undefined] between. *)
Definition heapPair : Heap :=
  bound "pair" (makeArray [Some (Some (DRef "foo")); None; Some None;
                           Some (Some (DRef "foo"))]) heapFoo.

(** Two classes that name each other as a property / as an argument. *)
Definition heapPropsCycle : Heap :=
  bound "B" (toClass "B" "B" None (Some [("a", Some (DRef "A"))]))
    (bound "A" (toClass "A" "A" None (Some [("b", Some (DRef "B"))])) emptyHeap).

Definition heapArgsCycle (sh : option bool) : Heap :=
  bound "B" (DType "B" sh (Some (Construct "B")) (Some [Some (Some (DRef "A"))]) None)
    (bound "A" (DType "A" sh (Some (Construct "A")) (Some [Some (Some (DRef "B"))]) None)
       emptyHeap).

(** A class whose factory throws, with a property of another class. *)
Definition heapFailing : Heap :=
  bound "P" (toClass "P" "P" None None)
    (bound "T" (toFailing "T" "boom" (Some [("p", Some (DRef "P"))])) emptyHeap).

(** Aliases: [A -> B -> C], and [A2 -> C]. *)
Definition heapChain : Heap :=
  bound "A2" (makeReference "C")
    (bound "C" (toClass "C" "C" None None)
       (bound "B" (makeReference "C")
          (bound "A" (makeReference "B") emptyHeap))).

Definition rootCtx : DiContext := mkCtx [] true None None None.

(** [await resolver.resolve(ctx, t)] for each [t] of the list, in turn. *)
Fixpoint resolveEach (resolvers : DefinitionResolvers) (ts : list Dependency)
    (cfg : Config) : list (option Settled) * Config :=
  match ts with
  | [] => ([], cfg)
  | t :: ts' =>
      let '(p, cfg) := call (DefinitionResolver_resolve resolvers 8 rootCtx t) cfg in
      let cfg := run 64 cfg in
      let '(rs, cfg') := resolveEach resolvers ts' cfg in
      (outcome p cfg :: rs, cfg')
  end.

(** A plugin that supplies the factory of a type that has none. *)
Definition autowire : IDefinitionResolver :=
  mkResolver (λ _ d,
    match d with
    | DType t sh None a p => DType t sh (Some (Construct t)) a p
    | _ => d
    end).

(** The store and the scheduler after [await dm.get("foo")]. *)
Definition afterFirstGet : Config :=
  run 64 (call (dm_get "foo") (emptySched, heapFoo)).2.

(** Two classes bound with [shared(false)], each taking the other as its
    constructor argument. *)
Definition heapTransientCycle (a b ca cb : string) : Heap :=
  bound b (toClassShared b cb false (Some [Some (Some (DRef a))]) None)
    (bound a (toClassShared a ca false (Some [Some (Some (DRef b))]) None)
       emptyHeap).

(** ** Requests for one shared type

    The top-level calls [dm.get(t)] for a shared type that has a
    constructor and neither arguments nor properties, as the scheduler holds
    them between two jobs.  [r] is the resolved definition of the type, [h0]
    the store when the first of the calls has started. *)

(** Where the one [ObjectFactory.create] of the type stands. *)
Inductive CreateStage := CArgs | CInvoke | CPublish | CAssign.

(** The jobs of the requests: [get] resumes with the definition; the
    promise of [getType] adopts the instance; [get] returns it; [create]
    resumes. *)
Inductive RequestJob :=
| AResume (p : addr)
| AAdopt (p pp : addr)
| AReturn (p : addr)
| ACreate (B : addr) (s : CreateStage).

(** [B] is the first cell [getType] allocated for the request [pC] that
    found the instance registry empty: its own promise, then the future, the
    promise of [create], of [getFactory] and of [getArgs]. *)
Inductive Build :=
| NotStarted
| Building (B pC : addr) (s : CreateStage)
| Built (B : addr).

Record Requests := mkRequests {
  aq : list RequestJob;
  waiting : list (addr * addr);
  finished : list addr;
  bld : Build
}.

Section SharedRequests.

Variables (f1 : nat) (tt : TypeToken) (r : addr) (c : string) (h0 : Heap).

Definition builtObject : val := VObj (length (instances h0)).

Definition createCtx (B : addr) : DiContext :=
  mkCtx [r] true None (Some (VFut (B + 1))) (Some (length (ctxRegistries h0))).

Definition job (j : RequestJob) : Job :=
  match j with
  | AResume p =>
      JRun p (DependencyProvider_get_resume
                (DependencyProvider_get [] f1) (objProvider_get [] f1)
                (objFactory_create [] f1)
                (mkCtx [] true None None None) (VDef r))
  | AAdopt p pp => JRun pp (Ret builtObject)
  | AReturn p => JRun p (Ret builtObject)
  | ACreate B CArgs =>
      JRun (B + 2)
        (create_awaitArgs (DependencyProvider_get [] f1) (createCtx B) r
           (VProm (B + 4)) (VFactory (Construct c)))
  | ACreate B CInvoke =>
      JRun (B + 2)
        (create_invoke (DependencyProvider_get [] f1) (createCtx B) r
           (VFactory (Construct c)) (VArr (length (arrays h0))))
  | ACreate B CPublish =>
      JRun (B + 2)
        (create_publish (DependencyProvider_get [] f1) (createCtx B) r
           builtObject)
  | ACreate B CAssign =>
      JRun (B + 2) (create_assign builtObject (VRec (length (records h0))))
  end.

(** The store while the instance is built. *)
Definition heapAt (b : Build) (extra : list (gmap symbol val)) : Heap :=
  match b with
  | NotStarted => h0
  | Building B _ s =>
      mkHeap (defs h0) (resolvedSym h0) (defRegistry h0)
        (<[r := VFut (B + 1)]> (objRegistry h0))
        (ctxRegistries h0 ++ <[hashOf tt := VFut (B + 1)]> ∅ :: extra)
        (arrays h0 ++ [[]])
        (match s with
         | CAssign => records h0 ++ [[]]
         | _ => records h0
         end)
        (match s with
         | CArgs | CInvoke => instances h0
         | CPublish => instances h0 ++ [mkInstance c [] None []]
         | CAssign => instances h0 ++ [mkInstance c [] (Some tt) []]
         end)
        (match s with
         | CArgs | CInvoke => factoryLog h0
         | _ => factoryLog h0 ++ [(r, [])]
         end)
        (pluginLog h0)
  | Built B =>
      mkHeap (defs h0) (resolvedSym h0) (defRegistry h0)
        (<[r := VFut (B + 1)]> (objRegistry h0))
        (ctxRegistries h0 ++ <[hashOf tt := VFut (B + 1)]> ∅ :: extra)
        (arrays h0 ++ [[]]) (records h0 ++ [[]])
        (instances h0 ++ [mkInstance c [] (Some tt) []])
        (factoryLog h0 ++ [(r, [])]) (pluginLog h0)
  end.

(** [pp] is pending and will hand its value to the pending [p]. *)
Definition awaits (cs : list Cell) (p pp : addr) : Prop :=
  cs !! pp = Some (mkCell None [RAwait p Ret] 0) ∧
  cs !! p = Some (mkCell None [] 0).

Definition job_ok (cs : list Cell) (j : RequestJob) : Prop :=
  match j with
  | AResume p | AReturn p => cs !! p = Some (mkCell None [] 0)
  | AAdopt p pp => awaits cs p pp
  | ACreate _ _ => True
  end.

Definition requester (j : RequestJob) : option addr :=
  match j with
  | AResume p | AReturn p | AAdopt p _ => Some p
  | ACreate _ _ => None
  end.

Definition creation (j : RequestJob) : option (addr * CreateStage) :=
  match j with
  | ACreate B s => Some (B, s)
  | _ => None
  end.

Definition builder (b : Build) : list addr :=
  match b with
  | Building _ pC _ => [pC]
  | _ => []
  end.

(** The promises of all the requests made so far. *)
Definition requests (a : Requests) : list addr :=
  omap requester (aq a) ++ (waiting a).*1 ++ finished a ++ builder (bld a).

Definition settledWith (v : val) : Cell := mkCell (Some (Fulfilled v)) [] 0.

(** The future of the instance. *)
Definition future (b : Build) : list addr :=
  match b with
  | NotStarted => []
  | Building B _ _ | Built B => [B + 1]
  end.

(** The cells of the request that builds the instance: the future is
    pending, with the requests that joined, until [create] sets it. *)
Definition build_cells (b : Build) (w : list (addr * addr))
    (cs : list Cell) : Prop :=
  match b with
  | NotStarted => True
  | Building B pC s =>
      awaits cs pC B ∧
      cs !! (B + 2) = Some (mkCell None [RAdopt B] 0) ∧
      match s with
      | CAssign => cs !! (B + 1) = Some (settledWith builtObject)
      | _ => cs !! (B + 1) = Some (mkCell None (map (λ w, RAdopt w.2) w) 0)
      end ∧
      match s with
      | CArgs => cs !! (B + 4) = Some (settledWith (VArr (length (arrays h0))))
      | _ => True
      end
  | Built B => cs !! (B + 1) = Some (settledWith builtObject)
  end.

(** Which jobs there are at which stage. *)
Definition build_book (a : Requests) : Prop :=
  match bld a with
  | NotStarted =>
      waiting a = [] ∧ finished a = [] ∧
      Forall (λ j, ∃ p, j = AResume p) (aq a)
  | Building B pC s =>
      omap creation (aq a) = [(B, s)] ∧ (s = CAssign → waiting a = [])
  | Built B => omap creation (aq a) = [] ∧ waiting a = []
  end.

(** [cs'] holds every cell of [cs] but, possibly, the one at [x]. *)
Definition unchanged (x : addr) (cs cs' : list Cell) : Prop :=
  ∀ y cy, cs !! y = Some cy → y ≠ x → cs' !! y = Some cy.

(** What holds between two jobs. *)
Record Inv (e : bool) (a : Requests) (σ : Sched) (h : Heap) : Prop := mkInv {
  inv_queue : queue σ = map job (aq a);
  inv_exhausted : exhausted σ = e;
  inv_jobs : Forall (job_ok (cells σ)) (aq a);
  inv_waiting : Forall (λ w, awaits (cells σ) w.1 w.2) (waiting a);
  inv_finished :
    Forall (λ p, cells σ !! p = Some (settledWith builtObject)) (finished a);
  inv_nodup : NoDup (requests a);
  inv_future : Forall (λ F, F ∉ requests a) (future (bld a));
  inv_cells : build_cells (bld a) (waiting a) (cells σ);
  inv_book : build_book a;
  inv_heap : ∃ extra, h = heapAt (bld a) extra
}.

(** The jobs the requests still need. *)
Definition jobTicks (j : RequestJob) : nat :=
  match j with
  | AResume _ => 3
  | AAdopt _ _ => 2
  | AReturn _ => 1
  | ACreate _ _ => 0
  end.

Definition buildTicks (b : Build) : nat :=
  match b with
  | NotStarted => 4
  | Building _ _ CArgs => 6
  | Building _ _ CInvoke => 5
  | Building _ _ CPublish => 4
  | Building _ _ CAssign => 3
  | Built _ => 0
  end.

Definition ticksLeft (a : Requests) : nat :=
  sum_list_with jobTicks (aq a) + 2 * length (waiting a) + buildTicks (bld a).

End SharedRequests.

(** The store [h] holds the definition [d] of [t], resolved to the class
    [r] that was not built yet. *)
Record Resolved (t tt : TypeToken) (d r : addr) (sh : option bool)
    (c : string) (h : Heap) : Prop := mkResolved {
  res_bound : defRegistry h !! t = Some d;
  res_literal : ∃ D, defs h !! d = Some D ∧ kind D ≠ KReference;
  res_resolved : resolvedSym h !! d = Some r;
  res_class : defs h !! r = Some (DType tt sh (Some (Construct c)) None None);
  res_shared : default true sh = true;
  res_fresh : objRegistry h !! r = None
}.

(** Top-level code over time: it calls [c] (and keeps the promise), or lets
    the event loop run one job. *)
Inductive Event := Request | Tick.

Fixpoint play (c : cmd) (evs : list Event) (cfg : Config)
  : list addr * Config :=
  match evs with
  | [] => ([], cfg)
  | Request :: evs' =>
      let '(p, cfg1) := call c cfg in
      let '(ps, cfg') := play c evs' cfg1 in
      (p :: ps, cfg')
  | Tick :: evs' => play c evs' (run 1 cfg)
  end.

(** A class whose factory throws, bound with the default sharing. *)
Definition heapThrowing : Heap := bound "T" (toFailing "T" "boom" None) emptyHeap.

(** ** Stores reached from top-level code *)

(** Nothing is recorded for a definition object that does not exist yet:
    neither a resolution nor a future of the instance registry. *)
Definition noDangling (h : Heap) : Prop :=
  ∀ d, length (defs h) ≤ d →
    resolvedSym h !! d = None ∧ objRegistry h !! d = None.

(** Aliases that lead to aliases only: every definition of the set [S] is a
    [Reference] whose target is bound to a definition of [S] that carries no
    resolution. *)
Definition aliasLoop (h : Heap) (S : addr → Prop) : Prop :=
  ∀ d, S d →
    ∃ t d', defs h !! d = Some (DReference t) ∧
            defRegistry h !! t = Some d' ∧
            resolvedSym h !! d' = None ∧ S d'.

(** ** The writes of the element callbacks

    The callbacks of [getArray] (of [getRecord]) whose [await] was answered
    run in the order in which the elements settled; each writes its own
    index (key) of [elems].  A write is the promise of the callback with the
    place and the value. *)
Definition elementWrites (elems : addr) (ws : list (addr * (nat * val)))
    (cfg : Config) : Config :=
  foldl (λ cfg w, exec w.1 (setElement elems w.2.1 w.2.2) cfg.1 cfg.2) cfg ws.

Definition propertyWrites (elems : addr) (ws : list (addr * (string * val)))
    (cfg : Config) : Config :=
  foldl (λ cfg w, exec w.1 (setProperty elems w.2.1 w.2.2) cfg.1 cfg.2) cfg ws.

(** ** Configuration: [DependencyManager.bind] and the bindings (src/lib)

    A binding changes the Definition object registered for its type.
    [Object.assign(this.def, {kind, ...})] sets the kind and one field and
    leaves every other field of the object where it is, so a Definition
    object under configuration is a record of optional fields and not one
    case of the tagged union.  What follows models the configuration of a
    registry before its definitions are resolved: the copy made by
    [resolve] shares the arrays of the object it copies. *)

(** [def.elements]: an array for an [Array], a plain object for a
    [Record]. *)
Inductive Elements : Type :=
| EArray (l : list slot)
| ERecord (l : list (string * option Dependency)).

Record DefObject := mkDefObject {
  def_kind : Kind;
  def_type : option TypeToken;
  def_shared : option bool;
  def_factory : option AsyncFactory;
  def_args : option (list slot);
  def_props : option (list (string * option Dependency));
  def_elements : option Elements;
  def_value : option val;
  def_target : option TypeToken
}.

(** The object that [makeValue], [makeType], ... build. *)
Definition objectOf (d : Definition_) : DefObject :=
  match d with
  | DValue v =>
      mkDefObject KValue None None None None None None (Some v) None
  | DArray els =>
      mkDefObject KArray None None None None None (EArray <$> els) None None
  | DRecord els =>
      mkDefObject KRecord None None None None None (ERecord <$> els) None None
  | DType t sh f a p =>
      mkDefObject KType (Some t) sh f a p None None None
  | DReference t =>
      mkDefObject KReference None None None None None None None (Some t)
  end.

(** How the engine reads a Definition object: by its kind.  An object the
    engine cannot read as that kind has no reading here. *)
Definition view (o : DefObject) : option Definition_ :=
  match def_kind o with
  | KValue => Some (DValue (default VUndef (def_value o)))
  | KArray =>
      match def_elements o with
      | None => Some (DArray None)
      | Some (EArray l) => Some (DArray (Some l))
      | Some (ERecord _) => None
      end
  | KRecord =>
      match def_elements o with
      | None => Some (DRecord None)
      | Some (ERecord l) => Some (DRecord (Some l))
      | Some (EArray _) => None
      end
  | KType =>
      t ← def_type o;
      Some (DType t (def_shared o) (def_factory o) (def_args o) (def_props o))
  | KReference => DReference <$> def_target o
  end.

(** The Definition objects and the DefinitionRegistry. *)
Record Bindings := mkBindings {
  objects : list DefObject;
  bindings : gmap TypeToken addr
}.

Definition noBindings : Bindings := mkBindings [] ∅.

(** [this.def = f(this.def)] for the binding of the object [def]. *)
Definition update (f : DefObject → option DefObject) (def : addr)
    (b : Bindings) : option Bindings :=
  o ← objects b !! def;
  o' ← f o;
  Some (mkBindings (<[def := o']> (objects b)) (bindings b)).

(** [DependencyManager.bind] with the constructor of [BaseBining]: the
    definition registered for the type, or a new [makeType(type)]. *)
Definition DependencyManager_bind (type : TypeToken) (b : Bindings)
  : addr * Bindings :=
  match bindings b !! type with
  | Some def => (def, b)
  | None =>
      let def := length (objects b) in
      (def, mkBindings (objects b ++ [objectOf (makeType type)])
                       (<[type := def]> (bindings b)))
  end.

(** [BaseBining.definition]: [if (ref)] fails for [undefined] and for the
    empty string. *)
Definition BaseBining_definition (ref : option Dependency)
  : option Dependency :=
  match ref with
  | Some (DRef EmptyString) => None
  | _ => ref
  end.

(** [a || b] on what [definition] returns. *)
Definition orElse (a b : option Dependency) : option Dependency :=
  match a with
  | Some _ => a
  | None => b
  end.

(** [arr[index]] and [arr[index] = v] on an array of dependencies. *)
Definition slotGet (l : list slot) (index : nat) : option Dependency :=
  match l !! index with
  | Some (Some v) => v
  | _ => None
  end.

Definition slotSet (l : list slot) (index : nat) (v : option Dependency)
  : list slot :=
  if decide (index < length l) then <[index := Some v]> l
  else l ++ replicate (index - length l) None ++ [Some v].

(** [obj[key]] and [obj[key] = v] on a plain object of dependencies. *)
Fixpoint fieldGet (l : list (string * option Dependency)) (key : string)
  : option Dependency :=
  match l with
  | [] => None
  | (k', v') :: l' => if decide (k' = key) then v' else fieldGet l' key
  end.

Fixpoint fieldSet (l : list (string * option Dependency)) (key : string)
    (v : option Dependency) : list (string * option Dependency) :=
  match l with
  | [] => [(key, v)]
  | (k', v') :: l' =>
      if decide (k' = key) then (k', v) :: l' else (k', v') :: fieldSet l' key v
  end.

(** [BaseBining.tagType]. *)
Definition BaseBining_tagType (tag : TypeToken) (def : addr) (b : Bindings)
  : option Bindings :=
  let '(tagDef, b1) :=
    match bindings b !! tag with
    | Some tagDef => (tagDef, b)
    | None =>
        let tagDef := length (objects b) in
        (tagDef, mkBindings (objects b ++ [objectOf (makeArray [])])
                            (<[tag := tagDef]> (bindings b)))
    end in
  update (λ o,
    match def_kind o with
    | KArray =>
        match def_elements o with
        | Some (ERecord _) => None
        | els =>
            let l := match els with Some (EArray l) => l | _ => [] end in
            Some (mkDefObject (def_kind o) (def_type o) (def_shared o)
                    (def_factory o) (def_args o) (def_props o)
                    (Some (EArray (l ++ [Some (Some (DDef def))])))
                    (def_value o) (def_target o))
        end
    | _ => Some o
    end) tagDef b1.

(** *** ArrayBinding *)

(** [ArrayBinding.elements]: the array of the definition, made if there is
    none.  Nothing is said here of a definition whose [elements] is a plain
    object. *)
Definition ArrayBinding_elements (o : DefObject) : option (list slot) :=
  match def_elements o with
  | None => Some []
  | Some (EArray l) => Some l
  | Some (ERecord _) => None
  end.

Definition set_elements (els : Elements) (o : DefObject) : DefObject :=
  mkDefObject (def_kind o) (def_type o) (def_shared o) (def_factory o)
    (def_args o) (def_props o) (Some els) (def_value o) (def_target o).

(** [elems[index] = this.definition(value) || elems[index]]. *)
Definition assignSlot (value : option Dependency) (elems : list slot)
    (index : nat) : list slot :=
  slotSet elems index
    (orElse (BaseBining_definition value) (slotGet elems index)).

(** [for (let index = 0; index < +args.length; index++) ...]. *)
Definition assignSlots (args elems : list slot) : list slot :=
  foldl (λ elems index, assignSlot (slotGet args index) elems index)
        elems (seq 0 (length args)).

Definition ArrayBinding_withElement (index : nat) (value : option Dependency)
  : addr → Bindings → option Bindings :=
  update (λ o,
    elems ← ArrayBinding_elements o;
    Some (set_elements (EArray (assignSlot value elems index)) o)).

Definition ArrayBinding_withElements (args : list slot)
  : addr → Bindings → option Bindings :=
  update (λ o,
    elems ← ArrayBinding_elements o;
    Some (set_elements (EArray (assignSlots args elems)) o)).

(** *** RecordBinding *)

(** [RecordBinding.fields]; nothing is said of a definition whose
    [elements] is an array. *)
Definition RecordBinding_fields (o : DefObject)
  : option (list (string * option Dependency)) :=
  match def_elements o with
  | None => Some []
  | Some (ERecord l) => Some l
  | Some (EArray _) => None
  end.

(** [fields[key] = this.definition(value) || fields[key]]. *)
Definition assignField (fields : list (string * option Dependency))
    (key : string) (value : option Dependency)
  : list (string * option Dependency) :=
  fieldSet fields key
    (orElse (BaseBining_definition value) (fieldGet fields key)).

(** [for (const key in props) ...]. *)
Definition assignFields (props fields : list (string * option Dependency))
  : list (string * option Dependency) :=
  foldl (λ fields kv, assignField fields kv.1 (fieldGet props kv.1))
        fields props.

Definition RecordBinding_withField (key : string) (value : option Dependency)
  : addr → Bindings → option Bindings :=
  update (λ o,
    fields ← RecordBinding_fields o;
    Some (set_elements (ERecord (assignField fields key value)) o)).

Definition RecordBinding_withFields
    (props : list (string * option Dependency))
  : addr → Bindings → option Bindings :=
  update (λ o,
    fields ← RecordBinding_fields o;
    Some (set_elements (ERecord (assignFields props fields)) o)).

(** *** TypeBinding *)

Definition set_shared (sh : bool) (o : DefObject) : DefObject :=
  mkDefObject (def_kind o) (def_type o) (Some sh) (def_factory o)
    (def_args o) (def_props o) (def_elements o) (def_value o) (def_target o).

Definition set_args (args : list slot) (o : DefObject) : DefObject :=
  mkDefObject (def_kind o) (def_type o) (def_shared o) (def_factory o)
    (Some args) (def_props o) (def_elements o) (def_value o) (def_target o).

Definition set_props (props : list (string * option Dependency))
    (o : DefObject) : DefObject :=
  mkDefObject (def_kind o) (def_type o) (def_shared o) (def_factory o)
    (def_args o) (Some props) (def_elements o) (def_value o) (def_target o).

(** [TypeBinding.args] and [TypeBinding.props]. *)
Definition TypeBinding_args (o : DefObject) : list slot :=
  default [] (def_args o).

Definition TypeBinding_props (o : DefObject)
  : list (string * option Dependency) :=
  default [] (def_props o).

Definition TypeBinding_shared (sh : bool)
  : addr → Bindings → option Bindings :=
  update (λ o, Some (set_shared sh o)).

Definition TypeBinding_tag (tag : TypeToken)
  : addr → Bindings → option Bindings :=
  BaseBining_tagType tag.

Definition TypeBinding_withArgument (index : nat) (value : option Dependency)
  : addr → Bindings → option Bindings :=
  update (λ o,
    Some (set_args (assignSlot value (TypeBinding_args o) index) o)).

Definition TypeBinding_withProperty (key : string) (value : option Dependency)
  : addr → Bindings → option Bindings :=
  update (λ o,
    Some (set_props (assignField (TypeBinding_props o) key value) o)).

Definition TypeBinding_withArguments (value : list slot)
  : addr → Bindings → option Bindings :=
  update (λ o,
    Some (set_args (assignSlots value (TypeBinding_args o)) o)).

Definition TypeBinding_withProperties
    (value : list (string * option Dependency))
  : addr → Bindings → option Bindings :=
  update (λ o,
    Some (set_props (assignFields value (TypeBinding_props o)) o)).

(** *** Binding *)

(** [Object.assign(this.def, {kind, factory})] and the like. *)
Definition assign_factory (f : AsyncFactory) (o : DefObject) : DefObject :=
  mkDefObject KType (def_type o) (def_shared o) (Some f)
    (def_args o) (def_props o) (def_elements o) (def_value o) (def_target o).

Definition assign_elements (k : Kind) (els : Elements) (o : DefObject)
  : DefObject :=
  mkDefObject k (def_type o) (def_shared o) (def_factory o)
    (def_args o) (def_props o) (Some els) (def_value o) (def_target o).

Definition assign_target (t : TypeToken) (o : DefObject) : DefObject :=
  mkDefObject KReference (def_type o) (def_shared o) (def_factory o)
    (def_args o) (def_props o) (def_elements o) (def_value o) (Some t).

Definition assign_value (v : val) (o : DefObject) : DefObject :=
  mkDefObject KValue (def_type o) (def_shared o) (def_factory o)
    (def_args o) (def_props o) (def_elements o) (Some v) (def_target o).

(** [Binding.toClass]: the factory is [async (...args) => new ctor(...args)]. *)
Definition Binding_toClass (ctor : string)
  : addr → Bindings → option Bindings :=
  update (λ o, Some (assign_factory (Construct ctor) o)).

(** [Binding.toFactory]: [fn] is user code, given by what it does. *)
Definition Binding_toFactory (fn : AsyncFactory)
  : addr → Bindings → option Bindings :=
  update (λ o, Some (assign_factory fn o)).

(** The loop of [Binding.toArray]: [elems[index] = this.definition(arr[index])]. *)
Definition copySlots (arr : list slot) : list slot :=
  foldl (λ elems index,
           slotSet elems index (BaseBining_definition (slotGet arr index)))
        [] (seq 0 (length arr)).

Definition Binding_toArray (arr : option (list slot))
  : addr → Bindings → option Bindings :=
  update (λ o,
    Some (assign_elements KArray (EArray (copySlots (default [] arr))) o)).

(** The loop of [Binding.toRecord]: [elems[key] = this.definition(rec[key])]. *)
Definition copyFields (rec : list (string * option Dependency))
  : list (string * option Dependency) :=
  foldl (λ elems kv,
           fieldSet elems kv.1 (BaseBining_definition (fieldGet rec kv.1)))
        [] rec.

Definition Binding_toRecord (rec : option (list (string * option Dependency)))
  : addr → Bindings → option Bindings :=
  update (λ o,
    Some (assign_elements KRecord (ERecord (copyFields (default [] rec))) o)).

Definition Binding_toType (type : TypeToken)
  : addr → Bindings → option Bindings :=
  update (λ o, Some (assign_target type o)).

Definition Binding_toValue (v : val)
  : addr → Bindings → option Bindings :=
  update (λ o, Some (assign_value v o)).

(** The calls [.m1(...).m2(...)] on the binding of [def], and a statement
    [dm.bind(type).m1(...).m2(...)]. *)
Definition chain (ms : list (addr → Bindings → option Bindings)) (def : addr)
    (b : Bindings) : option Bindings :=
  foldl (λ acc m, acc ≫= m def) (Some b) ms.

Definition bindThen (type : TypeToken)
    (ms : list (addr → Bindings → option Bindings)) (b : Bindings)
  : option Bindings :=
  let '(def, b1) := DependencyManager_bind type b in chain ms def b1.

(** Statements, one after the other. *)
Definition configure (stmts : list (Bindings → option Bindings))
    (b : Bindings) : option Bindings :=
  foldl (λ acc stmt, acc ≫= stmt) (Some b) stmts.

(** The store the engine starts from: every Definition object as the engine
    reads it, the registry, and nothing resolved or built yet. *)
Definition heapOfBindings (b : Bindings) : option Heap :=
  defs ← mapM view (objects b);
  Some (mkHeap defs ∅ (bindings b) ∅ [] [] [] [] [] []).

(** *** src/bootstrap.ts *)

Definition api_IDefinitionResolver : TypeToken :=
  "@saggitarius/di::IDefinitionResolver".
Definition api_IDependencyProvider : TypeToken :=
  "@saggitarius/di::IDependencyProvider".
Definition api_IObjectFactory : TypeToken := "@saggitarius/di::IObjectFactory".
Definition api_IObjectProvider : TypeToken := "@saggitarius/di::IObjectProvider".
Definition api_IDependencyManager : TypeToken :=
  "@saggitarius/di::IDependencyManager".
Definition lib_InstanceRegistry : TypeToken :=
  "@saggitarius/di/lib::InstanceRegistry".
Definition lib_DefinitionRegistry : TypeToken :=
  "@saggitarius/di/lib::DefinitionRegistry".
Definition lib_DefinitionResolvers : TypeToken :=
  "@saggitarius/di/lib::DefinitionResolvers".
Definition lib_DependencyProvider : TypeToken :=
  "@saggitarius/di/lib::DependencyProvider".
Definition lib_DefinitionResolver : TypeToken :=
  "@saggitarius/di/lib::DefinitionResolver".
Definition lib_ObjectFactory : TypeToken := "@saggitarius/di/lib::ObjectFactory".
Definition lib_ObjectProvider : TypeToken := "@saggitarius/di/lib::ObjectProvider".
Definition lib_DependencyManager : TypeToken :=
  "@saggitarius/di/lib::DependencyManager".

(** An array literal of references. *)
Definition refs (ts : list TypeToken) : list slot :=
  map (λ t, Some (Some (DRef t))) ts.

(** The bindings [bootstrap] makes, in its order; the factory of the
    DefinitionRegistry builds a new [Map]. *)
Definition bootstrap : option Bindings :=
  configure
    [ bindThen api_IDefinitionResolver [Binding_toType lib_DefinitionResolver];
      bindThen api_IDependencyProvider [Binding_toType lib_DependencyProvider];
      bindThen api_IObjectFactory [Binding_toType lib_ObjectFactory];
      bindThen api_IObjectProvider [Binding_toType lib_ObjectProvider];
      bindThen api_IDependencyManager [Binding_toType lib_DependencyManager];
      bindThen api_IDefinitionResolver [Binding_toType lib_DefinitionResolver];
      bindThen lib_DefinitionRegistry [Binding_toFactory (Construct "Map")];
      bindThen lib_InstanceRegistry [Binding_toClass "WeakMap"];
      bindThen lib_DefinitionResolvers [Binding_toArray None];
      bindThen lib_DefinitionResolver
        [TypeBinding_withArgument 0 (Some (DRef lib_DefinitionRegistry))];
      bindThen lib_DefinitionResolver
        [Binding_toClass "DefinitionResolver";
         TypeBinding_withArguments
           (refs [lib_DefinitionRegistry; lib_DefinitionResolvers])];
      bindThen lib_DependencyProvider
        [Binding_toClass "DependencyProvider";
         TypeBinding_withArguments (refs [api_IDefinitionResolver]);
         TypeBinding_withProperty "provider" (Some (DRef api_IObjectProvider));
         TypeBinding_withProperty "factory" (Some (DRef api_IObjectFactory))];
      bindThen lib_ObjectFactory
        [Binding_toClass "ObjectFactory";
         TypeBinding_withArguments
           (refs [api_IDependencyProvider; lib_InstanceRegistry])];
      bindThen lib_ObjectProvider
        [Binding_toClass "ObjectProvider";
         TypeBinding_withArguments
           (refs [api_IObjectFactory; lib_InstanceRegistry])];
      bindThen lib_DependencyManager
        [Binding_toClass "DependencyManager";
         TypeBinding_withArguments
           (refs [api_IDependencyProvider; lib_DefinitionRegistry])] ]
    noBindings.

(** The methods of [IBinding]: those that say what the type is bound to. *)
Inductive Rebinding : (addr → Bindings → option Bindings) → Prop :=
| Rebinding_toClass ctor : Rebinding (Binding_toClass ctor)
| Rebinding_toArray arr : Rebinding (Binding_toArray arr)
| Rebinding_toRecord rec : Rebinding (Binding_toRecord rec)
| Rebinding_toType type : Rebinding (Binding_toType type)
| Rebinding_toValue v : Rebinding (Binding_toValue v)
| Rebinding_toFactory fn : Rebinding (Binding_toFactory fn).

(** * Verification *)

(** ** Stores that only grow at the end *)

Section Fresh.
Context {A : Type}.
Implicit Types l k : list A.

Lemma lookup_fresh l k i : (l ++ k) !! (length l + i) = k !! i.
Proof. rewrite lookup_app_r; [f_equal; lia | lia]. Qed.

Lemma lookup_fresh0 l k : (l ++ k) !! (length l) = k !! 0.
Proof. rewrite lookup_app_r; [by rewrite Nat.sub_diag | lia]. Qed.

Lemma insert_fresh l k i x :
  <[length l + i := x]> (l ++ k) = l ++ <[i := x]> k.
Proof. by rewrite insert_app_r. Qed.

Lemma insert_fresh0 l k x : <[length l := x]> (l ++ k) = l ++ <[0 := x]> k.
Proof. rewrite insert_app_r_alt; [by rewrite Nat.sub_diag | lia]. Qed.

Lemma app_fresh l k k' : (l ++ k) ++ k' = l ++ (k ++ k').
Proof. by rewrite app_assoc. Qed.

Lemma insert_old l k i x y :
  l !! i = Some y → <[i := x]> (l ++ k) = <[i := x]> l ++ k.
Proof. intros H. apply insert_app_l. by eapply lookup_lt_Some. Qed.

(** The same when an old cell was updated. *)
Lemma lookup_fresh_upd l k i x j :
  (<[i := x]> l ++ k) !! (length l + j) = k !! j.
Proof. by rewrite <- (length_insert l i x), lookup_fresh. Qed.

Lemma lookup_fresh0_upd l k i x : (<[i := x]> l ++ k) !! (length l) = k !! 0.
Proof. by rewrite <- (length_insert l i x), lookup_fresh0. Qed.

Lemma insert_fresh_upd l k i x j y :
  <[length l + j := y]> (<[i := x]> l ++ k) = <[i := x]> l ++ <[j := y]> k.
Proof. by rewrite <- (length_insert l i x) at 1; rewrite insert_fresh. Qed.

Lemma insert_fresh0_upd l k i x y :
  <[length l := y]> (<[i := x]> l ++ k) = <[i := x]> l ++ <[0 := y]> k.
Proof. by rewrite <- (length_insert l i x) at 1; rewrite insert_fresh0. Qed.
End Fresh.

(** ** The scheduler, one step at a time *)

Lemma settle_pending cs q e a s rs n :
  cs !! a = Some (mkCell None rs n) →
  settle a s (mkSched cs q e)
  = mkSched (<[a := mkCell (Some s) [] n]> cs)
            (q ++ map (λ r, job_of r s) rs) e.
Proof. intros H. unfold settle. simpl. by rewrite H. Qed.

Lemma settle_settled cs q e a s s' rs n :
  cs !! a = Some (mkCell (Some s') rs n) →
  settle a s (mkSched cs q e) = mkSched cs q e.
Proof. intros H. unfold settle. simpl. by rewrite H. Qed.

Lemma subscribe_pending cs q e a r rs n :
  cs !! a = Some (mkCell None rs n) →
  subscribe a r (mkSched cs q e)
  = mkSched (<[a := mkCell None (rs ++ [r]) n]> cs) q e.
Proof. intros H. unfold subscribe. simpl. by rewrite H. Qed.

Lemma subscribe_settled cs q e a r s rs n :
  cs !! a = Some (mkCell (Some s) rs n) →
  subscribe a r (mkSched cs q e) = mkSched cs (q ++ [job_of r s]) e.
Proof. intros H. unfold subscribe. simpl. by rewrite H. Qed.

Lemma loop_cons n cs j q e h :
  loop (S n) (mkSched cs (j :: q) e) h
  = let '(σ1, h1) := runJob j (mkSched cs q e) h in loop n σ1 h1.
Proof. reflexivity. Qed.

Lemma loop_nil n cs e h : loop n (mkSched cs [] e) h = (mkSched cs [] e, h).
Proof. by destruct n. Qed.

Lemma loop_0 (x : Sched * Heap) : (let '(σ, h) := x in loop 0 σ h) = x.
Proof. by destruct x. Qed.

Lemma loop_O σ h : loop 0 σ h = (σ, h).
Proof. reflexivity. Qed.

Lemma result_fresh cs c q e :
  result (length cs) (mkSched (cs ++ [c]) q e) = state c.
Proof. unfold result. cbn [cells]. by rewrite lookup_fresh0. Qed.

Lemma run_call n c cs q e h :
  run n (call c (mkSched cs q e, h)).2
  = (let '(σ1, h1) := exec (length cs) c (mkSched (cs ++ [mkCell None [] 0]) q e) h in
     loop n σ1 h1).
Proof.
  unfold run, call, spawn, alloc. cbn [cells queue exhausted].
  by destruct (exec _ _ _ _).
Qed.

Lemma DependencyProvider_get_S resolvers fuel ctx dep :
  DependencyProvider_get resolvers (S fuel) ctx dep
  = DependencyProvider_get_body resolvers
      (DependencyProvider_get resolvers fuel)
      (objProvider_get resolvers fuel) (objFactory_create resolvers fuel)
      (S fuel) ctx dep.
Proof. reflexivity. Qed.

Lemma followReferences_eq fuel def tags k :
  followReferences fuel def tags k
  = Get (λ h,
      match defs h !! def with
      | Some (DReference target) =>
          match fuel with
          | 0 => Fuel
          | S fuel' =>
              Resolver_getDefinition (DRef target) (λ def',
                Get (λ h',
                  match resolvedSym h' !! def' with
                  | Some _ => k def' (tags ++ [def])
                  | None =>
                      followReferences fuel' def' (tags ++ [def]) k
                  end))
          end
      | _ => k def tags
      end).
Proof. by destruct fuel. Qed.

Lemma runResolvers_nil ctx index def resolved k :
  runResolvers ctx index [] def resolved k = k.
Proof. reflexivity. Qed.

Lemma runResolvers_cons ctx index r rs def resolved k :
  runResolvers ctx index (r :: rs) def resolved k
  = Async (modify (set_pluginLog (λ l, l ++ [(index, def)])) (Ret VUndef))
      (λ p, Await p (λ _,
         modify (set_defs (λ l,
                   match l !! resolved with
                   | Some d => <[resolved := resolve r ctx d]> l
                   | None => l
                   end))
                (runResolvers ctx (S index) rs def resolved k))).
Proof. reflexivity. Qed.

Lemma mapElements_nil callback index acc k :
  mapElements callback [] index acc k = k acc.
Proof. reflexivity. Qed.

Lemma mapElements_hole callback l index acc k :
  mapElements callback (None :: l) index acc k
  = mapElements callback l (S index) (acc ++ [VUndef]) k.
Proof. reflexivity. Qed.

Lemma mapElements_cons callback def l index acc k :
  mapElements callback (Some def :: l) index acc k
  = Async (callback def index)
      (λ p, mapElements callback l (S index) (acc ++ [p]) k).
Proof. reflexivity. Qed.

Lemma mapKeys_nil callback acc k : mapKeys callback [] acc k = k acc.
Proof. reflexivity. Qed.

Lemma mapKeys_cons callback key def l acc k :
  mapKeys callback ((key, def) :: l) acc k
  = Async (callback key def) (λ p, mapKeys callback l (acc ++ [p]) k).
Proof. reflexivity. Qed.

Lemma alloc_mk c cs q e : alloc c (mkSched cs q e) = mkSched (cs ++ [c]) q e.
Proof. reflexivity. Qed.
Lemma enqueue_mk j cs q e : enqueue j (mkSched cs q e) = mkSched cs (q ++ [j]) e.
Proof. reflexivity. Qed.

Section HeapUpdates.
Context (a : list Definition_) (b : gmap addr addr) (c : gmap TypeToken addr)
  (d : gmap addr val) (e : list (gmap symbol val))
  (f : list (list (option val))) (g : list (list (string * val)))
  (i : list Instance) (j : list (addr * list val)) (k : list (nat * addr)).

Lemma set_defs_mk u :
  set_defs u (mkHeap a b c d e f g i j k) = mkHeap (u a) b c d e f g i j k.
Proof. reflexivity. Qed.
Lemma set_resolvedSym_mk u :
  set_resolvedSym u (mkHeap a b c d e f g i j k) = mkHeap a (u b) c d e f g i j k.
Proof. reflexivity. Qed.
Lemma set_defRegistry_mk u :
  set_defRegistry u (mkHeap a b c d e f g i j k) = mkHeap a b (u c) d e f g i j k.
Proof. reflexivity. Qed.
Lemma set_objRegistry_mk u :
  set_objRegistry u (mkHeap a b c d e f g i j k) = mkHeap a b c (u d) e f g i j k.
Proof. reflexivity. Qed.
Lemma set_ctxRegistries_mk u :
  set_ctxRegistries u (mkHeap a b c d e f g i j k) = mkHeap a b c d (u e) f g i j k.
Proof. reflexivity. Qed.
Lemma set_arrays_mk u :
  set_arrays u (mkHeap a b c d e f g i j k) = mkHeap a b c d e (u f) g i j k.
Proof. reflexivity. Qed.
Lemma set_records_mk u :
  set_records u (mkHeap a b c d e f g i j k) = mkHeap a b c d e f (u g) i j k.
Proof. reflexivity. Qed.
Lemma set_instances_mk u :
  set_instances u (mkHeap a b c d e f g i j k) = mkHeap a b c d e f g (u i) j k.
Proof. reflexivity. Qed.
Lemma set_factoryLog_mk u :
  set_factoryLog u (mkHeap a b c d e f g i j k) = mkHeap a b c d e f g i (u j) k.
Proof. reflexivity. Qed.
Lemma set_pluginLog_mk u :
  set_pluginLog u (mkHeap a b c d e f g i j k) = mkHeap a b c d e f g i j (u k).
Proof. reflexivity. Qed.
Lemma registryStore_mk reg hash fut :
  registryStore reg hash fut (mkHeap a b c d e f g i j k)
  = mkHeap a b c d
      (match e !! reg with
       | Some r => <[reg := <[hash := fut]> r]> e
       | None => e
       end) f g i j k.
Proof. reflexivity. Qed.
End HeapUpdates.

Lemma defineResolved_fresh (m : gmap addr addr) def value :
  m !! def = None → defineResolved def value m = <[def := value]> m.
Proof. intros H. unfold defineResolved. by rewrite H. Qed.

Lemma defineResolved_kept (m : gmap addr addr) def value x :
  m !! def = Some x → defineResolved def value m = m.
Proof. intros H. unfold defineResolved. by rewrite H. Qed.

Lemma forkContext_fresh ctx dep h :
  dep ∉ stack ctx →
  forkContext ctx dep h
  = inr (mkCtx (stack ctx ++ [dep])
               (from_option isShared false (defs h !! dep)) None None
               (Some (length (ctxRegistries h))),
         set_ctxRegistries
           (λ l, l ++ [default ∅ (a ← registry ctx; ctxRegistries h !! a)]) h).
Proof. intros H. unfold forkContext. by rewrite bool_decide_eq_false_2. Qed.

Lemma forkContext_cyclic ctx dep h :
  dep ∈ stack ctx → forkContext ctx dep h = inl "Cyclic dependency".
Proof. intros H. unfold forkContext. by rewrite bool_decide_eq_true_2. Qed.

Global Arguments settle : simpl never.
Global Arguments subscribe : simpl never.

(** Symbolic execution: the command under [exec] is brought to head normal
    form, one constructor is run, the stores are put back in the shape
    [old ++ new]. *)

Ltac norm_store :=
  repeat match goal with
    | |- context [(?l ++ ?k) ++ ?k'] => rewrite (app_fresh l k k')
    | |- context [length (?l ++ ?k)] => rewrite (length_app l k)
    | |- context [length (<[?i := ?x]> ?l)] => rewrite (length_insert l i x)
    | |- context [(?l ++ ?k) !! (length ?l + ?i)] =>
        rewrite (lookup_fresh l k i)
    | |- context [(?l ++ ?k) !! (length ?l)] => rewrite (lookup_fresh0 l k)
    | |- context [<[length ?l + ?i := ?x]> (?l ++ ?k)] =>
        rewrite (insert_fresh l k i x)
    | |- context [<[length ?l := ?x]> (?l ++ ?k)] =>
        rewrite (insert_fresh0 l k x)
    | |- context [(<[?j := ?y]> ?l ++ ?k) !! (length ?l + ?i)] =>
        rewrite (lookup_fresh_upd l k j y i)
    | |- context [(<[?j := ?y]> ?l ++ ?k) !! (length ?l)] =>
        rewrite (lookup_fresh0_upd l k j y)
    | |- context [<[length ?l + ?i := ?x]> (<[?j := ?y]> ?l ++ ?k)] =>
        rewrite (insert_fresh_upd l k j y i x)
    | |- context [<[length ?l := ?x]> (<[?j := ?y]> ?l ++ ?k)] =>
        rewrite (insert_fresh0_upd l k j y x)
    | |- context [<[?i := ?x]> (?l ++ ?k)] =>
        erewrite (insert_old l k i x) by eassumption
    | |- _ =>
        progress cbn [length app lookup list_lookup insert list_insert
                      Nat.add map]
    end.

Ltac solve_cell :=
  norm_store;
  first [ reflexivity | eassumption | (apply lookup_app_l_Some; eassumption) ].

Ltac sched_step :=
  match goal with
  | |- context [settle ?a ?s (mkSched ?cs ?q ?e)] =>
      first [ erewrite (settle_pending cs q e a s) by solve_cell
            | erewrite (settle_settled cs q e a s) by solve_cell ]
  | |- context [subscribe ?a ?r (mkSched ?cs ?q ?e)] =>
      first [ erewrite (subscribe_pending cs q e a r) by solve_cell
            | erewrite (subscribe_settled cs q e a r) by solve_cell ]
  end.

Ltac whnf_cmd c :=
  eval lazy head beta iota zeta delta
    [modify allocDef
     defs resolvedSym defRegistry objRegistry ctxRegistries arrays records
     instances factoryLog pluginLog
     stack shared parameters instance registry
     DependencyManager_get DependencyManager_create
     DependencyProvider_get_body DependencyProvider_get_resume
     DependencyProvider_getDefinition setElement setProperty
     create_awaitArgs create_invoke create_publish create_assign
     DefinitionResolver_resolve Resolver_getDefinition
     getDependency forking getValue getType getArray getRecord
     objFactory_create objProvider_get
     ObjectProvider_get ObjectFactory_create getFactory getArgs getProps
     invoke makeValue makeType makeReference makeArray makeRecord] in c.

Ltac exec_head :=
  match goal with
  | |- context [exec ?own ?c ?σ ?h] =>
      let c' := whnf_cmd c in
      progress change (exec own c σ h) with (exec own c' σ h)
  end.

Ltac sched_cbn :=
  cbn [exec thenable cells queue exhausted job_of runJob subscribeAll
       fst snd
       defs resolvedSym defRegistry objRegistry ctxRegistries arrays records
       instances factoryLog pluginLog
       stack shared parameters instance registry
       DependencyProvider_hashOf hashOf isShared registryLookup
       mbind option_bind default from_option foldl id
       makeValue makeType makeReference makeArray makeRecord
       store assignProps spread cls ctorArgs typeTag fields].

Ltac unfold_state :=
  repeat match goal with
    | |- context [alloc _ (mkSched _ _ _)] => rewrite alloc_mk
    | |- context [enqueue _ (mkSched _ _ _)] => rewrite enqueue_mk
    | |- context [set_defs _ (mkHeap _ _ _ _ _ _ _ _ _ _)] =>
        rewrite set_defs_mk
    | |- context [set_resolvedSym _ (mkHeap _ _ _ _ _ _ _ _ _ _)] =>
        rewrite set_resolvedSym_mk
    | |- context [set_defRegistry _ (mkHeap _ _ _ _ _ _ _ _ _ _)] =>
        rewrite set_defRegistry_mk
    | |- context [set_objRegistry _ (mkHeap _ _ _ _ _ _ _ _ _ _)] =>
        rewrite set_objRegistry_mk
    | |- context [set_ctxRegistries _ (mkHeap _ _ _ _ _ _ _ _ _ _)] =>
        rewrite set_ctxRegistries_mk
    | |- context [set_arrays _ (mkHeap _ _ _ _ _ _ _ _ _ _)] =>
        rewrite set_arrays_mk
    | |- context [set_records _ (mkHeap _ _ _ _ _ _ _ _ _ _)] =>
        rewrite set_records_mk
    | |- context [set_instances _ (mkHeap _ _ _ _ _ _ _ _ _ _)] =>
        rewrite set_instances_mk
    | |- context [set_factoryLog _ (mkHeap _ _ _ _ _ _ _ _ _ _)] =>
        rewrite set_factoryLog_mk
    | |- context [set_pluginLog _ (mkHeap _ _ _ _ _ _ _ _ _ _)] =>
        rewrite set_pluginLog_mk
    | |- context [registryStore _ _ _ (mkHeap _ _ _ _ _ _ _ _ _ _)] =>
        rewrite registryStore_mk
    end.

Ltac solve_neq := first [ done | congruence | lia ].

Ltac map_simpl :=
  repeat match goal with
    | |- context [@lookup _ _ (gmap _ _) _ _ ∅] => rewrite lookup_empty
    | |- context [(<[?i := ?x]> ?m) !! ?i] => rewrite (lookup_insert_eq m i x)
    | |- context [(<[?i := ?x]> ?m) !! ?j] =>
        rewrite (lookup_insert_ne m i j x) by solve_neq
    end.

Ltac define_step :=
  match goal with
  | |- context [defineResolved ?d ?v ?m] =>
      lazymatch m with
      | context [defineResolved _ _ _] => fail
      | _ =>
          first
            [ rewrite (defineResolved_fresh m d v)
                by (map_simpl; first [ reflexivity | eassumption ])
            | erewrite (defineResolved_kept m d v)
                by (map_simpl; first [ reflexivity | eassumption ]) ]
      end
  end.

Ltac norm_map :=
  repeat first [ progress map_simpl | define_step ].

Ltac solve_decide :=
  first [ eassumption
        | cbn [stack app]; refine (bool_decide_unpack _ _); vm_compute; exact I ].

Ltac fork_step :=
  match goal with
  | |- context [forkContext _ _ _] =>
      first [ rewrite forkContext_fresh by solve_decide
            | rewrite forkContext_cyclic by solve_decide ]
  end.

Ltac use_lookups :=
  repeat match goal with
    | H : ?x !! ?i = _ |- context [?x !! ?i] => rewrite H
    | H : thenable ?v = _ |- context [thenable ?v] => rewrite H
    end.

Ltac unfold_cmd :=
  match goal with
  | |- context [loop (S _) (mkSched _ (_ :: _) _) _] => rewrite loop_cons
  | |- context [loop _ (mkSched _ [] _) _] => rewrite loop_nil
  | |- context [loop 0 _ _] => rewrite loop_O
  | |- context [DependencyProvider_get _ (S _) _ _] =>
      rewrite DependencyProvider_get_S
  | |- context [followReferences _ _ _ _] => rewrite followReferences_eq
  | |- context [runResolvers _ _ [] _ _ _] => rewrite runResolvers_nil
  | |- context [runResolvers _ _ (_ :: _) _ _ _] => rewrite runResolvers_cons
  | |- context [mapElements _ [] _ _ _] => rewrite mapElements_nil
  | |- context [mapElements _ (None :: _) _ _ _] => rewrite mapElements_hole
  | |- context [mapElements _ (Some _ :: _) _ _ _] => rewrite mapElements_cons
  | |- context [mapKeys _ [] _ _] => rewrite mapKeys_nil
  | |- context [mapKeys _ (_ :: _) _ _] => rewrite mapKeys_cons
  end.

Ltac run_exec :=
  repeat first
    [ progress sched_cbn
    | progress unfold_state
    | progress norm_store
    | progress norm_map
    | fork_step
    | sched_step
    | unfold_cmd
    | exec_head
    | progress use_lookups ].

(** ** C1: [create] and the shared flag of the root *)

(** [forkContext] reads the stack and the registry of the context it is
    given, and nothing else: the [shared] flag of the result is computed from
    the definition. *)
Lemma forkContext_reads_stack_and_registry s r b p i b' p' i' dep h :
  forkContext (mkCtx s b p i r) dep h = forkContext (mkCtx s b' p' i' r) dep h.
Proof. reflexivity. Qed.

(** With the resolvers of [bootstrap], [depsProvider.get] does the same for
    the root context of [create] as for the root context of [get]. *)
Lemma create_root_like_get fuel type parameters_ :
  DependencyProvider_get bootstrapResolvers fuel
    (mkCtx [] false (Some parameters_) None None) (Some (DRef type))
  = DependencyManager_get bootstrapResolvers fuel type.
Proof. destruct fuel; reflexivity. Qed.

(** C1 (the code differs): after [await dm.get("foo")], the call
    [dm.create("foo", {})] resolves to the instance [get] returned, and the
    factory of [foo] is not invoked for it: it ran once, for [get]. *)
Theorem C1_create_returns_memoized_instance :
  let '(got, created, cfg1, cfg2) := getThenCreate in
  got = Some (Fulfilled (VObj 0)) ∧
  created = Some (Fulfilled (VObj 0)) ∧
  length (factoryLog cfg1.2) = 1 ∧
  factoryLog cfg2.2 = factoryLog cfg1.2 ∧
  length (instances cfg2.2) = 1 ∧
  quiescent cfg2.
Proof. vm_compute. repeat split. Qed.

(** ** C2: a shared instance outlives the call that built it *)

Lemma not_in_stack_nil (dep : addr) : bool_decide (dep ∈ @nil addr) = false.
Proof. apply bool_decide_eq_false_2, not_elem_of_nil. Qed.




(** ** C3: what a fork shares with its parent *)

(** C3, as stated, fails: in [dm.get("pair")] the context of the array and
    the contexts of its two [foo] elements hold three registry objects; the
    future the first element stored under the key of [foo] is in its own
    registry only, not in the parent's and not in its sibling's.  (Both
    elements still resolve to one instance: the second is served from the
    instance registry of the ObjectProvider.) *)
Lemma C3_counterexample :
  let '(res, cfg) := getOnce heapPair "pair" in
  let regs := ctxRegistries cfg.2 in
  length regs = 3 ∧
  regs !! 0 ≫= (.!! hashOf "foo") = None ∧
  regs !! 1 ≫= (.!! hashOf "foo") = Some (VFut 13) ∧
  regs !! 2 ≫= (.!! hashOf "foo") = None ∧
  objRegistry cfg.2 !! 3 = Some (VFut 13) ∧
  arrays cfg.2 !! 0 = Some [Some (VObj 0); None; Some VUndef; Some (VObj 0)] ∧
  length (factoryLog cfg.2) = 1 ∧
  quiescent cfg.
Proof. vm_compute. repeat split. Qed.

(** C3 (amended): a fork gives the child a new registry object that holds
    the entries the parent's registry has at that time; the stack is copied
    with the definition appended.  The parent's registry is not changed by
    the fork, and an entry stored later through the child is not seen through
    the parent. *)
Theorem C3_fork_copies_registry (ctx : DiContext) (dep : addr) (h : Heap)
    (ctx' : DiContext) (h' : Heap) :
  (∀ a, registry ctx = Some a → a < length (ctxRegistries h)) →
  forkContext ctx dep h = inr (ctx', h') →
  stack ctx' = stack ctx ++ [dep] ∧
  registry ctx' = Some (length (ctxRegistries h)) ∧
  registry ctx' ≠ registry ctx ∧
  (∀ hash, registryLookup h' ctx' hash = registryLookup h ctx hash) ∧
  (∀ hash, registryLookup h' ctx hash = registryLookup h ctx hash) ∧
  (∀ hash fut hash',
     registryLookup (registryStore (length (ctxRegistries h)) hash fut h')
       ctx hash' = registryLookup h ctx hash').
Proof.
  intros Hwf. unfold forkContext.
  destruct (bool_decide (dep ∈ stack ctx)); [done |].
  intros [= <- <-]. destruct ctx as [st sh ps inst reg]. simpl in *.
  split; [done |]. split; [done |].
  split.
  { destruct reg as [a |]; [| done].
    intros [= Ha]. specialize (Hwf a eq_refl). lia. }
  unfold registryLookup, registryStore. simpl.
  split; [| split].
  - intros hash. rewrite lookup_fresh0. simpl.
    destruct reg as [a |]; simpl; [| by rewrite lookup_empty].
    specialize (Hwf a eq_refl).
    destruct (lookup_lt_is_Some_2 (ctxRegistries h) a Hwf) as [r Hr].
    by rewrite Hr.
  - intros hash. destruct reg as [a |]; simpl; [| done].
    specialize (Hwf a eq_refl).
    destruct (lookup_lt_is_Some_2 (ctxRegistries h) a Hwf) as [r Hr].
    rewrite Hr. by rewrite (lookup_app_l_Some _ _ _ _ Hr).
  - intros hash fut hash'. destruct reg as [a |]; simpl; [| done].
    specialize (Hwf a eq_refl).
    destruct (lookup_lt_is_Some_2 (ctxRegistries h) a Hwf) as [r Hr].
    rewrite lookup_fresh0. simpl. rewrite insert_fresh0. simpl.
    rewrite Hr. by rewrite (lookup_app_l_Some _ _ _ _ Hr).
Qed.

Lemma C3_witness :
  let ctx := mkCtx [] true None None (Some 0) in
  let h := set_ctxRegistries (λ _, [{[ hashOf "foo" := VFut 7 ]}]) emptyHeap in
  ∃ ctx' h',
    forkContext ctx 5 h = inr (ctx', h') ∧
    stack ctx' = [5] ∧
    registry ctx' = Some 1 ∧
    registry ctx' ≠ registry ctx ∧
    registryLookup h' ctx' (hashOf "foo") = Some (VFut 7) ∧
    registryLookup (registryStore 1 (hashOf "bar") (VFut 9) h') ctx (hashOf "bar")
      = None.
Proof.
  intros ctx h.
  destruct (forkContext ctx 5 h) as [e | [ctx' h']] eqn:Hfork;
    [vm_compute in Hfork; discriminate |].
  exists ctx', h'. split; [reflexivity |].
  assert (Hwf : ∀ a, registry ctx = Some a → a < length (ctxRegistries h)).
  { intros a [= <-]. vm_compute. lia. }
  destruct (C3_fork_copies_registry ctx 5 h ctx' h' Hwf Hfork)
    as (Hs & Hr & Hne & Hcopy & _ & Hwrite).
  split; [exact Hs |]. split; [exact Hr |]. split; [exact Hne |].
  split.
  - etrans; [exact (Hcopy (hashOf "foo")) | reflexivity].
  - etrans; [exact (Hwrite (hashOf "bar") (VFut 9) (hashOf "bar")) | reflexivity].
Defined.

(** ** C4: one instance for all the requests of a shared type *)

Section SharedType.
Context (f1 : nat) (t tt : TypeToken) (d r : addr) (sh : option bool) (c : string).
Context (defs1 : list Definition_) (rsym1 : gmap addr addr) (dreg : gmap TypeToken addr)
  (oreg0 : gmap addr val) (cregs0 : list (gmap symbol val))
  (arrs0 : list (list (option val))) (recs0 : list (list (string * val)))
  (insts0 : list Instance) (flog0 : list (addr * list val)) (plog0 : list (nat * addr)).

Local Abbreviation h0 :=
  (mkHeap defs1 rsym1 dreg oreg0 cregs0 arrs0 recs0 insts0 flog0 plog0).
Local Abbreviation rjob := (job f1 r c h0).
Local Abbreviation heapOf := (heapAt tt r c h0).
Local Abbreviation built := (VObj (length insts0)).

Ltac open_resolved H :=
  destruct H as [Ht [D [Hd HD]] Hr Hdr Hsh Ho];
  cbn [defs resolvedSym defRegistry objRegistry] in *.

Ltac open_jobs :=
  unfold job, heapAt, settledWith,
    builtObject, createCtx in *;
  cbn [defs resolvedSym defRegistry objRegistry ctxRegistries arrays records
       instances factoryLog pluginLog] in *.

(** *** What each job does *)

Lemma call_request cs q ex oreg cregs arrs recs insts flog :
  Resolved t tt d r sh c h0 →
  call (DependencyManager_get [] (S f1) t)
    (mkSched cs q ex,
     mkHeap defs1 rsym1 dreg oreg cregs arrs recs insts flog plog0)
  = (length cs,
     (mkSched (cs ++ [mkCell None [] 0; settledWith (VDef r)])
              (q ++ [rjob (AResume (length cs))]) ex,
      mkHeap defs1 rsym1 dreg oreg cregs arrs recs insts flog plog0)).
Proof.
  intros HR. open_resolved HR. open_jobs.
  unfold call, spawn, DependencyManager_get. run_exec.
  destruct D; try done; run_exec; reflexivity.
Qed.

Lemma exec_resume_create cs q ex p :
  Resolved t tt d r sh c h0 →
  cs !! p = Some (mkCell None [] 0) →
  runJob (rjob (AResume p)) (mkSched cs q ex) h0
  = (mkSched (cs ++ [mkCell None [RAwait p Ret] 0; mkCell None [] 0;
                     mkCell None [RAdopt (length cs)] 0;
                     settledWith (VFactory (Construct c));
                     settledWith (VArr (length arrs0))])
             (q ++ [rjob (ACreate (length cs) CArgs)]) ex,
     heapOf (Building (length cs) p CArgs) []).
Proof.
  intros HR Hp. open_resolved HR. open_jobs.
  run_exec.
  destruct sh as [[|]|]; try done; run_exec; reflexivity.
Qed.

Lemma exec_resume_join cs q ex p F rs oreg cregs arrs recs insts flog :
  Resolved t tt d r sh c h0 →
  cs !! p = Some (mkCell None [] 0) →
  oreg !! r = Some (VFut F) →
  cs !! F = Some (mkCell None rs 0) →
  runJob (rjob (AResume p)) (mkSched cs q ex)
    (mkHeap defs1 rsym1 dreg oreg cregs arrs recs insts flog plog0)
  = (mkSched (<[F := mkCell None (rs ++ [RAdopt (length cs)]) 0]> cs
              ++ [mkCell None [RAwait p Ret] 0]) q ex,
     mkHeap defs1 rsym1 dreg oreg (cregs ++ [∅]) arrs recs insts flog plog0).
Proof.
  intros HR Hp HF HFc. open_resolved HR. open_jobs.
  run_exec.
  destruct sh as [[|]|]; try done; run_exec; reflexivity.
Qed.

Lemma exec_resume_late cs q ex p F oreg cregs arrs recs insts flog :
  Resolved t tt d r sh c h0 →
  cs !! p = Some (mkCell None [] 0) →
  oreg !! r = Some (VFut F) →
  cs !! F = Some (settledWith built) →
  runJob (rjob (AResume p)) (mkSched cs q ex)
    (mkHeap defs1 rsym1 dreg oreg cregs arrs recs insts flog plog0)
  = (mkSched (cs ++ [mkCell None [RAwait p Ret] 0])
             (q ++ [rjob (AAdopt p (length cs))]) ex,
     mkHeap defs1 rsym1 dreg oreg (cregs ++ [∅]) arrs recs insts flog plog0).
Proof.
  intros HR Hp HF HFc. open_resolved HR. open_jobs.
  run_exec.
  destruct sh as [[|]|]; try done; run_exec; reflexivity.
Qed.

Lemma exec_create_args cs q ex B pC extra :
  cs !! (B + 4) = Some (settledWith (VArr (length arrs0))) →
  runJob (rjob (ACreate B CArgs)) (mkSched cs q ex)
    (heapOf (Building B pC CArgs) extra)
  = (mkSched cs (q ++ [rjob (ACreate B CInvoke)]) ex,
     heapOf (Building B pC CInvoke) extra).
Proof. intros Hp. open_jobs. run_exec. reflexivity. Qed.

Lemma exec_create_invoke cs q ex B pC extra :
  runJob (rjob (ACreate B CInvoke)) (mkSched cs q ex)
    (heapOf (Building B pC CInvoke) extra)
  = (mkSched (cs ++ [settledWith built]) (q ++ [rjob (ACreate B CPublish)]) ex,
     heapOf (Building B pC CPublish) extra).
Proof. open_jobs. run_exec. reflexivity. Qed.

Lemma exec_create_publish cs q ex B pC extra rs :
  Resolved t tt d r sh c h0 →
  cs !! (B + 1) = Some (mkCell None rs 0) →
  runJob (rjob (ACreate B CPublish)) (mkSched cs q ex)
    (heapOf (Building B pC CPublish) extra)
  = (mkSched (<[B + 1 := settledWith built]> cs
              ++ [settledWith (VRec (length recs0))])
             (q ++ map (λ x, job_of x (Fulfilled built)) rs
                ++ [rjob (ACreate B CAssign)]) ex,
     heapOf (Building B pC CAssign) extra).
Proof.
  intros HR HF. open_resolved HR. open_jobs. run_exec. reflexivity.
Qed.

Lemma exec_create_assign cs q ex B pC extra rs :
  cs !! (B + 2) = Some (mkCell None rs 0) →
  runJob (rjob (ACreate B CAssign)) (mkSched cs q ex)
    (heapOf (Building B pC CAssign) extra)
  = (mkSched (<[B + 2 := settledWith built]> cs)
             (q ++ map (λ x, job_of x (Fulfilled built)) rs) ex,
     heapOf (Built B) extra).
Proof. intros HF. open_jobs. run_exec. reflexivity. Qed.

Lemma exec_adopt cs q ex p pp h :
  cs !! pp = Some (mkCell None [RAwait p Ret] 0) →
  runJob (rjob (AAdopt p pp)) (mkSched cs q ex) h
  = (mkSched (<[pp := settledWith built]> cs) (q ++ [rjob (AReturn p)]) ex, h).
Proof. intros Hp. open_jobs. run_exec. reflexivity. Qed.

Lemma exec_return cs q ex p h :
  cs !! p = Some (mkCell None [] 0) →
  runJob (rjob (AReturn p)) (mkSched cs q ex) h
  = (mkSched (<[p := settledWith built]> cs) q ex, h).
Proof. intros Hp. open_jobs. run_exec. by rewrite app_nil_r. Qed.

(** *** Cells a job leaves alone *)

Lemma unchanged_insert x v cs : unchanged x cs (<[x := v]> cs).
Proof. intros y cy Hy Hne. by rewrite list_lookup_insert_ne. Qed.

Lemma unchanged_insert_app x v cs k : unchanged x cs (<[x := v]> cs ++ k).
Proof.
  intros y cy Hy Hne. apply lookup_app_l_Some.
  by rewrite list_lookup_insert_ne.
Qed.

Lemma awaits_app cs k p pp : awaits cs p pp → awaits (cs ++ k) p pp.
Proof. intros [H1 H2]. split; by apply lookup_app_l_Some. Qed.

Lemma job_ok_app cs k j : job_ok cs j → job_ok (cs ++ k) j.
Proof.
  destruct j; simpl; auto using awaits_app, lookup_app_l_Some.
Qed.

Lemma jobs_app cs k l : Forall (job_ok cs) l → Forall (job_ok (cs ++ k)) l.
Proof. intros H. eapply Forall_impl; [done|]. intros j. apply job_ok_app. Qed.

Lemma waiting_app cs k (w : list (addr * addr)) :
  Forall (λ w, awaits cs w.1 w.2) w → Forall (λ w, awaits (cs ++ k) w.1 w.2) w.
Proof. intros H. eapply Forall_impl; [done|]. intros j. apply awaits_app. Qed.

Lemma finished_app cs k v (l : list addr) :
  Forall (λ p, cs !! p = Some (settledWith v)) l →
  Forall (λ p, (cs ++ k) !! p = Some (settledWith v)) l.
Proof. intros H. eapply Forall_impl; [done|]. intros j. apply lookup_app_l_Some. Qed.

Lemma awaits_upd cs cs' x cx p pp :
  unchanged x cs cs' → cs !! x = Some cx →
  x ≠ p → (∀ p', cx = mkCell None [RAwait p' Ret] 0 → p' ≠ p) →
  awaits cs p pp → awaits cs' p pp.
Proof.
  intros Hun Hx Hp Hpp [H1 H2]. split; apply Hun; try done.
  intros ?; subst x. eapply Hpp; [|done]. congruence.
Qed.

Lemma jobs_upd cs cs' x cx l :
  unchanged x cs cs' → cs !! x = Some cx →
  x ∉ omap requester l →
  (∀ p', cx = mkCell None [RAwait p' Ret] 0 → p' ∉ omap requester l) →
  Forall (job_ok cs) l → Forall (job_ok cs') l.
Proof.
  intros Hun Hx Hp Hpp. rewrite !Forall_forall. intros H j Hj.
  specialize (H j Hj).
  assert (Hin : ∀ p, requester j = Some p → p ∈ omap requester l)
    by (intros p Hr; apply list_elem_of_omap; eauto).
  destruct j as [p | p pp | p | B s]; simpl in *; try done.
  - apply Hun; [done|]. intros ?; subst x. apply Hp. auto.
  - eapply (awaits_upd _ _ x cx); [done | done | | | done].
    + intros ?; subst x. apply Hp. auto.
    + intros p' ? ?; subst. eapply Hpp; eauto.
  - apply Hun; [done|]. intros ?; subst x. apply Hp. auto.
Qed.

Lemma waiting_upd cs cs' x cx (w : list (addr * addr)) :
  unchanged x cs cs' → cs !! x = Some cx →
  x ∉ w.*1 →
  (∀ p', cx = mkCell None [RAwait p' Ret] 0 → p' ∉ w.*1) →
  Forall (λ w, awaits cs w.1 w.2) w → Forall (λ w, awaits cs' w.1 w.2) w.
Proof.
  intros Hun Hx Hp Hpp. rewrite !Forall_forall. intros H [p pp] Hj.
  specialize (H _ Hj). simpl in *.
  assert (Hin : p ∈ w.*1) by (apply list_elem_of_fmap; by exists (p, pp)).
  eapply (awaits_upd _ _ x cx); [done | done | | | done].
  - by intros ?; subst x.
  - intros p' ? ?; subst. eapply Hpp; eauto.
Qed.

Lemma finished_upd cs cs' x rs n v (l : list addr) :
  unchanged x cs cs' → cs !! x = Some (mkCell None rs n) →
  Forall (λ p, cs !! p = Some (settledWith v)) l →
  Forall (λ p, cs' !! p = Some (settledWith v)) l.
Proof.
  intros Hun Hx H. eapply Forall_impl; [done|]. intros p Hp. apply Hun; [done|].
  intros ?; subst x. unfold settledWith in *. congruence.
Qed.

Lemma future_not_awaiting b w cs x p :
  build_cells h0 b w cs → cs !! x = Some (mkCell None [RAwait p Ret] 0) →
  x ∉ future b.
Proof.
  unfold settledWith.
  destruct b as [| B pC s | B]; simpl; [intros; apply not_elem_of_nil | |].
  - intros (_ & _ & HF & _) Hx Hin. apply list_elem_of_singleton in Hin. subst x.
    destruct s, w; unfold settledWith in *; simpl in *; congruence.
  - intros HF Hx Hin. apply list_elem_of_singleton in Hin. subst x.
    unfold settledWith in *. congruence.
Qed.

Lemma build_cells_upd b w cs cs' x rs :
  unchanged x cs cs' → cs !! x = Some (mkCell None rs 0) →
  x ∉ builder b → x ∉ future b →
  (∀ p', rs = [RAwait p' Ret] → p' ∉ builder b) →
  (∀ B, rs ≠ [RAdopt B]) →
  build_cells h0 b w cs → build_cells h0 b w cs'.
Proof.
  intros Hun Hx Hb HF Hpp Hpc. unfold settledWith.
  destruct b as [| B pC s | B]; simpl in *; [done | |].
  - rewrite list_elem_of_singleton in Hb, HF.
    intros (Ha & H2 & H1 & H4). split_and!.
    + eapply (awaits_upd _ _ x); [done | done | done | | done].
      intros p' Heq ?; subst. injection Heq as ->.
      eapply Hpp; [done|]. apply list_elem_of_singleton. done.
    + apply Hun; [done|]. intros ?; subst x.
      rewrite Hx in H2. injection H2 as ->. by eapply Hpc.
    + destruct s; apply Hun; done.
    + destruct s; try done. apply Hun; [done|]. intros ?; subst x.
      unfold settledWith in *. congruence.
  - rewrite list_elem_of_singleton in HF. intros H1. by apply Hun.
Qed.

Local Abbreviation inv := (Inv f1 tt r c h0).

Ltac open_inv H :=
  destruct H as [Hq He Hj Hw Hf Hnd Hfu Hbc Hbk [extra Hh]];
  cbn [aq waiting finished bld cells queue exhausted] in *.

(** The promise of a request has no reaction. *)
Lemma request_cell e a σ h p :
  inv e a σ h → p ∈ requests a → ∃ st, cells σ !! p = Some (mkCell st [] 0).
Proof.
  intros HI. open_inv HI. unfold requests.
  rewrite !elem_of_app, list_elem_of_omap, list_elem_of_fmap.
  rewrite Forall_forall in Hj. rewrite Forall_forall in Hw.
  rewrite Forall_forall in Hf.
  intros [(j & Hin & Hp) | [([p' pp] & -> & Hin) | [Hin | Hin]]].
  - specialize (Hj j Hin).
    destruct j; simpl in *; simplify_eq; [eauto | destruct Hj; eauto | eauto].
  - destruct (Hw _ Hin). eauto.
  - unfold settledWith in Hf. eauto.
  - destruct (bld a); simpl in *; try by apply elem_of_nil in Hin.
    apply list_elem_of_singleton in Hin. subst. destruct Hbc as ((_ & ?) & _).
    eauto.
Qed.

Lemma not_request e a σ h x st rs n :
  inv e a σ h → cells σ !! x = Some (mkCell st rs n) → rs ≠ [] →
  x ∉ requests a.
Proof.
  intros HI Hx Hrs Hin. destruct (request_cell _ _ _ _ _ HI Hin) as [st' H].
  congruence.
Qed.

Lemma tick_return e rest w fin b cs ex h p :
  inv e (mkRequests (AReturn p :: rest) w fin b)
    (mkSched cs (map rjob (AReturn p :: rest)) ex) h →
  inv e (mkRequests rest w (p :: fin) b)
    (mkSched (<[p := settledWith built]> cs) (map rjob rest) ex) h.
Proof.
  intros HI. open_inv HI.
  apply Forall_cons in Hj as [Hp Hj]. simpl in Hp.
  assert (Hperm : requests (mkRequests rest w (p :: fin) b)
                  ≡ₚ requests (mkRequests (AReturn p :: rest) w fin b))
    by (unfold requests; cbn; solve_Permutation).
  pose proof Hnd as Hnd0. unfold requests in Hnd. cbn in Hnd.
  apply NoDup_cons in Hnd as [Hnp Hnd].
  rewrite !not_elem_of_app in Hnp. destruct Hnp as (Hn1 & Hn2 & Hn3 & Hn4).
  assert (Hun := unchanged_insert p (settledWith built) cs).
  split; cbn [aq waiting finished bld cells queue exhausted].
  - done.
  - done.
  - by eapply jobs_upd.
  - by eapply waiting_upd.
  - apply Forall_cons. split.
    + apply list_lookup_insert_eq. by eapply lookup_lt_Some.
    + by eapply finished_upd.
  - by rewrite Hperm.
  - eapply Forall_impl; [exact Hfu|]. intros F HF. by rewrite Hperm.
  - eapply build_cells_upd; try done.
    rewrite Forall_forall in Hfu. intros HF. eapply Hfu; [done|].
    unfold requests. cbn. left.
  - destruct b; simpl in *; try done.
    destruct Hbk as (_ & _ & Hbk). apply Forall_cons in Hbk as [[? ?] _]. done.
  - by exists extra.
Qed.
Lemma tick_adopt e rest w fin b cs ex h p pp :
  inv e (mkRequests (AAdopt p pp :: rest) w fin b)
    (mkSched cs (map rjob (AAdopt p pp :: rest)) ex) h →
  inv e (mkRequests (rest ++ [AReturn p]) w fin b)
    (mkSched (<[pp := settledWith built]> cs)
             (map rjob rest ++ [rjob (AReturn p)]) ex) h.
Proof.
  intros HI.
  assert (Hpp : cells (mkSched cs (map rjob (AAdopt p pp :: rest)) ex) !! pp
                = Some (mkCell None [RAwait p Ret] 0)).
  { apply inv_jobs in HI. apply Forall_cons in HI as [[? ?] _]. done. }
  pose proof (not_request _ _ _ _ _ _ _ _ HI Hpp ltac:(done)) as Hnr.
  open_inv HI.
  apply Forall_cons in Hj as [[_ Hp] Hj]. simpl in Hp.
  assert (Hperm : requests (mkRequests (rest ++ [AReturn p]) w fin b)
                  ≡ₚ requests (mkRequests (AAdopt p pp :: rest) w fin b))
    by (unfold requests; cbn; rewrite omap_app; cbn; solve_Permutation).
  pose proof Hnd as Hnd0. unfold requests in Hnd, Hnr. cbn in Hnd, Hnr.
  apply NoDup_cons in Hnd as [Hnp Hnd].
  rewrite !not_elem_of_app in Hnp. destruct Hnp as (Hn1 & Hn2 & Hn3 & Hn4).
  rewrite not_elem_of_cons, !not_elem_of_app in Hnr.
  destruct Hnr as (Hr0 & Hr1 & Hr2 & Hr3 & Hr4).
  assert (Hun := unchanged_insert pp (settledWith built) cs).
  split; cbn [aq waiting finished bld cells queue exhausted].
  - by rewrite map_app.
  - done.
  - apply Forall_app. split.
    + eapply jobs_upd; try done. by intros ? [= ->].
    + apply Forall_singleton. simpl. by apply Hun.
  - eapply waiting_upd; try done. by intros ? [= ->].
  - by eapply finished_upd.
  - by rewrite Hperm.
  - eapply Forall_impl; [exact Hfu|]. intros F HF. by rewrite Hperm.
  - eapply build_cells_upd; try done.
    + by eapply future_not_awaiting.
    + by intros ? [= ->].
  - unfold build_book in *. destruct b; simpl in *.
    + destruct Hbk as (_ & _ & Hbk). apply Forall_cons in Hbk as [[? ?] _]. done.
    + by rewrite omap_app, app_nil_r.
    + by rewrite omap_app, app_nil_r.
  - by exists extra.
Qed.
Lemma request_bound e a σ h p :
  inv e a σ h → p ∈ requests a → p < length (cells σ).
Proof.
  intros HI Hin. destruct (request_cell _ _ _ _ _ HI Hin) as [st H].
  by eapply lookup_lt_Some.
Qed.

Lemma resumes_no_creation (l : list RequestJob) :
  Forall (λ j, ∃ p, j = AResume p) l → omap creation l = [].
Proof. induction 1 as [| j l [p ->] _ IH]; simpl; done. Qed.

Lemma adopts_requesters (w : list (addr * addr)) :
  omap requester (map (λ w, AAdopt w.1 w.2) w) = w.*1.
Proof. induction w as [| [p pp] w IH]; [done|]. cbn. by f_equal. Qed.

Lemma adopts_no_creation (w : list (addr * addr)) :
  omap creation (map (λ w, AAdopt w.1 w.2) w) = [].
Proof. induction w as [| [p pp] w IH]; [done|]. by cbn. Qed.

Lemma adopts_not_await (w : list (addr * addr)) p k :
  map (λ w, RAdopt w.2) w ≠ [RAwait p k].
Proof. by destruct w. Qed.

Lemma create_head e B s rest w fin b σ h :
  inv e (mkRequests (ACreate B s :: rest) w fin b) σ h →
  ∃ pC, b = Building B pC s ∧ omap creation rest = [].
Proof.
  intros HI. open_inv HI. unfold build_book in Hbk.
  destruct b as [| B' pC s' | B']; simpl in *.
  - destruct Hbk as (_ & _ & Hbk). apply Forall_cons in Hbk as [[? ?] _]. done.
  - destruct Hbk as [[= -> -> ?] _]. eauto.
  - by destruct Hbk.
Qed.

Lemma tick_create_args e rest w fin B pC cs ex h :
  inv e (mkRequests (ACreate B CArgs :: rest) w fin (Building B pC CArgs))
    (mkSched cs (map rjob (ACreate B CArgs :: rest)) ex) h →
  ∃ extra,
    h = heapOf (Building B pC CArgs) extra ∧
    cs !! (B + 4) = Some (settledWith (VArr (length arrs0))) ∧
    inv e (mkRequests (rest ++ [ACreate B CInvoke]) w fin (Building B pC CInvoke))
      (mkSched cs (map rjob rest ++ [rjob (ACreate B CInvoke)]) ex)
      (heapOf (Building B pC CInvoke) extra).
Proof.
  intros HI. destruct (create_head _ _ _ _ _ _ _ _ _ HI) as (? & _ & Hnc).
  open_inv HI. apply Forall_cons in Hj as [_ Hj].
  assert (Hperm : requests (mkRequests (rest ++ [ACreate B CInvoke]) w fin
                              (Building B pC CInvoke))
                  ≡ₚ requests (mkRequests (ACreate B CArgs :: rest) w fin
                                 (Building B pC CArgs)))
    by (unfold requests; cbn; rewrite omap_app; cbn; solve_Permutation).
  exists extra. split; [done|]. split; [by destruct Hbc as (_ & _ & _ & ?)|].
  split; cbn [aq waiting finished bld cells queue exhausted].
  - by rewrite map_app.
  - done.
  - apply Forall_app. split; [done|]. by apply Forall_singleton.
  - done.
  - done.
  - by rewrite Hperm.
  - eapply Forall_impl; [exact Hfu|]. intros F HF. by rewrite Hperm.
  - simpl in *. by destruct Hbc as (? & ? & ? & ?).
  - unfold build_book. simpl. rewrite omap_app, Hnc. done.
  - by exists extra.
Qed.

Lemma tick_create_invoke e rest w fin B pC cs ex h :
  inv e (mkRequests (ACreate B CInvoke :: rest) w fin (Building B pC CInvoke))
    (mkSched cs (map rjob (ACreate B CInvoke :: rest)) ex) h →
  ∃ extra,
    h = heapOf (Building B pC CInvoke) extra ∧
    inv e (mkRequests (rest ++ [ACreate B CPublish]) w fin (Building B pC CPublish))
      (mkSched (cs ++ [settledWith built])
               (map rjob rest ++ [rjob (ACreate B CPublish)]) ex)
      (heapOf (Building B pC CPublish) extra).
Proof.
  intros HI. destruct (create_head _ _ _ _ _ _ _ _ _ HI) as (? & _ & Hnc).
  open_inv HI. apply Forall_cons in Hj as [_ Hj].
  assert (Hperm : requests (mkRequests (rest ++ [ACreate B CPublish]) w fin
                              (Building B pC CPublish))
                  ≡ₚ requests (mkRequests (ACreate B CInvoke :: rest) w fin
                                 (Building B pC CInvoke)))
    by (unfold requests; cbn; rewrite omap_app; cbn; solve_Permutation).
  exists extra. split; [done|].
  split; cbn [aq waiting finished bld cells queue exhausted].
  - by rewrite map_app.
  - done.
  - apply Forall_app. split; [by apply jobs_app|]. by apply Forall_singleton.
  - by apply waiting_app.
  - by apply finished_app.
  - by rewrite Hperm.
  - eapply Forall_impl; [exact Hfu|]. intros F HF. by rewrite Hperm.
  - simpl in *. destruct Hbc as (? & ? & ? & ?).
    split_and!; auto using awaits_app, lookup_app_l_Some.
  - unfold build_book. simpl. rewrite omap_app, Hnc. done.
  - by exists extra.
Qed.

Lemma tick_create_publish e rest w fin B pC cs ex h :
  inv e (mkRequests (ACreate B CPublish :: rest) w fin (Building B pC CPublish))
    (mkSched cs (map rjob (ACreate B CPublish :: rest)) ex) h →
  ∃ extra,
    h = heapOf (Building B pC CPublish) extra ∧
    cs !! (B + 1) = Some (mkCell None (map (λ w, RAdopt w.2) w) 0) ∧
    inv e (mkRequests (rest ++ map (λ w, AAdopt w.1 w.2) w ++ [ACreate B CAssign])
                      [] fin (Building B pC CAssign))
      (mkSched (<[B + 1 := settledWith built]> cs
                ++ [settledWith (VRec (length recs0))])
               (map rjob rest
                ++ map (λ x, job_of x (Fulfilled built))
                       (map (λ w, RAdopt w.2) w)
                ++ [rjob (ACreate B CAssign)]) ex)
      (heapOf (Building B pC CAssign) extra).
Proof.
  intros HI. destruct (create_head _ _ _ _ _ _ _ _ _ HI) as (? & _ & Hnc).
  open_inv HI. apply Forall_cons in Hj as [_ Hj].
  assert (Hperm : requests (mkRequests
                              (rest ++ map (λ w, AAdopt w.1 w.2) w
                               ++ [ACreate B CAssign])
                              [] fin (Building B pC CAssign))
                  ≡ₚ requests (mkRequests (ACreate B CPublish :: rest) w fin
                                 (Building B pC CPublish))).
  { unfold requests. cbn. rewrite !omap_app, adopts_requesters. cbn.
    solve_Permutation. }
  simpl in Hbc. destruct Hbc as (Ha & H2 & H1 & _).
  cbn [future] in Hfu. rewrite Forall_singleton in Hfu.
  pose proof Hfu as HF. unfold requests in HF. cbn in HF.
  rewrite !not_elem_of_app in HF. destruct HF as (HF1 & HF2 & HF3 & HF4).
  assert (Hun := unchanged_insert_app (B + 1) (settledWith built) cs
                   [settledWith (VRec (length recs0))]).
  exists extra. split; [done|]. split; [done|].
  split; cbn [aq waiting finished bld cells queue exhausted].
  - rewrite !map_app, !map_map. done.
  - done.
  - rewrite !Forall_app. split_and!.
    + eapply jobs_upd; try done. intros p' [= Habs]. by apply adopts_not_await in Habs.
    + apply Forall_fmap. eapply waiting_upd; try done.
      intros p' [= Habs]. by apply adopts_not_await in Habs.
    + by apply Forall_singleton.
  - done.
  - by eapply finished_upd.
  - by rewrite Hperm.
  - apply Forall_singleton. by rewrite Hperm.
  - simpl. split_and!; try done.
    + eapply (awaits_upd _ _ (B + 1)); [done | done | | | done].
      * intros Heq. apply HF4. by apply list_elem_of_singleton.
      * intros p' [= Habs]. by apply adopts_not_await in Habs.
    + apply Hun; [done | lia].
    + apply lookup_app_l_Some, list_lookup_insert_eq. by eapply lookup_lt_Some.
  - unfold build_book. simpl.
    rewrite !omap_app, Hnc, adopts_no_creation. done.
  - by exists extra.
Qed.

Lemma tick_create_assign e rest w fin B pC cs ex h :
  inv e (mkRequests (ACreate B CAssign :: rest) w fin (Building B pC CAssign))
    (mkSched cs (map rjob (ACreate B CAssign :: rest)) ex) h →
  ∃ extra,
    h = heapOf (Building B pC CAssign) extra ∧ w = [] ∧
    cs !! (B + 2) = Some (mkCell None [RAdopt B] 0) ∧
    inv e (mkRequests (rest ++ [AAdopt pC B]) [] fin (Built B))
      (mkSched (<[B + 2 := settledWith built]> cs)
               (map rjob rest
                ++ map (λ x, job_of x (Fulfilled built)) [RAdopt B]) ex)
      (heapOf (Built B) extra).
Proof.
  intros HI. destruct (create_head _ _ _ _ _ _ _ _ _ HI) as (? & _ & Hnc).
  assert (Hpc : cells (mkSched cs (map rjob (ACreate B CAssign :: rest)) ex)
                !! (B + 2) = Some (mkCell None [RAdopt B] 0)).
  { apply inv_cells in HI. by destruct HI as (_ & ? & _). }
  pose proof (not_request _ _ _ _ _ _ _ _ HI Hpc ltac:(done)) as Hnr.
  open_inv HI. apply Forall_cons in Hj as [_ Hj].
  assert (w = []) as -> by (by apply Hbk).
  assert (Hperm : requests (mkRequests (rest ++ [AAdopt pC B]) [] fin (Built B))
                  ≡ₚ requests (mkRequests (ACreate B CAssign :: rest) [] fin
                                 (Building B pC CAssign)))
    by (unfold requests; cbn; rewrite omap_app; cbn; solve_Permutation).
  simpl in Hbc. destruct Hbc as (Ha & H2 & H1 & _).
  cbn [future] in Hfu. rewrite Forall_singleton in Hfu.
  pose proof Hnd as Hnd0. unfold requests in Hnd, Hnr. cbn in Hnd, Hnr.
  rewrite !not_elem_of_app in Hnr. destruct Hnr as (Hr1 & Hr3 & Hr4).
  assert (Hun := unchanged_insert (B + 2) (settledWith built) cs).
  exists extra. split; [done|]. split; [done|]. split; [done|].
  split; cbn [aq waiting finished bld cells queue exhausted].
  - by rewrite map_app.
  - done.
  - apply Forall_app. split.
    + by eapply jobs_upd.
    + apply Forall_singleton. simpl.
      eapply (awaits_upd _ _ (B + 2)); [done | done | | done | done].
      intros ?. apply Hr4. apply list_elem_of_singleton. done.
  - done.
  - by eapply finished_upd.
  - by rewrite Hperm.
  - apply Forall_singleton. by rewrite Hperm.
  - simpl. apply Hun; [done | lia].
  - unfold build_book. simpl. rewrite omap_app, Hnc. done.
  - by exists extra.
Qed.
Lemma build_cells_app b w cs k :
  build_cells h0 b w cs → build_cells h0 b w (cs ++ k).
Proof.
  destruct b as [| B pC s | B]; simpl; [done | |].
  - intros (? & ? & ? & ?).
    split_and!; auto using awaits_app, lookup_app_l_Some.
    + destruct s; auto using lookup_app_l_Some.
    + destruct s; auto using lookup_app_l_Some.
  - apply lookup_app_l_Some.
Qed.

Lemma future_bound b w cs F :
  build_cells h0 b w cs → F ∈ future b → F < length cs.
Proof.
  destruct b as [| B pC s | B]; simpl; intros H Hin.
  - by apply elem_of_nil in Hin.
  - apply list_elem_of_singleton in Hin. subst F.
    destruct H as (_ & _ & H & _). destruct s; by eapply lookup_lt_Some.
  - apply list_elem_of_singleton in Hin. subst F. by eapply lookup_lt_Some.
Qed.

Lemma request_inv e a cs q ex h :
  inv e a (mkSched cs q ex) h →
  inv e (mkRequests (aq a ++ [AResume (length cs)]) (waiting a) (finished a)
                    (bld a))
    (mkSched (cs ++ [mkCell None [] 0; settledWith (VDef r)])
             (q ++ [rjob (AResume (length cs))]) ex) h.
Proof.
  intros HI.
  assert (Hb : ∀ p, p ∈ requests a → p ≠ length cs).
  { intros p Hin. apply (request_bound _ _ _ _ _ HI) in Hin. simpl in Hin. lia. }
  destruct a as [aq0 w fin b]. open_inv HI.
  assert (Hperm : requests (mkRequests (aq0 ++ [AResume (length cs)]) w fin b)
                  ≡ₚ length cs :: requests (mkRequests aq0 w fin b))
    by (unfold requests; cbn; rewrite omap_app; cbn; solve_Permutation).
  split; cbn [aq waiting finished bld cells queue exhausted].
  - by rewrite Hq, map_app.
  - done.
  - apply Forall_app. split; [by apply jobs_app|]. apply Forall_singleton.
    simpl. by rewrite lookup_fresh0.
  - by apply waiting_app.
  - by apply finished_app.
  - rewrite Hperm. apply NoDup_cons. split; [|done].
    intros Hin. by apply Hb in Hin.
  - rewrite Forall_forall in Hfu. apply Forall_forall. intros F HF.
    rewrite Hperm. apply not_elem_of_cons. split; [|by apply Hfu].
    apply (future_bound _ _ _ _ Hbc) in HF. lia.
  - by apply build_cells_app.
  - unfold build_book in *. destruct b; simpl in *.
    + destruct Hbk as (? & ? & ?). split_and!; try done.
      apply Forall_app. split; [done|]. apply Forall_singleton. eauto.
    + by rewrite omap_app, app_nil_r.
    + by rewrite omap_app, app_nil_r.
  - by exists extra.
Qed.

Lemma tick_resume_create e rest w fin cs ex h p :
  inv e (mkRequests (AResume p :: rest) w fin NotStarted)
    (mkSched cs (map rjob (AResume p :: rest)) ex) h →
  h = h0 ∧ w = [] ∧ fin = [] ∧ cs !! p = Some (mkCell None [] 0) ∧
  inv e (mkRequests (rest ++ [ACreate (length cs) CArgs]) [] []
                    (Building (length cs) p CArgs))
    (mkSched (cs ++ [mkCell None [RAwait p Ret] 0; mkCell None [] 0;
                     mkCell None [RAdopt (length cs)] 0;
                     settledWith (VFactory (Construct c));
                     settledWith (VArr (length arrs0))])
             (map rjob rest ++ [rjob (ACreate (length cs) CArgs)]) ex)
    (heapOf (Building (length cs) p CArgs) []).
Proof.
  intros HI.
  assert (Hb : ∀ p', p' ∈ requests (mkRequests (AResume p :: rest) w fin NotStarted)
               → p' ≠ length cs + 1).
  { intros p' Hin. apply (request_bound _ _ _ _ _ HI) in Hin. simpl in Hin. lia. }
  open_inv HI. unfold build_book in Hbk. simpl in Hbk.
  destruct Hbk as (-> & -> & Hres). apply Forall_cons in Hres as [_ Hres].
  apply Forall_cons in Hj as [Hp Hj]. simpl in Hp.
  assert (Hperm : requests (mkRequests (rest ++ [ACreate (length cs) CArgs]) [] []
                              (Building (length cs) p CArgs))
                  ≡ₚ requests (mkRequests (AResume p :: rest) [] [] NotStarted))
    by (unfold requests; cbn; rewrite omap_app; cbn; solve_Permutation).
  split; [done|]. split; [done|]. split; [done|]. split; [done|].
  split; cbn [aq waiting finished bld cells queue exhausted].
  - by rewrite map_app.
  - done.
  - apply Forall_app. split; [by apply jobs_app|]. by apply Forall_singleton.
  - done.
  - done.
  - by rewrite Hperm.
  - apply Forall_singleton. rewrite Hperm. intros Hin. by apply Hb in Hin.
  - simpl. unfold awaits. rewrite lookup_fresh0, !lookup_fresh. simpl.
    split_and!; try done. by apply lookup_app_l_Some.
  - unfold build_book. simpl. rewrite omap_app, resumes_no_creation; done.
  - by exists [].
Qed.

Lemma tick_resume_join e rest w fin B pC s cs ex h p :
  s ≠ CAssign →
  inv e (mkRequests (AResume p :: rest) w fin (Building B pC s))
    (mkSched cs (map rjob (AResume p :: rest)) ex) h →
  ∃ extra,
    h = heapOf (Building B pC s) extra ∧
    cs !! p = Some (mkCell None [] 0) ∧
    cs !! (B + 1) = Some (mkCell None (map (λ w, RAdopt w.2) w) 0) ∧
    inv e (mkRequests rest (w ++ [(p, length cs)]) fin (Building B pC s))
      (mkSched (<[B + 1 := mkCell None (map (λ w, RAdopt w.2) w
                                        ++ [RAdopt (length cs)]) 0]> cs
                ++ [mkCell None [RAwait p Ret] 0])
               (map rjob rest) ex)
      (heapOf (Building B pC s) (extra ++ [∅])).
Proof.
  intros Hs HI. open_inv HI.
  apply Forall_cons in Hj as [Hp Hj]. simpl in Hp.
  assert (Hperm : requests (mkRequests rest (w ++ [(p, length cs)]) fin
                              (Building B pC s))
                  ≡ₚ requests (mkRequests (AResume p :: rest) w fin
                                 (Building B pC s)))
    by (unfold requests; cbn; rewrite fmap_app; cbn; solve_Permutation).
  simpl in Hbc. destruct Hbc as (Ha & H2 & H1 & H4).
  assert (HF : cs !! (B + 1) = Some (mkCell None (map (λ w, RAdopt w.2) w) 0))
    by (by destruct s).
  cbn [future] in Hfu. rewrite Forall_singleton in Hfu.
  pose proof Hfu as HFn. unfold requests in HFn. cbn in HFn.
  rewrite not_elem_of_cons, !not_elem_of_app in HFn.
  destruct HFn as (HF0 & HF1 & HF2 & HF3 & HF4).
  assert (Hun := unchanged_insert_app (B + 1)
                   (mkCell None (map (λ w, RAdopt w.2) w
                                 ++ [RAdopt (length cs)]) 0) cs
                   [mkCell None [RAwait p Ret] 0]).
  exists extra. split; [done|]. split; [done|]. split; [done|].
  split; cbn [aq waiting finished bld cells queue exhausted].
  - done.
  - done.
  - eapply jobs_upd; try done.
    intros p' [= Habs]. by apply adopts_not_await in Habs.
  - apply Forall_app. split.
    + eapply waiting_upd; try done.
      intros p' [= Habs]. by apply adopts_not_await in Habs.
    + apply Forall_singleton. unfold awaits. simpl. split.
      * by rewrite lookup_fresh0_upd.
      * apply Hun; [done|]. intros ->. done.
  - by eapply finished_upd.
  - by rewrite Hperm.
  - apply Forall_singleton. by rewrite Hperm.
  - simpl. split_and!.
    + eapply (awaits_upd _ _ (B + 1)); [done | done | | | done].
      * intros Heq. apply HF4. by apply list_elem_of_singleton.
      * intros p' [= Habs]. by apply adopts_not_await in Habs.
    + apply Hun; [done | lia].
    + assert ((<[B + 1 := mkCell None (map (λ w, RAdopt w.2) w
                                       ++ [RAdopt (length cs)]) 0]> cs
               ++ [mkCell None [RAwait p Ret] 0]) !! (B + 1)
              = Some (mkCell None (map (λ w, RAdopt w.2) (w ++ [(p, length cs)])) 0)).
      { rewrite map_app. apply lookup_app_l_Some, list_lookup_insert_eq.
        by eapply lookup_lt_Some. }
      by destruct s.
    + destruct s; try done. apply Hun; [done | lia].
  - unfold build_book in *. simpl in *. destruct Hbk as [? _]. done.
  - exists (extra ++ [∅]). done.
Qed.

Lemma tick_resume_late e rest w fin b B cs ex h p :
  future b = [B + 1] →
  cs !! (B + 1) = Some (settledWith built) →
  inv e (mkRequests (AResume p :: rest) w fin b)
    (mkSched cs (map rjob (AResume p :: rest)) ex) h →
  ∃ extra,
    h = heapOf b extra ∧
    cs !! p = Some (mkCell None [] 0) ∧
    inv e (mkRequests (rest ++ [AAdopt p (length cs)]) w fin b)
      (mkSched (cs ++ [mkCell None [RAwait p Ret] 0])
               (map rjob rest ++ [rjob (AAdopt p (length cs))]) ex)
      (heapOf b (extra ++ [∅])).
Proof.
  intros Hb HF HI. open_inv HI.
  apply Forall_cons in Hj as [Hp Hj]. simpl in Hp.
  assert (Hperm : requests (mkRequests (rest ++ [AAdopt p (length cs)]) w fin b)
                  ≡ₚ requests (mkRequests (AResume p :: rest) w fin b))
    by (unfold requests; cbn; rewrite omap_app; cbn; solve_Permutation).
  exists extra. split; [done|]. split; [done|].
  split; cbn [aq waiting finished bld cells queue exhausted].
  - by rewrite map_app.
  - done.
  - apply Forall_app. split; [by apply jobs_app|]. apply Forall_singleton.
    split; [by rewrite lookup_fresh0 | by apply lookup_app_l_Some].
  - by apply waiting_app.
  - by apply finished_app.
  - by rewrite Hperm.
  - eapply Forall_impl; [exact Hfu|]. intros F HF'. by rewrite Hperm.
  - by apply build_cells_app.
  - unfold build_book in *. destruct b; simpl in *; try done.
    + by rewrite omap_app, app_nil_r.
    + by rewrite omap_app, app_nil_r.
  - exists (extra ++ [∅]). done.
Qed.
Lemma heapOf_fork b extra :
  future b ≠ [] →
  set_ctxRegistries (λ l, l ++ [∅]) (heapOf b extra) = heapOf b (extra ++ [∅]).
Proof.
  destruct b; [done | |]; intros _; unfold heapAt; rewrite set_ctxRegistries_mk;
    cbn [ctxRegistries]; by rewrite <- app_assoc.
Qed.

Lemma heapOf_registry b extra B :
  future b = [B + 1] → objRegistry (heapOf b extra) !! r = Some (VFut (B + 1)).
Proof.
  destruct b; [done | |]; intros [= Heq]; simpl;
    replace (B + 1) with (B0 + 1) by lia; apply lookup_insert_eq.
Qed.

Lemma exec_resume_join_at cs q ex p B pC s extra rs :
  Resolved t tt d r sh c h0 →
  cs !! p = Some (mkCell None [] 0) →
  cs !! (B + 1) = Some (mkCell None rs 0) →
  runJob (rjob (AResume p)) (mkSched cs q ex) (heapOf (Building B pC s) extra)
  = (mkSched (<[B + 1 := mkCell None (rs ++ [RAdopt (length cs)]) 0]> cs
              ++ [mkCell None [RAwait p Ret] 0]) q ex,
     heapOf (Building B pC s) (extra ++ [∅])).
Proof.
  intros HR Hp HF. rewrite <- heapOf_fork by done. unfold heapAt.
  erewrite exec_resume_join; [reflexivity | done | done | | done].
  apply lookup_insert_eq.
Qed.

Lemma exec_resume_late_at cs q ex p b B extra :
  Resolved t tt d r sh c h0 →
  cs !! p = Some (mkCell None [] 0) →
  future b = [B + 1] →
  cs !! (B + 1) = Some (settledWith built) →
  runJob (rjob (AResume p)) (mkSched cs q ex) (heapOf b extra)
  = (mkSched (cs ++ [mkCell None [RAwait p Ret] 0])
             (q ++ [rjob (AAdopt p (length cs))]) ex,
     heapOf b (extra ++ [∅])).
Proof.
  intros HR Hp Hb HF. rewrite <- heapOf_fork by (by rewrite Hb).
  destruct b as [| B' pC s | B']; [done | |]; injection Hb as Hb;
    assert (B' = B) as -> by lia; unfold heapAt;
    (erewrite exec_resume_late; [reflexivity | done | done | | done]);
    apply lookup_insert_eq.
Qed.

Lemma adopts_ticks (w : list (addr * addr)) :
  sum_list_with jobTicks (map (λ w, AAdopt w.1 w.2) w) = 2 * length w.
Proof. induction w as [| [p pp] w IH]; [done|]. cbn in *. lia. Qed.

Ltac solve_ticks :=
  unfold ticksLeft;
  cbn [aq waiting finished bld jobTicks buildTicks sum_list_with];
  rewrite ?sum_list_with_app, ?adopts_ticks, ?length_app;
  cbn [jobTicks sum_list_with length]; lia.

Ltac solve_requests :=
  unfold requests;
  cbn [aq waiting finished bld omap list_omap requester builder fmap list_fmap];
  rewrite ?omap_app, ?fmap_app, ?adopts_requesters;
  cbn [omap list_omap requester builder fmap list_fmap fst];
  solve_Permutation.

Lemma Inv_tick e a cs j q ex h :
  Resolved t tt d r sh c h0 →
  inv e a (mkSched cs (j :: q) ex) h →
  ∃ a' σ' h',
    runJob j (mkSched cs q ex) h = (σ', h') ∧
    inv e a' σ' h' ∧
    ticksLeft a' + 1 = ticksLeft a ∧
    requests a' ≡ₚ requests a.
Proof.
  intros HR HI. destruct a as [aq0 w fin b].
  pose proof (inv_queue _ _ _ _ _ _ _ _ _ HI) as Hq. simpl in Hq.
  destruct aq0 as [| j0 rest]; [done|]. injection Hq as -> ->.
  destruct j0 as [p | p pp | p | B s].
  - match goal with
    | |- ?G => assert (Hlate : ∀ B, future b = [B + 1] →
                        cs !! (B + 1) = Some (settledWith built) → G)
    end.
    { intros B Hb HF.
      destruct (tick_resume_late _ _ _ _ _ _ _ _ _ _ Hb HF HI)
        as (extra & -> & Hp & HI').
      eexists _, _, _. split; [by eapply exec_resume_late_at|].
      split; [exact HI'|]. split; [solve_ticks | solve_requests]. }
    pose proof (inv_cells _ _ _ _ _ _ _ _ _ HI) as Hbc. simpl in Hbc.
    destruct b as [| B pC s | B].
    + destruct (tick_resume_create _ _ _ _ _ _ _ _ HI)
        as (-> & -> & -> & Hp & HI').
      eexists _, _, _. split; [by apply exec_resume_create|].
      split; [exact HI'|]. split; [solve_ticks | solve_requests].
    + assert (s = CAssign ∨ s ≠ CAssign) as [-> | Hs]
        by (destruct s; auto).
      * apply (Hlate B); [done|]. by destruct Hbc as (_ & _ & ? & _).
      * destruct (tick_resume_join _ _ _ _ _ _ _ _ _ _ _ Hs HI)
          as (extra & -> & Hp & HF & HI').
        eexists _, _, _. split; [by eapply exec_resume_join_at|].
        split; [exact HI'|]. split; [solve_ticks | solve_requests].
    + by apply (Hlate B).
  - pose proof (inv_jobs _ _ _ _ _ _ _ _ _ HI) as Hj.
    apply Forall_cons in Hj as [[Hpp _] _].
    eexists _, _, _. split; [by apply exec_adopt|].
    split; [by apply tick_adopt|]. split; [solve_ticks | solve_requests].
  - pose proof (inv_jobs _ _ _ _ _ _ _ _ _ HI) as Hj.
    apply Forall_cons in Hj as [Hp _].
    eexists _, _, _. split; [by apply exec_return|].
    split; [by apply tick_return|]. split; [solve_ticks | solve_requests].
  - destruct (create_head _ _ _ _ _ _ _ _ _ HI) as (pC & -> & _).
    destruct s.
    + destruct (tick_create_args _ _ _ _ _ _ _ _ _ HI) as (extra & -> & Hp & HI').
      eexists _, _, _. split; [by apply exec_create_args|].
      split; [exact HI'|]. split; [solve_ticks | solve_requests].
    + destruct (tick_create_invoke _ _ _ _ _ _ _ _ _ HI) as (extra & -> & HI').
      eexists _, _, _. split; [by apply exec_create_invoke|].
      split; [exact HI'|]. split; [solve_ticks | solve_requests].
    + destruct (tick_create_publish _ _ _ _ _ _ _ _ _ HI) as (extra & -> & Hp & HI').
      eexists _, _, _. split; [by eapply exec_create_publish|].
      split; [exact HI'|]. split; [solve_ticks | solve_requests].
    + destruct (tick_create_assign _ _ _ _ _ _ _ _ _ HI)
        as (extra & -> & -> & Hp & HI').
      eexists _, _, _. split; [by eapply exec_create_assign|].
      split; [exact HI'|]. split; [solve_ticks | solve_requests].
Qed.
(** *** The event loop and the calls *)

Lemma Inv_run e a σ h n :
  Resolved t tt d r sh c h0 →
  inv e a σ h → ticksLeft a ≤ n →
  ∃ a' σ' h',
    run n (σ, h) = (σ', h') ∧ inv e a' σ' h' ∧ aq a' = [] ∧
    requests a' ≡ₚ requests a.
Proof.
  intros HR. revert a σ h. induction n as [| n IH]; intros a [cs q ex] h HI Hn.
  - destruct q as [| j q].
    + exists a, (mkSched cs [] ex), h. split_and!; try done.
      apply inv_queue in HI. simpl in HI. by destruct (aq a).
    + destruct (Inv_tick _ _ _ _ _ _ _ HR HI) as (? & ? & ? & _ & _ & Ht & _). lia.
  - destruct q as [| j q].
    + exists a, (mkSched cs [] ex), h. split_and!; try done.
      apply inv_queue in HI. simpl in HI. by destruct (aq a).
    + destruct (Inv_tick _ _ _ _ _ _ _ HR HI) as (a1 & σ1 & h1 & Hr & HI1 & Ht & Hp).
      destruct (IH a1 σ1 h1 HI1 ltac:(lia)) as (a' & σ' & h' & Hr' & HI' & Ha & Hp').
      exists a', σ', h'. split_and!; try done.
      * unfold run in *. rewrite loop_cons, Hr. done.
      * by rewrite Hp'.
Qed.

Lemma Inv_play e evs a σ h :
  Resolved t tt d r sh c h0 →
  inv e a σ h →
  ∃ a',
    inv e a' (play (DependencyManager_get [] (S f1) t) evs (σ, h)).2.1
              (play (DependencyManager_get [] (S f1) t) evs (σ, h)).2.2 ∧
    requests a' ≡ₚ (play (DependencyManager_get [] (S f1) t) evs (σ, h)).1
                   ++ requests a ∧
    ticksLeft a'
    ≤ ticksLeft a
      + 3 * length (play (DependencyManager_get [] (S f1) t) evs (σ, h)).1.
Proof.
  intros HR. revert a σ h.
  induction evs as [| [|] evs IH]; intros a [cs q ex] h HI.
  - exists a. simpl. split_and!; [done | done | lia].
  - pose proof (inv_heap _ _ _ _ _ _ _ _ _ HI) as [extra ->].
    pose proof (request_inv _ _ _ _ _ _ HI) as HI1.
    cbn [play].
    assert (Hcall : call (DependencyManager_get [] (S f1) t)
                      (mkSched cs q ex, heapOf (bld a) extra)
                    = (length cs,
                       (mkSched (cs ++ [mkCell None [] 0; settledWith (VDef r)])
                                (q ++ [rjob (AResume (length cs))]) ex,
                        heapOf (bld a) extra))).
    { destruct (bld a); unfold heapAt; by apply call_request. }
    rewrite Hcall.
    destruct (IH _ _ _ HI1) as (a' & HI' & Hp & Ht).
    destruct (play _ evs _) as [ps cfg']. simpl in *.
    exists a'. split_and!; [done | |].
    + rewrite Hp. unfold requests. cbn. rewrite omap_app. cbn.
      solve_Permutation.
    + revert Ht. unfold ticksLeft. cbn. rewrite sum_list_with_app. cbn. lia.
  - cbn [play]. destruct q as [| j q].
    + unfold run. rewrite loop_nil. by apply IH.
    + destruct (Inv_tick _ _ _ _ _ _ _ HR HI) as (a1 & σ1 & h1 & Hr & HI1 & Ht & Hp).
      unfold run. rewrite loop_cons, Hr. cbn [loop].
      destruct (IH _ _ _ HI1) as (a' & HI' & Hp' & Ht').
      exists a'. split_and!; [done | by rewrite Hp', Hp | lia].
Qed.

(** When no job is left, every request holds the instance, and one was
    built if there was a request. *)
Lemma Inv_quiescent e a σ h :
  inv e a σ h → aq a = [] →
  Forall (λ p, result p σ = Some (Fulfilled built)) (requests a) ∧
  (requests a ≠ [] → ∃ B extra, h = heapOf (Built B) extra).
Proof.
  intros HI Ha. destruct a as [aq0 w fin b]. simpl in Ha. subst aq0.
  open_inv HI. unfold build_book in Hbk. unfold requests. cbn.
  destruct b as [| B pC s | B]; simpl in *.
  - destruct Hbk as (-> & -> & _). split; [by constructor | done].
  - by destruct Hbk.
  - destruct Hbk as (_ & ->). simpl. rewrite app_nil_r. split.
    + eapply Forall_impl; [exact Hf|]. intros p Hp. unfold result.
      by rewrite Hp.
    + intros _. by exists B, extra.
Qed.

End SharedType.

(** The first call resolves the definition: it adds the resolved copy to
    the store. *)
Lemma first_request f1 t d D defs0 rsym0 dreg oreg cregs arrs recs insts
    flog plog cs q ex c hx :
  dreg !! t = Some d → defs0 !! d = Some D → kind D ≠ KReference →
  rsym0 !! d = None →
  call (DependencyManager_get [] (S f1) t)
    (mkSched cs q ex,
     mkHeap defs0 rsym0 dreg oreg cregs arrs recs insts flog plog)
  = (length cs,
     (mkSched (cs ++ [mkCell None [] 0; settledWith (VDef (length defs0))])
              (q ++ [job f1 (length defs0) c hx (AResume (length cs))]) ex,
      mkHeap (defs0 ++ [D]) (<[d := length defs0]> rsym0) dreg oreg cregs
             arrs recs insts flog plog)).
Proof.
  intros Ht Hd HD Hr.
  unfold call, spawn, DependencyManager_get, job, settledWith. run_exec.
  destruct D; try done; run_exec; reflexivity.
Qed.

Lemma Inv_idle f1 tt r c h0 cs ex :
  Inv f1 tt r c h0 ex (mkRequests [] [] [] NotStarted) (mkSched cs [] ex) h0.
Proof.
  split; try done; try by constructor.
  by exists [].
Qed.

Lemma run_idle n cs ex h :
  run n (mkSched cs [] ex, h) = (mkSched cs [] ex, h).
Proof. unfold run. apply loop_nil. Qed.

Lemma play_idle c evs cs ex h :
  Request ∉ evs →
  play c evs (mkSched cs [] ex, h) = ([], (mkSched cs [] ex, h)).
Proof.
  induction evs as [| [|] evs IH]; intros Hn; [done | |].
  - exfalso. apply Hn. by left.
  - cbn [play]. rewrite run_idle. apply IH.
    intros H. apply Hn. by right.
Qed.

(** Any number of top-level calls [dm.get(t)] for a shared class without
    arguments and properties, whatever the event loop runs between them:
    they all resolve to one instance, and the factory ran once. *)
Lemma shared_requests f1 evs σ h t tt d sh c :
  defRegistry h !! t = Some d →
  defs h !! d = Some (DType tt sh (Some (Construct c)) None None) →
  default true sh = true →
  resolvedSym h !! d = None →
  objRegistry h !! length (defs h) = None →
  queue σ = [] →
  Request ∈ evs →
  let '(ps, cfg) := play (DependencyManager_get [] (S f1) t) evs (σ, h) in
  let cfg' := run (3 * length ps + 4) cfg in
  Forall (λ p, outcome p cfg'
               = Some (Fulfilled (VObj (length (instances h))))) ps ∧
  factoryLog cfg'.2 = factoryLog h ++ [(length (defs h), [])] ∧
  instances cfg'.2 = instances h ++ [mkInstance c [] (Some tt) []] ∧
  queue cfg'.1 = [] ∧ exhausted cfg'.1 = exhausted σ.
Proof.
  destruct h as [defs0 rsym0 dreg oreg cregs arrs recs insts flog plog].
  destruct σ as [cs q ex]. cbn [defs resolvedSym defRegistry objRegistry
    instances factoryLog queue exhausted].
  intros Ht Hd Hsh Hr Ho -> Hin.
  induction evs as [| [|] evs IH].
  - by apply elem_of_nil in Hin.
  - clear IH Hin. cbn [play].
    set (h0 := mkHeap (defs0 ++ [DType tt sh (Some (Construct c)) None None])
                 (<[d := length defs0]> rsym0) dreg oreg cregs arrs recs
                 insts flog plog).
    rewrite (first_request f1 t d _ _ _ _ _ _ _ _ _ _ _ _ [] ex c h0 Ht Hd)
      by done.
    fold h0.
    assert (HR : Resolved t tt d (length defs0) sh c h0).
    { split; cbn; try done.
      - eexists. split; [by apply lookup_app_l_Some | done].
      - apply lookup_insert_eq.
      - by rewrite lookup_fresh0. }
    pose proof (Inv_idle f1 tt (length defs0) c h0 cs ex) as HI.
    apply request_inv in HI. cbn [aq waiting finished bld app] in HI.
    edestruct (Inv_play f1 t tt d (length defs0) sh c) with (evs := evs)
      as (a1 & HI1 & Hp1 & Ht1); [exact HR | exact HI |].
    destruct (play _ evs _) as [ps [σ1 h1]]. cbn [fst snd] in *.
    edestruct (Inv_run f1 t tt d (length defs0) sh c)
      with (n := 3 * length (length cs :: ps) + 4)
      as (a2 & σ2 & h2 & Hrun & HI2 & Ha2 & Hp2); [exact HR | exact HI1 | |].
    { revert Ht1. unfold ticksLeft. cbn. lia. }
    cbv zeta. rewrite Hrun. cbn [fst snd].
    destruct (Inv_quiescent _ _ _ _ _ _ _ _ _ _ _ _ _ _ _ _ _ _ HI2 Ha2)
      as [Hall Hbuilt].
    assert (Hreq : requests a2 ≡ₚ length cs :: ps).
    { rewrite Hp2, Hp1. unfold requests. cbn. solve_Permutation. }
    rewrite Hreq in Hall.
    destruct Hbuilt as (B & extra & ->).
    { intros Hnil. rewrite Hnil in Hreq. by apply Permutation_nil_cons in Hreq. }
    split; [exact Hall|]. split; [done|]. split; [done|].
    split.
    + apply inv_queue in HI2. by rewrite HI2, Ha2.
    + by apply inv_exhausted in HI2.
  - cbn [play]. rewrite run_idle. apply IH.
    apply elem_of_cons in Hin as [? | ?]; done.
Qed.

(** Two top-level calls for a class bound with [shared(false)], the second
    after the event loop ran [k] jobs of the first: each call has the factory
    build an instance of its own. *)
Lemma transient_requests f1 k σ h t tt d c :
  defRegistry h !! t = Some d →
  defs h !! d = Some (DType tt (Some false) (Some (Construct c)) None None) →
  resolvedSym h !! d = None →
  queue σ = [] →
  let get := DependencyManager_get [] (S f1) t in
  let '(p1, cfg1) := call get (σ, h) in
  let '(p2, cfg2) := call get (run k cfg1) in
  let cfg := run 14 cfg2 in
  outcome p1 cfg = Some (Fulfilled (VObj (length (instances h)))) ∧
  outcome p2 cfg = Some (Fulfilled (VObj (length (instances h) + 1))) ∧
  factoryLog cfg.2
  = factoryLog h ++ [(length (defs h), []); (length (defs h), [])] ∧
  instances cfg.2
  = instances h ++ [mkInstance c [] (Some tt) []; mkInstance c [] (Some tt) []] ∧
  queue cfg.1 = [] ∧ exhausted cfg.1 = exhausted σ.
Proof.
  destruct h as [defs0 rsym0 dreg oreg cregs arrs recs insts flog plog].
  destruct σ as [cs q ex]. cbn [defs resolvedSym defRegistry objRegistry
    instances factoryLog queue exhausted].
  intros Ht Hd Hr ->. cbv zeta.
  assert (Hd' : (defs0 ++ [DType tt (Some false) (Some (Construct c)) None None]) !! d
          = Some (DType tt (Some false) (Some (Construct c)) None None))
    by (by apply lookup_app_l_Some).
  unfold call at 1, spawn, DependencyManager_get. run_exec.
  do 7 (destruct k as [| k];
        [unfold run, call, spawn, outcome, result; run_exec;
         cbn [fst snd cells queue exhausted instances factoryLog];
         norm_store; repeat split; reflexivity |]).
  unfold run, call, spawn, outcome, result; run_exec;
    cbn [fst snd cells queue exhausted instances factoryLog];
    norm_store; repeat split; reflexivity.
Qed.




(** ** C5: cycles *)


(** The check is made on fork, before the dispatch on the kind. *)
Lemma getDependency_cyclic get provider_get factory_create
    (ctx : DiContext) (dep : addr) (k : val → cmd) own σ h :
  dep ∈ stack ctx →
  exec own (getDependency get provider_get factory_create ctx dep k) σ h
  = (settle own (Rejected "Cyclic dependency") σ, h).
Proof.
  intros Hin. unfold getDependency, forking. cbn [exec].
  by rewrite forkContext_cyclic.
Qed.

(** A request that finds a future under its key in the registry of the
    context is answered before any fork. *)
Lemma get_memo_before_fork resolvers fuel ctx def type sh fac ar pr memo
    own σ h :
  defs h !! def = Some (DType type sh fac ar pr) →
  registryLookup h ctx (hashOf type) = Some memo →
  exec own
    (Get (λ h,
       let hash := d ← defs h !! def; DependencyProvider_hashOf d in
       match hash ≫= registryLookup h ctx with
       | Some memo => Ret memo
       | None =>
           getDependency (DependencyProvider_get resolvers fuel)
             (objProvider_get resolvers fuel) (objFactory_create resolvers fuel)
             ctx def (λ p', Await p' Ret)
       end)) σ h
  = exec own (Ret memo) σ h.
Proof. intros Hd Hm. cbn [exec]. rewrite Hd. simpl. by rewrite Hm. Qed.



(** ** C6: when the properties are resolved *)




(** ** C7: resolving a definition twice *)

(** The plugin loop, run on its own: one job per plugin. *)
Lemma runResolvers_run (rs : DefinitionResolvers) :
  ∀ (n index : nat) ctx def (k : cmd) own cs ex
    defs0 D0 rsym dreg oreg cregs arrs recs insts flog plog,
  (let '(σ1, h1) :=
     exec own (runResolvers ctx index rs def (length defs0) k)
       (mkSched cs [] ex)
       (mkHeap (defs0 ++ [D0]) rsym dreg oreg cregs arrs recs insts flog plog) in
   loop (length rs + n) σ1 h1)
  = (let '(σ1, h1) :=
       exec own k
         (mkSched (cs ++ replicate (length rs)
                           (mkCell (Some (Fulfilled VUndef)) [] 0)) [] ex)
         (mkHeap (defs0 ++ [foldl (λ d pl, resolve pl ctx d) D0 rs])
                 rsym dreg oreg cregs arrs recs insts flog
                 (plog ++ imap (λ i _, (index + i, def)) rs)) in
     loop n σ1 h1).
Proof.
  induction rs as [| pl rs IH]; intros.
  - cbn [runResolvers length replicate imap foldl Nat.add].
    by rewrite !app_nil_r.
  - cbn [length Nat.add]. run_exec.
    specialize (IH n (S index) ctx def k own
                  (cs ++ [mkCell (Some (Fulfilled VUndef)) [] 0]) ex
                  defs0 (resolve pl ctx D0) rsym dreg oreg cregs arrs recs
                  insts flog (plog ++ [(index, def)])).
    rewrite IH. clear IH.
    cbn [foldl imap replicate]. rewrite <- !app_assoc. cbn [app].
    rewrite Nat.add_0_r.
    rewrite (imap_ext (λ i _, (S index + i, def))
               ((λ i (_ : IDefinitionResolver), (index + i, def)) ∘ S) rs);
      [reflexivity |].
    intros i x _. simpl. f_equal. lia.
Qed.

Lemma runResolvers_run0 (rs : DefinitionResolvers) index ctx def (k : cmd)
    own cs ex defs0 D0 rsym dreg oreg cregs arrs recs insts flog plog :
  (let '(σ1, h1) :=
     exec own (runResolvers ctx index rs def (length defs0) k)
       (mkSched cs [] ex)
       (mkHeap (defs0 ++ [D0]) rsym dreg oreg cregs arrs recs insts flog plog) in
   loop (length rs) σ1 h1)
  = (let '(σ1, h1) :=
       exec own k
         (mkSched (cs ++ replicate (length rs)
                           (mkCell (Some (Fulfilled VUndef)) [] 0)) [] ex)
         (mkHeap (defs0 ++ [foldl (λ d pl, resolve pl ctx d) D0 rs])
                 rsym dreg oreg cregs arrs recs insts flog
                 (plog ++ imap (λ i _, (index + i, def)) rs)) in
     loop 0 σ1 h1).
Proof.
  rewrite <- (runResolvers_run rs 0). by rewrite Nat.add_0_r.
Qed.

(** A definition that is not a reference and was not resolved before: the
    first resolution copies it, runs every plugin once on the copy, in order,
    and caches the copy on the definition. *)
Lemma resolve_first resolvers fuel ctx (dep : Dependency) (def : addr) D
    cs ex defs0 rsym dreg oreg cregs arrs recs insts flog plog :
  (dep = DDef def ∨ ∃ t, dep = DRef t ∧ dreg !! t = Some def) →
  defs0 !! def = Some D → kind D ≠ KReference →
  rsym !! def = None →
  run (length resolvers)
    (call (DefinitionResolver_resolve resolvers fuel ctx dep)
       (mkSched cs [] ex,
        mkHeap defs0 rsym dreg oreg cregs arrs recs insts flog plog)).2
  = (mkSched (cs ++ mkCell (Some (Fulfilled (VDef (length defs0)))) [] 0
                 :: replicate (length resolvers)
                      (mkCell (Some (Fulfilled VUndef)) [] 0)) [] ex,
     mkHeap (defs0 ++ [foldl (λ d pl, resolve pl ctx d) D resolvers])
            (<[def := length defs0]> rsym) dreg oreg cregs arrs recs insts flog
            (plog ++ imap (λ i _, (i, def)) resolvers)).
Proof.
  intros Hdep Hd HD Hr.
  assert (HD' : match D with DReference _ => False | _ => True end)
    by (by destruct D).
  rewrite run_call.
  destruct Hdep as [-> | (t & -> & Ht)].
  all: run_exec.
  all: destruct D; try done.
  all: run_exec.
  all: rewrite runResolvers_run0; run_exec.
  all: reflexivity.
Qed.

(** A definition that carries a cached resolution: the resolution returns it
    at once and leaves the store as it is. *)
Lemma resolve_cached resolvers fuel ctx (dep : Dependency) (def r : addr) D
    n cs ex defs0 rsym dreg oreg cregs arrs recs insts flog plog :
  (dep = DDef def ∨ ∃ t, dep = DRef t ∧ dreg !! t = Some def) →
  defs0 !! def = Some D → kind D ≠ KReference →
  rsym !! def = Some r →
  run n
    (call (DefinitionResolver_resolve resolvers fuel ctx dep)
       (mkSched cs [] ex,
        mkHeap defs0 rsym dreg oreg cregs arrs recs insts flog plog)).2
  = (mkSched (cs ++ [mkCell (Some (Fulfilled (VDef r))) [] 0]) [] ex,
     mkHeap defs0 rsym dreg oreg cregs arrs recs insts flog plog).
Proof.
  intros Hdep Hd HD Hr.
  assert (HD' : match D with DReference _ => False | _ => True end)
    by (by destruct D).
  rewrite run_call.
  destruct Hdep as [-> | (t & -> & Ht)].
  all: run_exec.
  all: destruct D; try done.
  all: run_exec.
  all: reflexivity.
Qed.

(** C7, as stated, fails: the definitions of [B] and [A2] are two objects,
    both [Reference] to [C] and structurally identical; after both were
    resolved they carry the same cached resolution object. *)
Lemma C7_counterexample :
  let '(res, cfg) :=
    resolveEach bootstrapResolvers [DRef "B"; DRef "A2"]
      (emptySched, heapChain) in
  defs cfg.2 !! 1 = Some (makeReference "C") ∧
  defs cfg.2 !! 3 = Some (makeReference "C") ∧
  resolvedSym cfg.2 !! 1 = Some 4 ∧
  resolvedSym cfg.2 !! 3 = Some 4 ∧
  res = [Some (Fulfilled (VDef 4)); Some (Fulfilled (VDef 4))].
Proof. vm_compute. repeat split. Qed.

(** C7 (amended): for a definition that is not a [Reference], resolved for
    the first time and then, once that resolution has completed, a second
    time.  The first resolution makes a new object (no definition carried it
    before), runs every registered plugin on it exactly once, in order, and
    caches it on the definition; the second returns the same object at once
    and runs no plugin.  ([Reference] definitions carry the resolution object
    of the definition they lead to.) *)
Theorem C7_resolve_twice resolvers fuel fuel' ctx ctx' (dep : Dependency)
    (def : addr) (D : Definition_) (h : Heap) (cs : list Cell) (ex : bool) :
  (dep = DDef def ∨ ∃ t, dep = DRef t ∧ defRegistry h !! t = Some def) →
  defs h !! def = Some D → kind D ≠ KReference →
  resolvedSym h !! def = None →
  (∀ def' r', resolvedSym h !! def' = Some r' → r' < length (defs h)) →
  let r := length (defs h) in
  let first :=
    run (length resolvers)
      (call (DefinitionResolver_resolve resolvers fuel ctx dep)
         (mkSched cs [] ex, h)).2 in
  let second :=
    run 0 (call (DefinitionResolver_resolve resolvers fuel' ctx' dep) first).2 in
  outcome (length cs) first = Some (Fulfilled (VDef r)) ∧
  queue first.1 = [] ∧
  resolvedSym first.2 = <[def := r]> (resolvedSym h) ∧
  defs first.2 = defs h ++ [foldl (λ d pl, resolve pl ctx d) D resolvers] ∧
  pluginLog first.2 = pluginLog h ++ imap (λ i _, (i, def)) resolvers ∧
  (∀ def' r', resolvedSym h !! def' = Some r' → r' ≠ r) ∧
  outcome (length (cells first.1)) second = Some (Fulfilled (VDef r)) ∧
  second.2 = first.2.
Proof.
  destruct h as [defs0 rsym dreg oreg cregs arrs recs insts flog plog].
  cbn [defs resolvedSym defRegistry pluginLog].
  intros Hdep Hd HD Hr Hwf.
  rewrite (resolve_first _ _ _ _ _ _ _ _ _ _ _ _ _ _ _ _ _ _ Hdep Hd HD Hr).
  assert (Hd' : (defs0 ++ [foldl (λ d pl, resolve pl ctx d) D resolvers]) !! def
                = Some D) by (by apply lookup_app_l_Some).
  rewrite (resolve_cached _ _ _ _ _ (length defs0) _ _ _ _ _ _ _ _ _ _ _ _ _ _
             Hdep Hd' HD (lookup_insert_eq _ _ _)).
  unfold outcome, result. cbn [fst snd cells queue defs resolvedSym pluginLog].
  norm_store.
  repeat split; try done.
  intros def' r' Hr' ->. specialize (Hwf _ _ Hr'). lia.
Qed.

Lemma C7_witness :
  let first :=
    run 2 (call (DefinitionResolver_resolve [autowire; autowire] 8 rootCtx
                   (DRef "C"))
             (mkSched [] [] false, heapChain)).2 in
  let second :=
    run 0 (call (DefinitionResolver_resolve [autowire; autowire] 8 rootCtx
                   (DRef "C")) first).2 in
  outcome 0 first = Some (Fulfilled (VDef 4)) ∧
  pluginLog first.2 = [(0, 2); (1, 2)] ∧
  outcome 3 second = Some (Fulfilled (VDef 4)) ∧
  second.2 = first.2.
Proof.
  assert (Hdep : DRef "C" = DDef 2 ∨
                 ∃ t, DRef "C" = DRef t ∧ defRegistry heapChain !! t = Some 2)
    by (right; exists "C"; split; reflexivity).
  assert (Hd : defs heapChain !! 2 = Some (toClass "C" "C" None None))
    by reflexivity.
  assert (HD : kind (toClass "C" "C" None None) ≠ KReference) by discriminate.
  assert (Hr : resolvedSym heapChain !! 2 = None) by reflexivity.
  assert (Hwf : ∀ def' r', resolvedSym heapChain !! def' = Some r' →
                           r' < length (defs heapChain))
    by (intros def' r' H; vm_compute in H; discriminate).
  destruct (C7_resolve_twice [autowire; autowire] 8 8 rootCtx rootCtx
              (DRef "C") 2 (toClass "C" "C" None None) heapChain [] false
              Hdep Hd HD Hr Hwf) as (H1 & _ & _ & _ & H5 & _ & H7 & H8).
  cbv zeta.
  split; [exact H1 |]. split; [exact H5 |]. split; [exact H7 | exact H8].
Defined.



(** The check of the cache and the write of it are one step only when no
    plugin is awaited in between: with a plugin registered, two resolutions
    of one definition that overlap both run the plugin; both return the
    object the first one cached. *)
Example overlapping_resolutions_run_plugins_twice :
  let '(p1, cfg) := call (DefinitionResolver_resolve [autowire] 8 rootCtx (DRef "C"))
                         (emptySched, heapChain) in
  let '(p2, cfg) := call (DefinitionResolver_resolve [autowire] 8 rootCtx (DRef "C"))
                         cfg in
  let cfg := run 8 cfg in
  outcome p1 cfg = Some (Fulfilled (VDef 4)) ∧
  outcome p2 cfg = Some (Fulfilled (VDef 4)) ∧
  pluginLog cfg.2 = [(0, 2); (0, 2)] ∧
  quiescent cfg.
Proof. vm_compute. repeat split. Qed.

(** ** C8: chains of references *)

(** C8, as stated, fails: when the first resolution through the chain
    [A -> B -> C] is that of [B], the definition of [A] carries no cached
    resolution after it. *)
Lemma C8_counterexample :
  let '(res, cfg) :=
    resolveEach bootstrapResolvers [DRef "B"] (emptySched, heapChain) in
  res = [Some (Fulfilled (VDef 4))] ∧
  defs cfg.2 !! 0 = Some (makeReference "B") ∧
  resolvedSym cfg.2 !! 0 = None ∧
  resolvedSym cfg.2 !! 1 = Some 4 ∧
  resolvedSym cfg.2 !! 2 = Some 4.
Proof. vm_compute. repeat split. Qed.

(** The chain resolved from its head: both references are tagged. *)
Lemma resolve_chain_from_head resolvers fuel ctx (a b c : TypeToken) (dA dB dC : addr)
    (D : Definition_) cs ex defs0 rsym dreg oreg cregs arrs recs insts flog plog :
  dreg !! a = Some dA → defs0 !! dA = Some (DReference b) →
  dreg !! b = Some dB → defs0 !! dB = Some (DReference c) →
  dreg !! c = Some dC → defs0 !! dC = Some D → kind D ≠ KReference →
  rsym !! dA = None → rsym !! dB = None → rsym !! dC = None →
  run (length resolvers)
    (call (DefinitionResolver_resolve resolvers (S (S fuel)) ctx (DRef a))
       (mkSched cs [] ex,
        mkHeap defs0 rsym dreg oreg cregs arrs recs insts flog plog)).2
  = (mkSched (cs ++ mkCell (Some (Fulfilled (VDef (length defs0)))) [] 0
                 :: replicate (length resolvers)
                      (mkCell (Some (Fulfilled VUndef)) [] 0)) [] ex,
     mkHeap (defs0 ++ [foldl (λ d pl, resolve pl ctx d) D resolvers])
            (<[dB := length defs0]> (<[dA := length defs0]>
               (<[dC := length defs0]> rsym)))
            dreg oreg cregs arrs recs insts flog
            (plog ++ imap (λ i _, (i, dC)) resolvers)).
Proof.
  intros Ha HdA Hb HdB Hc HdC HD HrA HrB HrC.
  assert (HD' : match D with DReference _ => False | _ => True end)
    by (by destruct D).
  assert (dA ≠ dC) by (intros ->; rewrite HdA in HdC; by simplify_eq).
  assert (dB ≠ dC) by (intros ->; rewrite HdB in HdC; by simplify_eq).
  assert (dA ≠ dB).
  { intros ->. rewrite HdA in HdB. simplify_eq. }
  rewrite run_call. run_exec.
  destruct D; try done.
  all: run_exec.
  all: rewrite runResolvers_run0; run_exec.
  all: reflexivity.
Qed.

(** The chain resolved from its second link: the head is not visited. *)
Lemma resolve_chain_from_second resolvers fuel ctx (b c : TypeToken)
    (dB dC : addr) (D : Definition_)
    cs ex defs0 rsym dreg oreg cregs arrs recs insts flog plog :
  dreg !! b = Some dB → defs0 !! dB = Some (DReference c) →
  dreg !! c = Some dC → defs0 !! dC = Some D → kind D ≠ KReference →
  rsym !! dB = None → rsym !! dC = None →
  run (length resolvers)
    (call (DefinitionResolver_resolve resolvers (S fuel) ctx (DRef b))
       (mkSched cs [] ex,
        mkHeap defs0 rsym dreg oreg cregs arrs recs insts flog plog)).2
  = (mkSched (cs ++ mkCell (Some (Fulfilled (VDef (length defs0)))) [] 0
                 :: replicate (length resolvers)
                      (mkCell (Some (Fulfilled VUndef)) [] 0)) [] ex,
     mkHeap (defs0 ++ [foldl (λ d pl, resolve pl ctx d) D resolvers])
            (<[dB := length defs0]> (<[dC := length defs0]> rsym))
            dreg oreg cregs arrs recs insts flog
            (plog ++ imap (λ i _, (i, dC)) resolvers)).
Proof.
  intros Hb HdB Hc HdC HD HrB HrC.
  assert (HD' : match D with DReference _ => False | _ => True end)
    by (by destruct D).
  assert (dB ≠ dC) by (intros ->; rewrite HdB in HdC; by simplify_eq).
  rewrite run_call. run_exec.
  destruct D; try done.
  all: run_exec.
  all: rewrite runResolvers_run0; run_exec.
  all: reflexivity.
Qed.

(** A reference whose target carries a cached resolution: the loop stops
    after one hop, the reference is tagged with that resolution, no plugin
    runs and no definition is made. *)
Lemma resolve_alias_hit resolvers fuel ctx (x y : TypeToken) (dX dY r : addr)
    n cs ex defs0 rsym dreg oreg cregs arrs recs insts flog plog :
  dreg !! x = Some dX → defs0 !! dX = Some (DReference y) →
  dreg !! y = Some dY → rsym !! dY = Some r →
  run n
    (call (DefinitionResolver_resolve resolvers (S fuel) ctx (DRef x))
       (mkSched cs [] ex,
        mkHeap defs0 rsym dreg oreg cregs arrs recs insts flog plog)).2
  = (mkSched (cs ++ [mkCell (Some (Fulfilled (VDef r))) [] 0]) [] ex,
     mkHeap defs0 (defineResolved dX r rsym)
            dreg oreg cregs arrs recs insts flog plog).
Proof.
  intros Hx HdX Hy HrY.
  rewrite run_call. run_exec. reflexivity.
Qed.

(** C8 (amended): for a chain [A -> B -> C] of which nothing was resolved
    before.  Resolved from [A]: the result is the resolution object of [C]
    (a copy of [C] after the plugins), and the definitions of [A], [B] and
    [C] all carry that object; resolving [A] or [B] afterwards returns it at
    once and changes nothing.  Resolved from [B] first: the result is the
    same object, carried by [B] and [C]; [A] was not visited and carries
    nothing, until it is resolved itself: then it stops at [B] and is tagged
    with that object. *)
Theorem C8_reference_chain resolvers fuel ctx (a b c : TypeToken)
    (dA dB dC : addr) (D : Definition_) (h : Heap) (cs : list Cell) (ex : bool) :
  defRegistry h !! a = Some dA → defs h !! dA = Some (DReference b) →
  defRegistry h !! b = Some dB → defs h !! dB = Some (DReference c) →
  defRegistry h !! c = Some dC → defs h !! dC = Some D → kind D ≠ KReference →
  resolvedSym h !! dA = None → resolvedSym h !! dB = None →
  resolvedSym h !! dC = None →
  let r := length (defs h) in
  let resolveIn n t cfg :=
    run n (call (DefinitionResolver_resolve resolvers (S (S fuel)) ctx (DRef t))
             cfg).2 in
  let fromA := resolveIn (length resolvers) a (mkSched cs [] ex, h) in
  let fromB := resolveIn (length resolvers) b (mkSched cs [] ex, h) in
  let thenA := resolveIn 0 a fromB in
  (outcome (length cs) fromA = Some (Fulfilled (VDef r)) ∧
   defs fromA.2 !! r = Some (foldl (λ d pl, resolve pl ctx d) D resolvers) ∧
   resolvedSym fromA.2 !! dA = Some r ∧
   resolvedSym fromA.2 !! dB = Some r ∧
   resolvedSym fromA.2 !! dC = Some r ∧
   (∀ t, t = a ∨ t = b →
      outcome (length (cells fromA.1)) (resolveIn 0 t fromA)
      = Some (Fulfilled (VDef r)) ∧
      (resolveIn 0 t fromA).2 = fromA.2)) ∧
  (outcome (length cs) fromB = Some (Fulfilled (VDef r)) ∧
   resolvedSym fromB.2 !! dA = None ∧
   resolvedSym fromB.2 !! dB = Some r ∧
   resolvedSym fromB.2 !! dC = Some r ∧
   outcome (length (cells fromB.1)) thenA = Some (Fulfilled (VDef r)) ∧
   resolvedSym thenA.2 !! dA = Some r).
Proof.
  destruct h as [defs0 rsym dreg oreg cregs arrs recs insts flog plog].
  cbn [defs resolvedSym defRegistry].
  intros Ha HdA Hb HdB Hc HdC HD HrA HrB HrC.
  assert (dA ≠ dC) by (intros ->; rewrite HdA in HdC; by simplify_eq).
  assert (dB ≠ dC) by (intros ->; rewrite HdB in HdC; by simplify_eq).
  assert (dA ≠ dB) by (intros ->; rewrite HdA in HdB; simplify_eq).
  cbv zeta.
  rewrite (resolve_chain_from_head resolvers fuel ctx a b c dA dB dC D
             cs ex defs0 rsym dreg oreg cregs arrs recs insts flog plog)
    by assumption.
  rewrite (resolve_chain_from_second resolvers (S fuel) ctx b c dB dC D
             cs ex defs0 rsym dreg oreg cregs arrs recs insts flog plog)
    by assumption.
  assert (HdA' : ∀ x, (defs0 ++ [x]) !! dA = Some (DReference b))
    by (intros; by apply lookup_app_l_Some).
  assert (HdB' : ∀ x, (defs0 ++ [x]) !! dB = Some (DReference c))
    by (intros; by apply lookup_app_l_Some).
  assert (Hlen : ∀ (l : list Definition_) x, (l ++ [x]) !! length l = Some x)
    by (intros; by rewrite lookup_fresh0).
  split.
  - do 5 (split; [unfold outcome, result; cbn [fst snd cells defs resolvedSym];
                  norm_store; map_simpl; first [reflexivity | apply Hlen] |]).
    intros t [-> | ->].
    + erewrite (resolve_alias_hit resolvers (S fuel) ctx a b dA dB);
        [| done | apply HdA' | done | by map_simpl].
      unfold outcome. cbn [fst snd cells]. rewrite result_fresh.
      split; [reflexivity |].
      erewrite defineResolved_kept; [done | by map_simpl].
    + erewrite (resolve_alias_hit resolvers (S fuel) ctx b c dB dC);
        [| done | apply HdB' | done | by map_simpl].
      unfold outcome. cbn [fst snd cells]. rewrite result_fresh.
      split; [reflexivity |].
      erewrite defineResolved_kept; [done | by map_simpl].
  - erewrite (resolve_alias_hit resolvers (S fuel) ctx a b dA dB);
      [| done | apply HdA' | done | by map_simpl].
    unfold outcome. cbn [fst snd cells defs resolvedSym].
    rewrite result_fresh.
    do 4 (split; [unfold result; cbn [cells]; norm_store; map_simpl;
                  first [reflexivity | assumption] |]).
    split; [reflexivity |].
    erewrite defineResolved_fresh; [by map_simpl | by map_simpl].
Qed.

Lemma C8_witness :
  let resolveIn n t cfg :=
    run n (call (DefinitionResolver_resolve bootstrapResolvers 8 rootCtx (DRef t))
             cfg).2 in
  let fromA := resolveIn 0 "A" (mkSched [] [] false, heapChain) in
  outcome 0 fromA = Some (Fulfilled (VDef 4)) ∧
  resolvedSym fromA.2 !! 0 = Some 4 ∧
  resolvedSym fromA.2 !! 1 = Some 4 ∧
  resolvedSym fromA.2 !! 2 = Some 4.
Proof.
  assert (HD : kind (toClass "C" "C" None None) ≠ KReference) by discriminate.
  destruct (C8_reference_chain bootstrapResolvers 6 rootCtx "A" "B" "C" 0 1 2
              (toClass "C" "C" None None) heapChain [] false
              eq_refl eq_refl eq_refl eq_refl eq_refl eq_refl HD
              eq_refl eq_refl eq_refl)
    as [(H1 & _ & H3 & H4 & H5 & _) _].
  cbv zeta.
  split; [exact H1 |]. split; [exact H3 |]. split; [exact H4 | exact H5].
Defined.

(** ** C9: a failure and the calls that joined *)

(** C9 (the code differs): the factory of [T] throws.  Of two overlapping
    top-level calls [dm.get("T")], the first fails with the error of the
    factory; the second, which joined the construction in flight, is never
    settled: nothing is left to run and its promise is still pending.  So is
    a third call made later.  The factory ran once. *)
Theorem C9_joined_call_never_settles :
  let '(first, second, third, cfg) := getConcurrently heapFailing "T" in
  first = Some (Rejected "boom") ∧
  second = None ∧
  third = None ∧
  factoryLog cfg.2 = [(2, [])] ∧
  quiescent cfg.
Proof. vm_compute. repeat split. Qed.

(** The same defect with two shared classes that take each other as
    constructor argument: the request is never settled, no error is
    raised. *)
Example shared_argument_cycle_never_settles :
  let '(res, cfg) := getOnce (heapArgsCycle None) "A" in
  res = None ∧ factoryLog cfg.2 = [] ∧ quiescent cfg.
Proof. vm_compute. repeat split. Qed.

(** * More of the code *)

(** Stacks of symbolic addresses. *)
Ltac solve_stack :=
  cbn [stack app];
  first [ rewrite ?not_elem_of_cons; repeat split;
          first [ apply not_elem_of_nil | lia ]
        | rewrite ?elem_of_cons; lia ].

Ltac solve_decide ::=
  first [ eassumption
        | cbn [stack app]; refine (bool_decide_unpack _ _); vm_compute; exact I
        | solve_stack ].

(** Definitions that were in the store before the run. *)
Ltac old_lookup :=
  match goal with
  | H : ?l !! ?i = Some ?x |- context [(?l ++ ?k) !! ?i] =>
      rewrite (lookup_app_l_Some l k i x H)
  end.

(** A value that is not a promise is wrapped by [Promise.resolve]. *)
Lemma getValue_plain (v : val) (k : val → cmd) :
  thenable v = None → getValue v k = Async (Ret v) k.
Proof. by destruct v. Qed.

Ltac value_step :=
  match goal with
  | H : thenable ?v = None |- context [getValue ?v ?k] =>
      rewrite (getValue_plain v k H)
  end.

Ltac run_all :=
  repeat first
    [ value_step
    | progress sched_cbn
    | progress unfold_state
    | progress norm_store
    | progress norm_map
    | fork_step
    | sched_step
    | unfold_cmd
    | old_lookup
    | progress cbn [state reactions remaining]
    | exec_head
    | progress use_lookups ].

(** What a store without dangling entries says of the next addresses. *)
Ltac fresh_addresses Hwf defs0 :=
  destruct (Hwf (length defs0) ltac:(lia)) as [? ?];
  destruct (Hwf (length defs0 + 1) ltac:(lia)) as [? ?];
  destruct (Hwf (length defs0 + 2) ltac:(lia)) as [? ?];
  destruct (Hwf (length defs0 + 3) ltac:(lia)) as [? ?];
  destruct (Hwf (length defs0 + 4) ltac:(lia)) as [? ?];
  destruct (Hwf (length defs0 + 5) ltac:(lia)) as [? ?].

(** ** Further properties of the engine *)

(** *** A type nobody bound *)

(** The whole run of [dm.get(t)] for a type that has no binding. *)
Lemma get_unbound_run fuel cs ex defs0 rsym dreg oreg cregs arrs recs insts
    flog plog (t : TypeToken) :
  dreg !! t = None →
  rsym !! length defs0 = None →
  oreg !! (length defs0 + 1) = None →
  run 8 (call (DependencyManager_get bootstrapResolvers (S fuel) t)
           (mkSched cs [] ex,
            mkHeap defs0 rsym dreg oreg cregs arrs recs insts flog plog)).2
  = (mkSched
       (cs ++ [mkCell (Some (Rejected "Factory is not defined")) [] 0;
               mkCell (Some (Fulfilled (VDef (length defs0 + 1)))) [] 0;
               mkCell (Some (Rejected "Factory is not defined")) [] 0;
               mkCell None [] 0;
               mkCell (Some (Rejected "Factory is not defined")) [] 0;
               mkCell (Some (Rejected "Factory is not defined")) [] 0;
               mkCell (Some (Fulfilled (VArr (length arrs)))) [] 0])
       [] ex,
     mkHeap (defs0 ++ [makeType t; makeType t])
       (<[length defs0 := length defs0 + 1]> rsym)
       (<[t := length defs0]> dreg)
       (<[length defs0 + 1 := VFut (length cs + 3)]> oreg)
       (cregs ++ [<[hashOf t := VFut (length cs + 3)]> ∅])
       (arrs ++ [[]]) recs insts flog plog).
Proof.
  intros Ht Hr0 Ho1.
  unfold DependencyManager_get, bootstrapResolvers. rewrite run_call.
  run_exec. reflexivity.
Qed.

(** X1: [dm.get(t)] for a type that was never bound registers
    [makeType(t)] under [t], resolves it, and fails with "Factory is not
    defined": no factory runs and no instance is made.  The future that the
    ObjectProvider put into the instance registry for the resolved
    definition stays there, pending. *)
Theorem unbound_type_has_no_factory fuel (h : Heap) (cs : list Cell)
    (ex : bool) (t : TypeToken) :
  defRegistry h !! t = None →
  noDangling h →
  let d := length (defs h) in
  let cfg := run 8 (call (DependencyManager_get bootstrapResolvers (S fuel) t)
                      (mkSched cs [] ex, h)).2 in
  outcome (length cs) cfg = Some (Rejected "Factory is not defined") ∧
  queue cfg.1 = [] ∧ exhausted cfg.1 = ex ∧
  defRegistry cfg.2 = <[t := d]> (defRegistry h) ∧
  defs cfg.2 = defs h ++ [makeType t; makeType t] ∧
  resolvedSym cfg.2 = <[d := d + 1]> (resolvedSym h) ∧
  factoryLog cfg.2 = factoryLog h ∧
  instances cfg.2 = instances h ∧
  (∃ F, objRegistry cfg.2 !! (d + 1) = Some (VFut F) ∧ outcome F cfg = None).
Proof.
  destruct h as [defs0 rsym dreg oreg cregs arrs recs insts flog plog].
  unfold noDangling.
  cbn [defs defRegistry objRegistry resolvedSym factoryLog instances].
  intros Ht Hwf.
  destruct (Hwf (length defs0) ltac:(lia)) as [Hr0 _].
  destruct (Hwf (length defs0 + 1) ltac:(lia)) as [_ Ho1].
  cbv zeta. rewrite get_unbound_run by done.
  unfold outcome, result.
  cbn [fst snd cells queue exhausted defs defRegistry resolvedSym objRegistry
       factoryLog instances].
  norm_store. repeat split; try done.
  exists (length cs + 3). rewrite lookup_insert_eq. norm_store. done.
Qed.

Lemma unbound_type_has_no_factory_witness :
  let cfg := run 8 (call (DependencyManager_get bootstrapResolvers 32 "ghost")
                      (mkSched [] [] false, heapFoo)).2 in
  outcome 0 cfg = Some (Rejected "Factory is not defined") ∧
  queue cfg.1 = [] ∧ exhausted cfg.1 = false ∧
  defRegistry cfg.2 = <["ghost" := 1]> (defRegistry heapFoo) ∧
  defs cfg.2 = defs heapFoo ++ [makeType "ghost"; makeType "ghost"] ∧
  resolvedSym cfg.2 = <[1 := 2]> (resolvedSym heapFoo) ∧
  factoryLog cfg.2 = factoryLog heapFoo ∧
  instances cfg.2 = instances heapFoo ∧
  (∃ F, objRegistry cfg.2 !! 2 = Some (VFut F) ∧ outcome F cfg = None).
Proof.
  apply (unbound_type_has_no_factory 31 heapFoo [] false "ghost").
  - vm_compute. reflexivity.
  - intros d Hd. split; vm_compute; reflexivity.
Defined.

(** X2: asked again for the same unbound type, the engine does not fail a
    second time: the second [dm.get(t)] joins the future the failed call left
    in the instance registry and is never settled; nothing is left to
    run. *)
Theorem unbound_type_second_get_pending fuel fuel' (h : Heap) (cs : list Cell)
    (ex : bool) (t : TypeToken) :
  defRegistry h !! t = None →
  noDangling h →
  let first := run 8 (call (DependencyManager_get bootstrapResolvers (S fuel) t)
                        (mkSched cs [] ex, h)).2 in
  let second := run 8 (call (DependencyManager_get bootstrapResolvers (S fuel') t)
                         first).2 in
  outcome (length cs) second = Some (Rejected "Factory is not defined") ∧
  outcome (length (cells first.1)) second = None ∧
  queue second.1 = [] ∧ exhausted second.1 = ex ∧
  factoryLog second.2 = factoryLog h ∧
  instances second.2 = instances h.
Proof.
  destruct h as [defs0 rsym dreg oreg cregs arrs recs insts flog plog].
  unfold noDangling.
  cbn [defs defRegistry objRegistry resolvedSym factoryLog instances].
  intros Ht Hwf.
  destruct (Hwf (length defs0) ltac:(lia)) as [Hr0 _].
  destruct (Hwf (length defs0 + 1) ltac:(lia)) as [_ Ho1].
  cbv zeta. rewrite get_unbound_run by done.
  unfold DependencyManager_get, bootstrapResolvers. rewrite run_call.
  run_exec.
  unfold outcome, result.
  cbn [fst snd cells queue exhausted defs defRegistry resolvedSym factoryLog instances].
  norm_store. done.
Qed.

Lemma unbound_type_second_get_pending_witness :
  let first := run 8 (call (DependencyManager_get bootstrapResolvers 32 "ghost")
                        (mkSched [] [] false, heapFoo)).2 in
  let second := run 8 (call (DependencyManager_get bootstrapResolvers 32 "ghost")
                         first).2 in
  outcome 0 second = Some (Rejected "Factory is not defined") ∧
  outcome (length (cells first.1)) second = None ∧
  queue second.1 = [] ∧ exhausted second.1 = false ∧
  factoryLog second.2 = factoryLog heapFoo ∧
  instances second.2 = instances heapFoo.
Proof.
  apply (unbound_type_second_get_pending 31 31 heapFoo [] false "ghost").
  - vm_compute. reflexivity.
  - intros d Hd. split; vm_compute; reflexivity.
Defined.

(** *** A type bound to a value *)

(** X3: a type bound with [toValue(v)], [v] not a promise, resolves to [v].
    The store gains the resolved copy of the definition and the registry of
    the forked context, and nothing else: no factory runs, no instance is
    made and the instance registry is not touched. *)
Theorem value_binding_resolves fuel (h : Heap) (cs : list Cell) (ex : bool)
    (t : TypeToken) (d : addr) (v : val) :
  defRegistry h !! t = Some d →
  defs h !! d = Some (DValue v) →
  resolvedSym h !! d = None →
  thenable v = None →
  let cfg := run 3 (call (DependencyManager_get bootstrapResolvers (S fuel) t)
                      (mkSched cs [] ex, h)).2 in
  outcome (length cs) cfg = Some (Fulfilled v) ∧
  queue cfg.1 = [] ∧ exhausted cfg.1 = ex ∧
  cfg.2 = set_ctxRegistries (λ l, l ++ [∅])
            (set_resolvedSym <[d := length (defs h)]>
               (set_defs (λ l, l ++ [DValue v]) h)).
Proof.
  destruct h as [defs0 rsym dreg oreg cregs arrs recs insts flog plog].
  cbn [defs defRegistry resolvedSym]. intros Ht Hd Hr Hv. cbv zeta.
  unfold DependencyManager_get, bootstrapResolvers. rewrite run_call.
  run_exec.
  destruct v; try discriminate Hv; run_exec.
  all: unfold outcome, result; cbn [fst snd cells queue exhausted]; norm_store.
  all: done.
Qed.

Lemma value_binding_resolves_witness :
  let h := bound "port" (makeValue (VStr "8080")) emptyHeap in
  let cfg := run 3 (call (DependencyManager_get bootstrapResolvers 32 "port")
                      (mkSched [] [] false, h)).2 in
  outcome 0 cfg = Some (Fulfilled (VStr "8080")) ∧
  queue cfg.1 = [] ∧ exhausted cfg.1 = false ∧
  cfg.2 = set_ctxRegistries (λ l, l ++ [∅])
            (set_resolvedSym <[0 := 1]>
               (set_defs (λ l, l ++ [DValue (VStr "8080")]) h)).
Proof.
  intros h.
  apply (value_binding_resolves 31 h [] false "port" 0 (VStr "8080")).
  all: vm_compute; reflexivity.
Defined.

(** X4: when the value of the binding is a promise that has not settled,
    the request waits for it: with nothing else to run the request is
    pending, and once the promise settles the request settles the same
    way. *)
Theorem promise_value_is_awaited fuel (h : Heap) (cs : list Cell) (ex : bool)
    (t : TypeToken) (d a : addr) (n : nat) (s : Settled) :
  defRegistry h !! t = Some d →
  defs h !! d = Some (DValue (VProm a)) →
  resolvedSym h !! d = None →
  cs !! a = Some (mkCell None [] n) →
  match s with Fulfilled w => thenable w = None | Rejected _ => True end →
  let waiting := run 3 (call (DependencyManager_get bootstrapResolvers (S fuel) t)
                          (mkSched cs [] ex, h)).2 in
  let settled := run 1 (settle a s waiting.1, waiting.2) in
  outcome (length cs) waiting = None ∧
  queue waiting.1 = [] ∧
  outcome (length cs) settled = Some s ∧
  queue settled.1 = [] ∧ exhausted settled.1 = ex ∧
  factoryLog settled.2 = factoryLog h ∧ instances settled.2 = instances h.
Proof.
  destruct h as [defs0 rsym dreg oreg cregs arrs recs insts flog plog].
  cbn [defs defRegistry resolvedSym factoryLog instances].
  intros Ht Hd Hr Ha Hs. cbv zeta.
  assert (Hlt : a < length cs) by (by eapply lookup_lt_Some).
  unfold DependencyManager_get, bootstrapResolvers. rewrite run_call.
  run_exec.
  unfold settle. cbn [cells state reactions remaining queue exhausted].
  rewrite lookup_app_l by (rewrite ?length_insert; lia).
  rewrite list_lookup_insert_eq by lia.
  cbn [state reactions remaining map job_of app].
  rewrite <- insert_app_l by (rewrite ?length_insert; lia).
  rewrite list_insert_insert_eq.
  unfold run.
  assert (Hfin : ∀ s' : Settled,
    let σ := settle (length cs) s'
      (mkSched (<[a := mkCell (Some s) [] n]>
                  (cs ++ [mkCell None [] 0;
                          mkCell (Some (Fulfilled (VDef (length defs0)))) [] 0]))
         [] ex) in
    result (length cs) σ = Some s' ∧ queue σ = [] ∧ exhausted σ = ex).
  { intros s'. unfold settle, result. cbn [cells queue exhausted].
    rewrite list_lookup_insert_ne by lia. rewrite lookup_fresh0.
    cbn [lookup list_lookup state reactions remaining cells queue exhausted map app].
    rewrite list_lookup_insert_eq
      by (rewrite length_insert, length_app; cbn [length]; lia).
    done. }
  assert (Hwait :
    result (length cs)
      (mkSched (<[a := mkCell None [RAwait (length cs) Ret] n]>
                  (cs ++ [mkCell None [] 0;
                          mkCell (Some (Fulfilled (VDef (length defs0)))) [] 0]))
         [] ex) = None).
  { unfold result. cbn [cells].
    rewrite list_lookup_insert_ne by lia. rewrite lookup_fresh0. done. }
  unfold outcome. cbn [fst snd].
  split; [exact Hwait |]. split; [done |].
  destruct s as [w | e]; rewrite loop_cons; cbn [runJob exec]; rewrite ?Hs.
  all: destruct (Hfin (Fulfilled w)) as (H1 & H2 & H3)
       || destruct (Hfin (Rejected e)) as (H1 & H2 & H3).
  all: cbv zeta in H1, H2, H3.
  all: match goal with
       | |- context [loop 0 ?σ ?h] => rewrite (loop_O σ h)
       end.
  all: cbn [fst snd factoryLog instances]; done.
Qed.

Lemma promise_value_is_awaited_witness :
  let h := bound "cfg" (makeValue (VProm 0)) emptyHeap in
  let cs := [mkCell None [] 0] in
  let waiting := run 3 (call (DependencyManager_get bootstrapResolvers 32 "cfg")
                          (mkSched cs [] false, h)).2 in
  let settled := run 1 (settle 0 (Fulfilled (VStr "x")) waiting.1, waiting.2) in
  outcome 1 waiting = None ∧
  queue waiting.1 = [] ∧
  outcome 1 settled = Some (Fulfilled (VStr "x")) ∧
  queue settled.1 = [] ∧ exhausted settled.1 = false ∧
  factoryLog settled.2 = factoryLog h ∧ instances settled.2 = instances h.
Proof.
  intros h cs.
  apply (promise_value_is_awaited 31 h cs false "cfg" 0 0 0 (Fulfilled (VStr "x"))).
  all: vm_compute; reflexivity.
Defined.

(** *** Arrays and records without elements *)

Lemma get_empty_array_run fuel cs ex defs0 rsym dreg oreg cregs arrs recs insts
    flog plog (t : TypeToken) (d : addr) (els : option (list slot)) :
  dreg !! t = Some d →
  defs0 !! d = Some (DArray els) →
  default [] els = [] →
  rsym !! d = None →
  run 3 (call (DependencyManager_get bootstrapResolvers (S fuel) t)
           (mkSched cs [] ex,
            mkHeap defs0 rsym dreg oreg cregs arrs recs insts flog plog)).2
  = (mkSched
       (cs ++ [mkCell (Some (Fulfilled (VArr (length arrs)))) [] 0;
               mkCell (Some (Fulfilled (VDef (length defs0)))) [] 0;
               mkCell (Some (Fulfilled VUndef)) [] 0;
               mkCell (Some (Fulfilled (VArr (length arrs)))) [] 0])
       [] ex,
     mkHeap (defs0 ++ [DArray els]) (<[d := length defs0]> rsym) dreg oreg
       (cregs ++ [∅]) (arrs ++ [[]]) recs insts flog plog).
Proof.
  intros Ht Hd Hels Hr.
  unfold DependencyManager_get, bootstrapResolvers. rewrite run_call.
  run_exec. rewrite Hels. run_exec. reflexivity.
Qed.

(** X5: a type bound to an array without elements ([toArray()], as
    [bootstrap] binds the list of plugins) resolves to an empty array, and
    to a new one for every request: arrays are not shared.  No factory
    runs. *)
Theorem empty_array_per_request fuel fuel' (h : Heap) (cs : list Cell)
    (ex : bool) (t : TypeToken) (d : addr) (els : option (list slot)) :
  defRegistry h !! t = Some d →
  defs h !! d = Some (DArray els) →
  default [] els = [] →
  resolvedSym h !! d = None →
  let first := run 3 (call (DependencyManager_get bootstrapResolvers (S fuel) t)
                        (mkSched cs [] ex, h)).2 in
  let second := run 3 (call (DependencyManager_get bootstrapResolvers (S fuel') t)
                         first).2 in
  let a := length (arrays h) in
  outcome (length cs) first = Some (Fulfilled (VArr a)) ∧
  queue first.1 = [] ∧
  outcome (length (cells first.1)) second = Some (Fulfilled (VArr (a + 1))) ∧
  queue second.1 = [] ∧ exhausted second.1 = ex ∧
  arrays second.2 = arrays h ++ [[]; []] ∧
  factoryLog second.2 = factoryLog h ∧ instances second.2 = instances h.
Proof.
  destruct h as [defs0 rsym dreg oreg cregs arrs recs insts flog plog].
  cbn [defs defRegistry resolvedSym arrays factoryLog instances].
  intros Ht Hd Hels Hr. cbv zeta.
  rewrite (get_empty_array_run _ _ _ _ _ _ _ _ _ _ _ _ _ _ _ _ Ht Hd Hels Hr).
  assert (Hd' : (defs0 ++ [DArray els]) !! d = Some (DArray els))
    by (by apply lookup_app_l_Some).
  unfold DependencyManager_get, bootstrapResolvers. rewrite run_call.
  run_exec. rewrite Hels. run_exec.
  unfold outcome, result.
  cbn [fst snd cells queue exhausted arrays factoryLog instances].
  norm_store. done.
Qed.

Lemma empty_array_per_request_witness :
  let h := bound "plugins" (makeArray []) emptyHeap in
  let first := run 3 (call (DependencyManager_get bootstrapResolvers 32 "plugins")
                        (mkSched [] [] false, h)).2 in
  let second := run 3 (call (DependencyManager_get bootstrapResolvers 32 "plugins")
                         first).2 in
  outcome 0 first = Some (Fulfilled (VArr 0)) ∧
  queue first.1 = [] ∧
  outcome (length (cells first.1)) second = Some (Fulfilled (VArr 1)) ∧
  queue second.1 = [] ∧ exhausted second.1 = false ∧
  arrays second.2 = arrays h ++ [[]; []] ∧
  factoryLog second.2 = factoryLog h ∧ instances second.2 = instances h.
Proof.
  intros h.
  apply (empty_array_per_request 31 31 h [] false "plugins" 0 (Some [])).
  all: vm_compute; reflexivity.
Defined.

Lemma get_empty_record_run fuel cs ex defs0 rsym dreg oreg cregs arrs recs insts
    flog plog (t : TypeToken) (d : addr)
    (els : option (list (string * option Dependency))) :
  dreg !! t = Some d →
  defs0 !! d = Some (DRecord els) →
  default [] els = [] →
  rsym !! d = None →
  run 3 (call (DependencyManager_get bootstrapResolvers (S fuel) t)
           (mkSched cs [] ex,
            mkHeap defs0 rsym dreg oreg cregs arrs recs insts flog plog)).2
  = (mkSched
       (cs ++ [mkCell (Some (Fulfilled (VRec (length recs)))) [] 0;
               mkCell (Some (Fulfilled (VDef (length defs0)))) [] 0;
               mkCell (Some (Fulfilled VUndef)) [] 0;
               mkCell (Some (Fulfilled (VRec (length recs)))) [] 0])
       [] ex,
     mkHeap (defs0 ++ [DRecord els]) (<[d := length defs0]> rsym) dreg oreg
       (cregs ++ [∅]) arrs (recs ++ [[]]) insts flog plog).
Proof.
  intros Ht Hd Hels Hr.
  unfold DependencyManager_get, bootstrapResolvers. rewrite run_call.
  run_exec. rewrite Hels. run_exec. reflexivity.
Qed.

(** X6: the same for a record without fields ([toRecord()]): every request
    resolves to a new empty object. *)
Theorem empty_record_per_request fuel fuel' (h : Heap) (cs : list Cell)
    (ex : bool) (t : TypeToken) (d : addr)
    (els : option (list (string * option Dependency))) :
  defRegistry h !! t = Some d →
  defs h !! d = Some (DRecord els) →
  default [] els = [] →
  resolvedSym h !! d = None →
  let first := run 3 (call (DependencyManager_get bootstrapResolvers (S fuel) t)
                        (mkSched cs [] ex, h)).2 in
  let second := run 3 (call (DependencyManager_get bootstrapResolvers (S fuel') t)
                         first).2 in
  let a := length (records h) in
  outcome (length cs) first = Some (Fulfilled (VRec a)) ∧
  queue first.1 = [] ∧
  outcome (length (cells first.1)) second = Some (Fulfilled (VRec (a + 1))) ∧
  queue second.1 = [] ∧ exhausted second.1 = ex ∧
  records second.2 = records h ++ [[]; []] ∧
  factoryLog second.2 = factoryLog h ∧ instances second.2 = instances h.
Proof.
  destruct h as [defs0 rsym dreg oreg cregs arrs recs insts flog plog].
  cbn [defs defRegistry resolvedSym records factoryLog instances].
  intros Ht Hd Hels Hr. cbv zeta.
  rewrite (get_empty_record_run _ _ _ _ _ _ _ _ _ _ _ _ _ _ _ _ Ht Hd Hels Hr).
  assert (Hd' : (defs0 ++ [DRecord els]) !! d = Some (DRecord els))
    by (by apply lookup_app_l_Some).
  unfold DependencyManager_get, bootstrapResolvers. rewrite run_call.
  run_exec. rewrite Hels. run_exec.
  unfold outcome, result.
  cbn [fst snd cells queue exhausted records factoryLog instances].
  norm_store. done.
Qed.

Lemma empty_record_per_request_witness :
  let h := bound "options" (DRecord None) emptyHeap in
  let first := run 3 (call (DependencyManager_get bootstrapResolvers 32 "options")
                        (mkSched [] [] false, h)).2 in
  let second := run 3 (call (DependencyManager_get bootstrapResolvers 32 "options")
                         first).2 in
  outcome 0 first = Some (Fulfilled (VRec 0)) ∧
  queue first.1 = [] ∧
  outcome (length (cells first.1)) second = Some (Fulfilled (VRec 1)) ∧
  queue second.1 = [] ∧ exhausted second.1 = false ∧
  records second.2 = records h ++ [[]; []] ∧
  factoryLog second.2 = factoryLog h ∧ instances second.2 = instances h.
Proof.
  intros h.
  apply (empty_record_per_request 31 31 h [] false "options" 0 None).
  all: vm_compute; reflexivity.
Defined.

(** *** Aliases that lead back to themselves *)

(** Inside such a set the [while] loop of [resolve] finds a [Reference] at
    every turn: it is still running at any depth. *)
Lemma followReferences_aliasLoop (S : addr → Prop) (h : Heap) :
  aliasLoop h S →
  ∀ fuel d tags k own σ,
    S d →
    exec own (followReferences fuel d tags k) σ h
    = (mkSched (cells σ) (queue σ) true, h).
Proof.
  intros Hloop fuel.
  induction fuel as [| fuel IH]; intros d tags k own σ Hd.
  all: destruct (Hloop d Hd) as (t & d' & Hdef & Hreg & Hres & Hd').
  - cbn [followReferences exec]. rewrite Hdef. reflexivity.
  - cbn [followReferences exec Resolver_getDefinition].
    rewrite Hdef. cbn [exec]. rewrite Hreg. cbn [exec]. rewrite Hres.
    by apply IH.
Qed.



(** *** Dependencies that fail *)

(** X8: a class whose constructor takes a type that nobody bound.  The
    request for the class fails with the error of the argument, "Factory is
    not defined"; the factory of the class is never invoked and no instance
    is made, whether the class is shared or not. *)
Theorem argument_failure_propagates fuel (h : Heap) (cs : list Cell)
    (ex : bool) (t ty u : TypeToken) (d : addr) sh f props :
  defRegistry h !! t = Some d →
  defs h !! d = Some (DType ty sh (Some f) (Some [Some (Some (DRef u))]) props) →
  resolvedSym h !! d = None →
  defRegistry h !! u = None → u ≠ ty →
  noDangling h →
  let cfg := run 40 (call (DependencyManager_get bootstrapResolvers
                             (S (S (S fuel))) t)
                       (mkSched cs [] ex, h)).2 in
  outcome (length cs) cfg = Some (Rejected "Factory is not defined") ∧
  queue cfg.1 = [] ∧ exhausted cfg.1 = ex ∧
  factoryLog cfg.2 = factoryLog h ∧
  instances cfg.2 = instances h.
Proof.
  destruct h as [defs0 rsym dreg oreg cregs arrs recs insts flog plog].
  unfold noDangling.
  cbn [defs defRegistry objRegistry resolvedSym factoryLog instances].
  intros Ht Hd Hr Hu Hne Hwf.
  assert (Hlt : d < length defs0) by (by eapply lookup_lt_Some).
  fresh_addresses Hwf defs0.
  assert (Hne' : hashOf u ≠ hashOf ty) by done.
  cbv zeta.
  unfold DependencyManager_get, bootstrapResolvers. rewrite run_call.
  run_exec.
  destruct sh as [[|]|]; run_exec.
  all: unfold outcome, result.
  all: cbn [fst snd cells queue exhausted factoryLog instances].
  all: norm_store; done.
Qed.

Lemma argument_failure_propagates_witness :
  let h := bound "boo" (toClass "boo" "Boo" (Some [Some (Some (DRef "foo"))]) None)
             emptyHeap in
  let cfg := run 40 (call (DependencyManager_get bootstrapResolvers 32 "boo")
                       (mkSched [] [] false, h)).2 in
  outcome 0 cfg = Some (Rejected "Factory is not defined") ∧
  queue cfg.1 = [] ∧ exhausted cfg.1 = false ∧
  factoryLog cfg.2 = factoryLog h ∧
  instances cfg.2 = instances h.
Proof.
  intros h.
  apply (argument_failure_propagates 29 h [] false "boo" "boo" "foo" 0 None
           (Construct "Boo") None).
  1-4: vm_compute; reflexivity.
  - discriminate.
  - intros d Hd. split; vm_compute; reflexivity.
Defined.

(** X9: a shared class with a property of a type that nobody bound.  The
    first request builds the instance, publishes it through the shared
    future, and then fails with the error of the property.  The instance
    stays in the instance registry: the next request for the class resolves
    to it, with the property missing, and neither fails nor runs the factory
    again. *)
Theorem property_failure_leaves_instance fuel fuel' (h : Heap)
    (cs : list Cell) (ex : bool) (t ty u : TypeToken) (d : addr) sh c p :
  defRegistry h !! t = Some d →
  defs h !! d
    = Some (DType ty sh (Some (Construct c)) None (Some [(p, Some (DRef u))])) →
  default true sh = true →
  resolvedSym h !! d = None →
  defRegistry h !! u = None → u ≠ ty →
  noDangling h →
  let first := run 40 (call (DependencyManager_get bootstrapResolvers
                               (S (S (S fuel))) t)
                         (mkSched cs [] ex, h)).2 in
  let second := run 40 (call (DependencyManager_get bootstrapResolvers
                                (S fuel') t) first).2 in
  let o := length (instances h) in
  outcome (length cs) first = Some (Rejected "Factory is not defined") ∧
  queue first.1 = [] ∧
  outcome (length (cells first.1)) second = Some (Fulfilled (VObj o)) ∧
  queue second.1 = [] ∧ exhausted second.1 = ex ∧
  instances second.2 = instances h ++ [mkInstance c [] (Some ty) []] ∧
  factoryLog second.2 = factoryLog h ++ [(length (defs h), [])].
Proof.
  destruct h as [defs0 rsym dreg oreg cregs arrs recs insts flog plog].
  intros Ht Hd Hsh Hr Hu Hne Hwf. unfold noDangling in Hwf.
  cbn [defs defRegistry objRegistry resolvedSym] in Ht, Hd, Hr, Hu, Hwf.
  assert (Hlt : d < length defs0) by (by eapply lookup_lt_Some).
  fresh_addresses Hwf defs0.
  assert (Hne' : hashOf u ≠ hashOf ty) by done.
  assert (Hut : u ≠ t) by congruence.
  destruct sh as [[|]|]; try discriminate Hsh.
  all: intros first.
  all: eassert (Hfirst : first = _)
    by (subst first; unfold DependencyManager_get, bootstrapResolvers;
        rewrite run_call; run_exec; reflexivity).
  all: clearbody first; subst first.
  all: intros second.
  all: eassert (Hsecond : second = _)
    by (subst second; unfold DependencyManager_get, bootstrapResolvers;
        rewrite run_call; run_exec;
        rewrite (lookup_app_l_Some _ _ _ _ Hd); run_exec; reflexivity).
  all: clearbody second; subst second.
  all: cbv zeta; unfold outcome, result.
  all: cbn [fst snd cells queue exhausted factoryLog instances].
  all: norm_store; done.
Qed.

Lemma property_failure_leaves_instance_witness :
  let h := bound "boo" (toClass "boo" "Boo" None (Some [("foo", Some (DRef "foo"))]))
             emptyHeap in
  let first := run 40 (call (DependencyManager_get bootstrapResolvers 32 "boo")
                         (mkSched [] [] false, h)).2 in
  let second := run 40 (call (DependencyManager_get bootstrapResolvers 32 "boo")
                          first).2 in
  outcome 0 first = Some (Rejected "Factory is not defined") ∧
  queue first.1 = [] ∧
  outcome (length (cells first.1)) second = Some (Fulfilled (VObj 0)) ∧
  queue second.1 = [] ∧ exhausted second.1 = false ∧
  instances second.2 = instances h ++ [mkInstance "Boo" [] (Some "boo") []] ∧
  factoryLog second.2 = factoryLog h ++ [(length (defs h), [])].
Proof.
  intros h.
  apply (property_failure_leaves_instance 29 31 h [] false "boo" "boo" "foo" 0
           None "Boo" "foo").
  1-5: vm_compute; reflexivity.
  - discriminate.
  - intros d Hd. split; vm_compute; reflexivity.
Defined.

(** *** What the factory is given *)

(** X10: the constructor receives the resolved arguments by position.  For
    a class bound with [withArgument(1, Definition.makeValue(v))] (the
    arguments are a hole and the value definition), the factory is called
    once, with [undefined] and [v], and the request resolves to the instance
    it built. *)
Theorem constructor_receives_arguments fuel (h : Heap) (cs : list Cell)
    (ex : bool) (t ty : TypeToken) (d dv : addr) sh c (v : val) :
  defRegistry h !! t = Some d →
  defs h !! d
    = Some (DType ty sh (Some (Construct c)) (Some [None; Some (Some (DDef dv))])
              None) →
  defs h !! dv = Some (DValue v) →
  thenable v = None →
  resolvedSym h !! d = None → resolvedSym h !! dv = None →
  noDangling h →
  let cfg := run 40 (call (DependencyManager_get bootstrapResolvers
                             (S (S (S fuel))) t)
                       (mkSched cs [] ex, h)).2 in
  let o := length (instances h) in
  outcome (length cs) cfg = Some (Fulfilled (VObj o)) ∧
  queue cfg.1 = [] ∧ exhausted cfg.1 = ex ∧
  instances cfg.2 = instances h ++ [mkInstance c [VUndef; v] (Some ty) []] ∧
  (∃ r, factoryLog cfg.2 = factoryLog h ++ [(r, [VUndef; v])]).
Proof.
  destruct h as [defs0 rsym dreg oreg cregs arrs recs insts flog plog].
  intros Ht Hd Hdv Hv Hrd Hrv Hwf. unfold noDangling in Hwf.
  cbn [defs defRegistry objRegistry resolvedSym arrays instances factoryLog]
    in Ht, Hd, Hdv, Hrd, Hrv, Hwf.
  assert (Hlt : d < length defs0) by (by eapply lookup_lt_Some).
  assert (Hlt' : dv < length defs0) by (by eapply lookup_lt_Some).
  assert (Hne : d ≠ dv) by congruence.
  fresh_addresses Hwf defs0.
  intros cfg.
  destruct sh as [[|]|].
  all: eassert (Hcfg : cfg = _)
    by (subst cfg; unfold DependencyManager_get, bootstrapResolvers;
        rewrite run_call; run_all; reflexivity).
  all: clearbody cfg; subst cfg.
  all: cbv zeta; unfold outcome, result.
  all: cbn [fst snd cells queue exhausted factoryLog instances].
  all: norm_store.
  all: repeat split; try done; by eexists.
Qed.

Lemma constructor_receives_arguments_witness :
  let h := bound "foo" (toClass "foo" "Foo" (Some [None; Some (Some (DDef 0))]) None)
             (set_defs (λ l, l ++ [makeValue (VStr "tester")]) emptyHeap) in
  let cfg := run 40 (call (DependencyManager_get bootstrapResolvers 32 "foo")
                       (mkSched [] [] false, h)).2 in
  let o := length (instances h) in
  outcome 0 cfg = Some (Fulfilled (VObj o)) ∧
  queue cfg.1 = [] ∧ exhausted cfg.1 = false ∧
  instances cfg.2
  = instances h ++ [mkInstance "Foo" [VUndef; VStr "tester"] (Some "foo") []] ∧
  (∃ r, factoryLog cfg.2 = factoryLog h ++ [(r, [VUndef; VStr "tester"])]).
Proof.
  intros h.
  apply (constructor_receives_arguments 29 h [] false "foo" "foo" 1 0 None "Foo"
           (VStr "tester")).
  1-6: vm_compute; reflexivity.
  intros d Hd. split; vm_compute; reflexivity.
Defined.

(** X11: the properties are resolved and assigned to the instance after it
    is built.  For a class bound with
    [withProperty(p, Definition.makeValue(v))] the factory is called without
    arguments and the request resolves to the instance, which then has the
    field [p] with the value [v]. *)
Theorem property_is_assigned fuel (h : Heap) (cs : list Cell)
    (ex : bool) (t ty : TypeToken) (d dv : addr) sh c (p : string) (v : val) :
  defRegistry h !! t = Some d →
  defs h !! d
    = Some (DType ty sh (Some (Construct c)) None (Some [(p, Some (DDef dv))])) →
  defs h !! dv = Some (DValue v) →
  thenable v = None →
  resolvedSym h !! d = None → resolvedSym h !! dv = None →
  noDangling h →
  let cfg := run 40 (call (DependencyManager_get bootstrapResolvers
                             (S (S (S fuel))) t)
                       (mkSched cs [] ex, h)).2 in
  let o := length (instances h) in
  outcome (length cs) cfg = Some (Fulfilled (VObj o)) ∧
  queue cfg.1 = [] ∧ exhausted cfg.1 = ex ∧
  instances cfg.2 = instances h ++ [mkInstance c [] (Some ty) [(p, v)]] ∧
  (∃ r, factoryLog cfg.2 = factoryLog h ++ [(r, [])]).
Proof.
  destruct h as [defs0 rsym dreg oreg cregs arrs recs insts flog plog].
  intros Ht Hd Hdv Hv Hrd Hrv Hwf. unfold noDangling in Hwf.
  cbn [defs defRegistry objRegistry resolvedSym arrays instances factoryLog]
    in Ht, Hd, Hdv, Hrd, Hrv, Hwf.
  assert (Hlt : d < length defs0) by (by eapply lookup_lt_Some).
  assert (Hlt' : dv < length defs0) by (by eapply lookup_lt_Some).
  assert (Hne : d ≠ dv) by congruence.
  fresh_addresses Hwf defs0.
  intros cfg.
  destruct sh as [[|]|].
  all: eassert (Hcfg : cfg = _)
    by (subst cfg; unfold DependencyManager_get, bootstrapResolvers;
        rewrite run_call; run_all; reflexivity).
  all: clearbody cfg; subst cfg.
  all: cbv zeta; unfold outcome, result.
  all: cbn [fst snd cells queue exhausted factoryLog instances].
  all: norm_store.
  all: repeat split; try done; by eexists.
Qed.

Lemma property_is_assigned_witness :
  let h := bound "foo" (toClass "foo" "Foo" None (Some [("name", Some (DDef 0))]))
             (set_defs (λ l, l ++ [makeValue (VStr "tester")]) emptyHeap) in
  let cfg := run 40 (call (DependencyManager_get bootstrapResolvers 32 "foo")
                       (mkSched [] [] false, h)).2 in
  let o := length (instances h) in
  outcome 0 cfg = Some (Fulfilled (VObj o)) ∧
  queue cfg.1 = [] ∧ exhausted cfg.1 = false ∧
  instances cfg.2
  = instances h ++ [mkInstance "Foo" [] (Some "foo") [("name", VStr "tester")]] ∧
  (∃ r, factoryLog cfg.2 = factoryLog h ++ [(r, [])]).
Proof.
  intros h.
  apply (property_is_assigned 29 h [] false "foo" "foo" 1 0 None "Foo" "name"
           (VStr "tester")).
  1-6: vm_compute; reflexivity.
  intros d Hd. split; vm_compute; reflexivity.
Defined.

(** *** A class that depends on itself *)

(** X12: a shared class may name itself as a property.  The request builds
    one instance, and the property of the instance is the instance itself:
    the nested request finds the shared future in the registry of its
    context and is answered without a fork, so no "Cyclic dependency" is
    raised and the factory runs once. *)
Theorem self_property_is_the_instance fuel (h : Heap) (cs : list Cell)
    (ex : bool) (t ty : TypeToken) (d : addr) sh c (p : string) :
  defRegistry h !! t = Some d →
  defs h !! d
    = Some (DType ty sh (Some (Construct c)) None (Some [(p, Some (DRef t))])) →
  default true sh = true →
  resolvedSym h !! d = None →
  noDangling h →
  let cfg := run 40 (call (DependencyManager_get bootstrapResolvers
                             (S (S (S fuel))) t)
                       (mkSched cs [] ex, h)).2 in
  let o := length (instances h) in
  outcome (length cs) cfg = Some (Fulfilled (VObj o)) ∧
  queue cfg.1 = [] ∧ exhausted cfg.1 = ex ∧
  instances cfg.2 = instances h ++ [mkInstance c [] (Some ty) [(p, VObj o)]] ∧
  (∃ r, factoryLog cfg.2 = factoryLog h ++ [(r, [])]).
Proof.
  destruct h as [defs0 rsym dreg oreg cregs arrs recs insts flog plog].
  intros Ht Hd Hsh Hrd Hwf. unfold noDangling in Hwf.
  cbn [defs defRegistry objRegistry resolvedSym arrays instances factoryLog]
    in Ht, Hd, Hrd, Hwf.
  assert (Hlt : d < length defs0) by (by eapply lookup_lt_Some).
  fresh_addresses Hwf defs0.
  intros cfg.
  destruct sh as [[|]|]; try discriminate Hsh.
  all: eassert (Hcfg : cfg = _)
    by (subst cfg; unfold DependencyManager_get, bootstrapResolvers;
        rewrite run_call; run_all; reflexivity).
  all: clearbody cfg; subst cfg.
  all: cbv zeta; unfold outcome, result.
  all: cbn [fst snd cells queue exhausted factoryLog instances].
  all: norm_store.
  all: repeat split; try done; by eexists.
Qed.

Lemma self_property_is_the_instance_witness :
  let h := bound "node" (toClass "node" "Node" None (Some [("self", Some (DRef "node"))]))
             emptyHeap in
  let cfg := run 40 (call (DependencyManager_get bootstrapResolvers 32 "node")
                       (mkSched [] [] false, h)).2 in
  let o := length (instances h) in
  outcome 0 cfg = Some (Fulfilled (VObj o)) ∧
  queue cfg.1 = [] ∧ exhausted cfg.1 = false ∧
  instances cfg.2
  = instances h ++ [mkInstance "Node" [] (Some "node") [("self", VObj o)]] ∧
  (∃ r, factoryLog cfg.2 = factoryLog h ++ [(r, [])]).
Proof.
  intros h.
  apply (self_property_is_the_instance 29 h [] false "node" "node" 0 None "Node"
           "self").
  1-4: vm_compute; reflexivity.
  intros d Hd. split; vm_compute; reflexivity.
Defined.

(** X13: a shared class that names itself as a constructor argument.  The
    nested request is answered with the shared future, which is set only
    after the factory has run, and the factory waits for its arguments: the
    request is never settled.  Nothing is left to run, no error is raised,
    the factory is not invoked and no instance is made. *)
Theorem self_argument_never_settles fuel (h : Heap) (cs : list Cell)
    (ex : bool) (t ty : TypeToken) (d : addr) sh f props :
  defRegistry h !! t = Some d →
  defs h !! d = Some (DType ty sh (Some f) (Some [Some (Some (DRef t))]) props) →
  default true sh = true →
  resolvedSym h !! d = None →
  noDangling h →
  let cfg := run 40 (call (DependencyManager_get bootstrapResolvers
                             (S (S (S fuel))) t)
                       (mkSched cs [] ex, h)).2 in
  outcome (length cs) cfg = None ∧
  queue cfg.1 = [] ∧ exhausted cfg.1 = ex ∧
  instances cfg.2 = instances h ∧
  factoryLog cfg.2 = factoryLog h.
Proof.
  destruct h as [defs0 rsym dreg oreg cregs arrs recs insts flog plog].
  intros Ht Hd Hsh Hrd Hwf. unfold noDangling in Hwf.
  cbn [defs defRegistry objRegistry resolvedSym arrays instances factoryLog]
    in Ht, Hd, Hrd, Hwf.
  assert (Hlt : d < length defs0) by (by eapply lookup_lt_Some).
  fresh_addresses Hwf defs0.
  intros cfg.
  destruct sh as [[|]|]; try discriminate Hsh.
  all: eassert (Hcfg : cfg = _)
    by (subst cfg; unfold DependencyManager_get, bootstrapResolvers;
        rewrite run_call; run_all; reflexivity).
  all: clearbody cfg; subst cfg.
  all: cbv zeta; unfold outcome, result.
  all: cbn [fst snd cells queue exhausted factoryLog instances].
  all: norm_store.
  all: repeat split; done.
Qed.

Lemma self_argument_never_settles_witness :
  let h := bound "node" (toClass "node" "Node" (Some [Some (Some (DRef "node"))]) None)
             emptyHeap in
  let cfg := run 40 (call (DependencyManager_get bootstrapResolvers 32 "node")
                       (mkSched [] [] false, h)).2 in
  outcome 0 cfg = None ∧
  queue cfg.1 = [] ∧ exhausted cfg.1 = false ∧
  instances cfg.2 = instances h ∧
  factoryLog cfg.2 = factoryLog h.
Proof.
  intros h.
  apply (self_argument_never_settles 29 h [] false "node" "node" 0 None
           (Construct "Node") None).
  1-4: vm_compute; reflexivity.
  intros d Hd. split; vm_compute; reflexivity.
Defined.

(** *** A tag and the class it collects *)

(** X14: a shared class collected by a tag (the array that [tag] fills
    holds the definition object of the class).  [dm.get(tag)] resolves to an
    array with one instance of the class; [dm.get] of the class afterwards
    resolves to that same instance: the factory runs once for both. *)
Theorem tagged_class_shares_its_instance fuel fuel' (h : Heap)
    (cs : list Cell) (ex : bool) (t g ty : TypeToken) (d a : addr) sh c :
  defRegistry h !! t = Some d →
  defRegistry h !! g = Some a →
  defs h !! d = Some (DType ty sh (Some (Construct c)) None None) →
  defs h !! a = Some (DArray (Some [Some (Some (DDef d))])) →
  default true sh = true →
  resolvedSym h !! d = None → resolvedSym h !! a = None →
  noDangling h →
  let first := run 40 (call (DependencyManager_get bootstrapResolvers
                               (S (S (S fuel))) g)
                         (mkSched cs [] ex, h)).2 in
  let second := run 40 (call (DependencyManager_get bootstrapResolvers
                                (S fuel') t) first).2 in
  let o := VObj (length (instances h)) in
  outcome (length cs) first = Some (Fulfilled (VArr (length (arrays h)))) ∧
  arrays first.2 !! length (arrays h) = Some [Some o] ∧
  queue first.1 = [] ∧
  outcome (length (cells first.1)) second = Some (Fulfilled o) ∧
  queue second.1 = [] ∧ exhausted second.1 = ex ∧
  instances second.2 = instances h ++ [mkInstance c [] (Some ty) []] ∧
  length (factoryLog second.2) = length (factoryLog h) + 1.
Proof.
  destruct h as [defs0 rsym dreg oreg cregs arrs recs insts flog plog].
  intros Ht Hg Hd Ha Hsh Hrd Hra Hwf. unfold noDangling in Hwf.
  cbn [defs defRegistry objRegistry resolvedSym arrays instances factoryLog]
    in Ht, Hg, Hd, Ha, Hrd, Hra, Hwf.
  assert (Hlt : d < length defs0) by (by eapply lookup_lt_Some).
  assert (Hlt' : a < length defs0) by (by eapply lookup_lt_Some).
  assert (Hda : d ≠ a) by congruence.
  fresh_addresses Hwf defs0.
  destruct sh as [[|]|]; try discriminate Hsh.
  all: intros first.
  all: eassert (Hfirst : first = _)
    by (subst first; unfold DependencyManager_get, bootstrapResolvers;
        rewrite run_call; run_all; reflexivity).
  all: clearbody first; subst first.
  all: intros second.
  all: eassert (Hsecond : second = _)
    by (subst second; unfold DependencyManager_get, bootstrapResolvers;
        rewrite run_call; run_all; reflexivity).
  all: clearbody second; subst second.
  all: cbv zeta; unfold outcome, result.
  all: cbn [fst snd cells queue exhausted factoryLog instances arrays].
  all: norm_store; rewrite ?length_app; cbn [length].
  all: repeat split; try done; lia.
Qed.

Lemma tagged_class_shares_its_instance_witness :
  let h := bound "plugins" (makeArray [Some (Some (DDef 0))]) heapFoo in
  let first := run 40 (call (DependencyManager_get bootstrapResolvers 32 "plugins")
                         (mkSched [] [] false, h)).2 in
  let second := run 40 (call (DependencyManager_get bootstrapResolvers 32 "foo")
                          first).2 in
  let o := VObj (length (instances h)) in
  outcome 0 first = Some (Fulfilled (VArr (length (arrays h)))) ∧
  arrays first.2 !! length (arrays h) = Some [Some o] ∧
  queue first.1 = [] ∧
  outcome (length (cells first.1)) second = Some (Fulfilled o) ∧
  queue second.1 = [] ∧ exhausted second.1 = false ∧
  instances second.2 = instances h ++ [mkInstance "Foo" [] (Some "foo") []] ∧
  length (factoryLog second.2) = length (factoryLog h) + 1.
Proof.
  intros h.
  apply (tagged_class_shares_its_instance 29 31 h [] false "foo" "plugins" "foo"
           0 1 None "Foo").
  1-7: vm_compute; reflexivity.
  intros d Hd. split; vm_compute; reflexivity.
Defined.

(** *** Writes of the elements, in any order *)

Lemma arraySet_length l i v :
  length (arraySet l i v) = length l `max` S i.
Proof.
  unfold arraySet. case_decide.
  - rewrite length_insert. lia.
  - rewrite !length_app, length_replicate. cbn [length]. lia.
Qed.

Lemma arraySet_lookup l i v k :
  arraySet l i v !! k
  = if decide (k = i) then Some (Some v)
    else if decide (k < length l) then l !! k
    else if decide (k < i) then Some None else None.
Proof.
  unfold arraySet. destruct (decide (i < length l)) as [Hi | Hi].
  - destruct (decide (k = i)) as [-> | Hk].
    + by rewrite list_lookup_insert_eq.
    + rewrite list_lookup_insert_ne by done.
      destruct (decide (k < length l)); [done |].
      rewrite lookup_ge_None_2 by lia. by rewrite decide_False by lia.
  - destruct (decide (k < length l)) as [Hk | Hk].
    + rewrite lookup_app_l by done. by rewrite decide_False by lia.
    + rewrite lookup_app_r by lia.
      destruct (decide (k < i)) as [Hki | Hki].
      * rewrite decide_False by lia.
        rewrite lookup_app_l by (rewrite length_replicate; lia).
        by rewrite lookup_replicate_2 by lia.
      * rewrite lookup_app_r by (rewrite length_replicate; lia).
        rewrite length_replicate.
        destruct (decide (k = i)) as [-> | Hne].
        -- by replace (i - length l - (i - length l)) with 0 by lia.
        -- destruct (k - length l - (i - length l)) as [| m] eqn:Hm; [lia | done].
Qed.

Lemma arraySet_comm l i j v w :
  i ≠ j → arraySet (arraySet l i v) j w = arraySet (arraySet l j w) i v.
Proof.
  intros Hij. apply list_eq. intros k.
  rewrite !arraySet_lookup, !arraySet_length.
  repeat case_decide; try done; try lia.
  all: try (rewrite lookup_ge_None_2 by lia); try done.
  all: try (symmetry; apply lookup_ge_None_2; lia).
Qed.

Lemma arrayGet_arraySet l i v k :
  arrayGet (arraySet l i v) k = if decide (k = i) then v else arrayGet l k.
Proof.
  unfold arrayGet. rewrite arraySet_lookup.
  repeat case_decide; try done.
  all: by rewrite lookup_ge_None_2 by lia.
Qed.

(** One write. *)
Lemma exec_setElement own elems i v σ h a :
  arrays h !! elems = Some a →
  exec own (setElement elems i v) σ h
  = (settle own (Fulfilled VUndef) σ,
     set_arrays <[elems := arraySet a i v]> h).
Proof.
  intros Ha. unfold setElement, modify. cbn [exec thenable].
  destruct h. cbn in *. rewrite set_arrays_mk. by rewrite Ha.
Qed.

(** What a sequence of writes leaves in the store. *)
Lemma elementWrites_heap elems ws : ∀ σ h a,
  arrays h !! elems = Some a →
  (elementWrites elems ws (σ, h)).2
  = set_arrays <[elems := foldl (λ a w, arraySet a w.2.1 w.2.2) a ws]> h.
Proof.
  induction ws as [| [own [i v]] ws IH]; intros σ h a Ha.
  - destruct h. cbn in *. unfold set_arrays. cbn. f_equal.
    symmetry. by apply list_insert_id.
  - unfold elementWrites in *. cbn [foldl fst snd].
    rewrite (exec_setElement _ _ _ _ _ _ a) by done.
    destruct h as [defs0 rsym dreg oreg cregs arrs recs insts flog plog].
    cbn [arrays] in Ha. rewrite set_arrays_mk.
    erewrite IH.
    + rewrite !set_arrays_mk. f_equal. apply list_insert_insert_eq.
    + cbn. apply list_lookup_insert_eq. by eapply lookup_lt_Some.
Qed.

Lemma arrayWrites_frame (ws : list (addr * (nat * val))) k : ∀ a,
  k ∉ map (λ w, w.2.1) ws →
  arrayGet (foldl (λ a w, arraySet a w.2.1 w.2.2) a ws) k = arrayGet a k.
Proof.
  induction ws as [| w ws IH]; intros a Hk; [done |].
  cbn [map] in Hk. apply not_elem_of_cons in Hk as [Hne Hk].
  cbn [foldl]. rewrite IH by done. rewrite arrayGet_arraySet.
  by rewrite decide_False.
Qed.

Lemma arrayWrites_written (ws : list (addr * (nat * val))) own i v : ∀ a,
  NoDup (map (λ w, w.2.1) ws) →
  (own, (i, v)) ∈ ws →
  arrayGet (foldl (λ a w, arraySet a w.2.1 w.2.2) a ws) i = v.
Proof.
  induction ws as [| w ws IH]; intros a Hnd Hin.
  - by apply elem_of_nil in Hin.
  - cbn [map] in Hnd. apply NoDup_cons in Hnd as [Hfresh Hnd].
    apply elem_of_cons in Hin as [<- | Hin].
    + cbn [foldl fst snd]. cbn [fst snd] in Hfresh.
      rewrite arrayWrites_frame by done.
      rewrite arrayGet_arraySet. by rewrite decide_True.
    + cbn [foldl]. by apply IH.
Qed.

Lemma arrayWrites_perm (ws ws' : list (addr * (nat * val))) :
  ws ≡ₚ ws' →
  NoDup (map (λ w, w.2.1) ws) →
  ∀ a, foldl (λ a w, arraySet a w.2.1 w.2.2) a ws
       = foldl (λ a w, arraySet a w.2.1 w.2.2) a ws'.
Proof.
  induction 1 as [| w ws ws' Hp IH | w1 w2 ws | ws1 ws2 ws3 Hp1 IH1 Hp2 IH2];
    intros Hnd a.
  - done.
  - cbn [map] in Hnd. apply NoDup_cons in Hnd as [_ Hnd].
    cbn [foldl]. by apply IH.
  - cbn [map] in Hnd. apply NoDup_cons in Hnd as [Hne _].
    apply not_elem_of_cons in Hne as [Hne _].
    cbn [foldl]. by rewrite arraySet_comm.
  - rewrite IH1 by done. apply IH2.
    change (NoDup ((λ w : addr * (nat * val), w.2.1) <$> ws2)).
    by rewrite <- Hp1.
Qed.

(** X15: the array that the callbacks of [getArray] fill does not depend on
    the order in which the elements settle.  Each callback writes the index
    it was given: when the indices are pairwise distinct, any two orders of
    the same writes leave the same store, every index written holds its
    value, and every other index reads what it read before. *)
Theorem element_writes_in_any_order (elems : addr)
    (ws ws' : list (addr * (nat * val))) (σ σ' : Sched) (h : Heap)
    (a : list (option val)) :
  arrays h !! elems = Some a →
  NoDup (map (λ w, w.2.1) ws) →
  ws ≡ₚ ws' →
  (elementWrites elems ws (σ, h)).2 = (elementWrites elems ws' (σ', h)).2 ∧
  ∃ a', arrays (elementWrites elems ws (σ, h)).2 !! elems = Some a' ∧
        (∀ own i v, (own, (i, v)) ∈ ws → arrayGet a' i = v) ∧
        (∀ k, k ∉ map (λ w, w.2.1) ws → arrayGet a' k = arrayGet a k).
Proof.
  intros Ha Hnd Hperm.
  rewrite !(elementWrites_heap _ _ _ _ a) by done.
  split.
  - by rewrite (arrayWrites_perm ws ws').
  - eexists. split; [| split].
    + destruct h. cbn in *. apply list_lookup_insert_eq.
      by eapply lookup_lt_Some.
    + intros own i v Hin. by eapply arrayWrites_written.
    + intros k Hk. by apply arrayWrites_frame.
Qed.

Lemma element_writes_in_any_order_witness :
  let h := set_arrays (λ _, [[]]) emptyHeap in
  let ws := [(0, (2, VStr "c")); (1, (0, VStr "a"))] in
  let ws' := [(1, (0, VStr "a")); (0, (2, VStr "c"))] in
  (elementWrites 0 ws (emptySched, h)).2 = (elementWrites 0 ws' (emptySched, h)).2 ∧
  ∃ a', arrays (elementWrites 0 ws (emptySched, h)).2 !! 0 = Some a' ∧
        (∀ own i v, (own, (i, v)) ∈ ws → arrayGet a' i = v) ∧
        (∀ k, k ∉ map (λ w, w.2.1) ws → arrayGet a' k = arrayGet [] k).
Proof.
  intros h ws ws'.
  apply (element_writes_in_any_order 0 ws ws' emptySched emptySched h []).
  - reflexivity.
  - apply (bool_decide_unpack _). vm_compute. exact I.
  - apply Permutation_swap.
Defined.

Lemma recordSet_fresh (l : list (string * val)) key v :
  key ∉ l.*1 → recordSet l key v = l ++ [(key, v)].
Proof.
  induction l as [| [k' v'] l IH]; intros Hk; [done |].
  cbn [fmap list_fmap fst] in Hk. apply not_elem_of_cons in Hk as [Hne Hk].
  cbn [recordSet]. rewrite decide_False by done. cbn [app]. f_equal.
  by apply IH.
Qed.

Lemma exec_setProperty own elems key v σ h o :
  records h !! elems = Some o →
  exec own (setProperty elems key v) σ h
  = (settle own (Fulfilled VUndef) σ,
     set_records <[elems := recordSet o key v]> h).
Proof.
  intros Ho. unfold setProperty, modify. cbn [exec thenable].
  destruct h. cbn in *. rewrite set_records_mk. by rewrite Ho.
Qed.

Lemma propertyWrites_heap elems ws : ∀ σ h o,
  records h !! elems = Some o →
  (propertyWrites elems ws (σ, h)).2
  = set_records <[elems := foldl (λ o w, recordSet o w.2.1 w.2.2) o ws]> h.
Proof.
  induction ws as [| [own [key v]] ws IH]; intros σ h o Ho.
  - destruct h. cbn in *. unfold set_records. cbn. f_equal.
    symmetry. by apply list_insert_id.
  - unfold propertyWrites in *. cbn [foldl fst snd].
    rewrite (exec_setProperty _ _ _ _ _ _ o) by done.
    destruct h as [defs0 rsym dreg oreg cregs arrs recs insts flog plog].
    cbn [records] in Ho. rewrite set_records_mk.
    erewrite IH.
    + rewrite !set_records_mk. f_equal. apply list_insert_insert_eq.
    + cbn. apply list_lookup_insert_eq. by eapply lookup_lt_Some.
Qed.

Lemma recordWrites_fresh (ws : list (addr * (string * val))) : ∀ o,
  NoDup (o.*1 ++ map (λ w, w.2.1) ws) →
  foldl (λ o w, recordSet o w.2.1 w.2.2) o ws = o ++ map snd ws.
Proof.
  induction ws as [| [own [key v]] ws IH]; intros o Hnd.
  - by rewrite app_nil_r.
  - cbn [foldl map fst snd] in *.
    assert (Hfresh : key ∉ o.*1).
    { apply NoDup_app in Hnd as (_ & Hdisj & _).
      intros Hin. apply (Hdisj _ Hin). by left. }
    rewrite recordSet_fresh by done.
    rewrite IH.
    + by rewrite <- app_assoc.
    + rewrite fmap_app. cbn [fmap list_fmap fst]. rewrite <- app_assoc.
      exact Hnd.
Qed.

Lemma recordGet_perm (l l' : list (string * val)) key :
  l ≡ₚ l' → NoDup l.*1 → recordGet l key = recordGet l' key.
Proof.
  induction 1 as [| [k v] l l' Hp IH | [k1 v1] [k2 v2] l
                  | l1 l2 l3 Hp1 IH1 Hp2 IH2]; intros Hnd.
  - done.
  - cbn [fmap list_fmap fst] in Hnd. apply NoDup_cons in Hnd as [_ Hnd].
    cbn [recordGet]. case_decide; [done |]. by apply IH.
  - cbn [fmap list_fmap fst] in Hnd. apply NoDup_cons in Hnd as [Hne _].
    apply not_elem_of_cons in Hne as [Hne _].
    cbn [recordGet]. repeat case_decide; try done. congruence.
  - rewrite IH1 by done. apply IH2. by rewrite <- Hp1.
Qed.



(** ** Properties of the bindings *)

Lemma slotSet_length l i v : length (slotSet l i v) = length l `max` S i.
Proof.
  unfold slotSet, slot in *. case_decide.
  - rewrite length_insert. lia.
  - rewrite !length_app, length_replicate. cbn [length]. lia.
Qed.

Lemma slotSet_lookup l i v k :
  slotSet l i v !! k
  = if decide (k = i) then Some (Some v)
    else if decide (k < length l) then l !! k
    else if decide (k < i) then Some None else None.
Proof.
  unfold slotSet, slot in *. destruct (decide (i < length l)) as [Hi | Hi].
  - destruct (decide (k = i)) as [-> | Hk].
    + by rewrite list_lookup_insert_eq.
    + rewrite list_lookup_insert_ne by done.
      destruct (decide (k < length l)); [done |].
      rewrite lookup_ge_None_2 by lia. by rewrite decide_False by lia.
  - destruct (decide (k < length l)) as [Hk | Hk].
    + rewrite lookup_app_l by done. by rewrite decide_False by lia.
    + rewrite lookup_app_r by lia.
      destruct (decide (k < i)) as [Hki | Hki].
      * rewrite decide_False by lia.
        rewrite lookup_app_l by (rewrite length_replicate; lia).
        by rewrite lookup_replicate_2 by lia.
      * rewrite lookup_app_r by (rewrite length_replicate; lia).
        rewrite length_replicate.
        destruct (decide (k = i)) as [-> | Hne].
        -- by replace (i - length l - (i - length l)) with 0 by lia.
        -- destruct (k - length l - (i - length l)) as [| m] eqn:Hm; [lia | done].
Qed.

(** The loop of [withArguments] and [withElements] after [m] turns. *)
Ltac slia := unfold slot in *; lia.

Lemma assignSlots_turns (args elems : list slot) (m : nat) :
  let r := foldl (λ elems index, assignSlot (slotGet args index) elems index)
                 elems (seq 0 m) in
  length r = length elems `max` m ∧
  (∀ i, i < m →
     r !! i = Some (Some (orElse (BaseBining_definition (slotGet args i))
                                 (slotGet elems i)))) ∧
  (∀ i, m ≤ i → r !! i = elems !! i).
Proof.
  induction m as [| m IH]; cbv zeta.
  - cbn [seq foldl]. split; [slia |]. split; [intros i Hi; slia | done].
  - rewrite seq_S, foldl_app. cbn [foldl Nat.add].
    destruct IH as (Hlen & Hlow & Hhigh).
    set (r := foldl _ elems (seq 0 m)) in *.
    unfold assignSlot.
    assert (Hold : slotGet r m = slotGet elems m).
    { unfold slotGet. by rewrite Hhigh. }
    rewrite Hold. split; [| split].
    + rewrite slotSet_length. slia.
    + intros i Hi. rewrite slotSet_lookup.
      destruct (decide (i = m)) as [-> | Hne]; [done |].
      rewrite decide_True by slia. apply Hlow. slia.
    + intros i Hi. rewrite slotSet_lookup.
      rewrite decide_False by slia.
      destruct (decide (i < length r)) as [Hlt | Hge].
      * apply Hhigh. slia.
      * rewrite decide_False by slia. symmetry. apply lookup_ge_None_2. slia.
Qed.

(** X17: [withArguments(value)] on a binding overrides the arguments by
    position.  For every index below the length of [value] the argument
    becomes what [value] holds there, unless that is [undefined], a hole or
    the empty string: then the argument configured before stays.  Arguments
    at higher indices stay as they are.  No index below the length of
    [value] is left a hole, and the list of arguments never gets shorter.
    The other fields of the definition are not changed. *)
Theorem withArguments_overrides_by_position (value : list slot) (def : addr)
    (b : Bindings) (o : DefObject) :
  objects b !! def = Some o →
  ∃ b' args',
    TypeBinding_withArguments value def b = Some b' ∧
    bindings b' = bindings b ∧
    objects b' = <[def := set_args args' o]> (objects b) ∧
    length args' = length (TypeBinding_args o) `max` length value ∧
    (∀ i, i < length value →
       args' !! i
       = Some (Some (orElse (BaseBining_definition (slotGet value i))
                            (slotGet (TypeBinding_args o) i)))) ∧
    (∀ i, length value ≤ i → args' !! i = TypeBinding_args o !! i).
Proof.
  intros Ho. unfold TypeBinding_withArguments, update. rewrite Ho. cbn.
  eexists _, _. split; [reflexivity |]. split; [done |]. split; [done |].
  apply (assignSlots_turns value (TypeBinding_args o) (length value)).
Qed.

Lemma withArguments_overrides_by_position_witness :
  let b := mkBindings
             [objectOf (toClass "foo" "Foo" (Some [Some (Some (DRef "a")); None;
                                                  Some (Some (DRef "c"))]) None)]
             {[ "foo" := 0 ]} in
  let value := [Some None; Some (Some (DRef "b"))] in
  let o := objectOf (toClass "foo" "Foo" (Some [Some (Some (DRef "a")); None;
                                               Some (Some (DRef "c"))]) None) in
  ∃ b' args',
    TypeBinding_withArguments value 0 b = Some b' ∧
    bindings b' = bindings b ∧
    objects b' = <[0 := set_args args' o]> (objects b) ∧
    length args' = length (TypeBinding_args o) `max` length value ∧
    (∀ i, i < length value →
       args' !! i
       = Some (Some (orElse (BaseBining_definition (slotGet value i))
                            (slotGet (TypeBinding_args o) i)))) ∧
    (∀ i, length value ≤ i → args' !! i = TypeBinding_args o !! i).
Proof.
  intros b value o.
  apply (withArguments_overrides_by_position value 0 b o).
  reflexivity.
Defined.

(** *** [toArray], [toRecord] and [withProperty] *)

(** The loop of [toArray] after [m] turns. *)
Lemma copySlots_turns (arr : list slot) (m : nat) :
  let r := foldl (λ elems index,
                    slotSet elems index
                      (BaseBining_definition (slotGet arr index)))
                 [] (seq 0 m) in
  length r = m ∧
  ∀ i, i < m → r !! i = Some (Some (BaseBining_definition (slotGet arr i))).
Proof.
  induction m as [| m IH]; cbv zeta.
  - cbn [seq foldl]. split; [done | intros i Hi; lia].
  - rewrite seq_S, foldl_app. cbn [foldl Nat.add].
    destruct IH as (Hlen & Hlow).
    set (r := foldl _ [] (seq 0 m)) in *.
    split.
    + rewrite slotSet_length. slia.
    + intros i Hi. rewrite slotSet_lookup.
      destruct (decide (i = m)) as [-> | Hne]; [done |].
      rewrite decide_True by slia. apply Hlow. lia.
Qed.

(** X18: [toArray(arr)] replaces the elements of the definition by a dense
    copy of [arr]: as long as [arr], without holes, with at every index the
    dependency [arr] holds there and an explicit [undefined] where [arr] has
    a hole, [undefined] or the empty string.  The engine reads the
    definition as this array, whatever it was bound to before. *)
Theorem toArray_copies_densely (arr : list slot) (def : addr) (b : Bindings)
    (o : DefObject) :
  objects b !! def = Some o →
  ∃ b' elems,
    Binding_toArray (Some arr) def b = Some b' ∧
    bindings b' = bindings b ∧
    (∃ o', objects b' = <[def := o']> (objects b) ∧
           view o' = Some (makeArray elems)) ∧
    length elems = length arr ∧
    ∀ i, i < length arr →
      elems !! i = Some (Some (BaseBining_definition (slotGet arr i))).
Proof.
  intros Ho. unfold Binding_toArray, update. rewrite Ho. cbn.
  eexists _, _. split; [reflexivity |]. split; [done |].
  split; [eexists; split; [reflexivity | done] |].
  apply (copySlots_turns arr (length arr)).
Qed.

Lemma toArray_copies_densely_witness :
  let o := objectOf (makeValue (VStr "x")) in
  let b := mkBindings [o] {[ "list" := 0 ]} in
  let arr := [Some (Some (DRef "a")); None; Some (Some (DRef ""))] in
  ∃ b' elems,
    Binding_toArray (Some arr) 0 b = Some b' ∧
    bindings b' = bindings b ∧
    (∃ o', objects b' = <[0 := o']> (objects b) ∧
           view o' = Some (makeArray elems)) ∧
    length elems = length arr ∧
    ∀ i, i < length arr →
      elems !! i = Some (Some (BaseBining_definition (slotGet arr i))).
Proof.
  intros o b arr.
  apply (toArray_copies_densely arr 0 b o).
  reflexivity.
Defined.

Lemma fieldSet_fresh (l : list (string * option Dependency)) key v :
  key ∉ l.*1 → fieldSet l key v = l ++ [(key, v)].
Proof.
  induction l as [| [k' v'] l IH]; intros Hk; [done |].
  cbn [fmap list_fmap fst] in Hk. apply not_elem_of_cons in Hk as [Hne Hk].
  cbn [fieldSet]. rewrite decide_False by done. cbn [app]. f_equal.
  by apply IH.
Qed.

Lemma fieldGet_fieldSet (l : list (string * option Dependency)) key v key' :
  fieldGet (fieldSet l key v) key'
  = if decide (key' = key) then v else fieldGet l key'.
Proof.
  induction l as [| [k0 v0] l IH]; cbn [fieldSet fieldGet].
  - repeat case_decide; congruence.
  - destruct (decide (k0 = key)) as [-> | Hne]; cbn [fieldGet].
    + repeat case_decide; congruence.
    + rewrite IH. repeat case_decide; congruence.
Qed.

Lemma fieldSet_keys (l : list (string * option Dependency)) key v :
  (fieldSet l key v).*1 = if decide (key ∈ l.*1) then l.*1 else l.*1 ++ [key].
Proof.
  induction l as [| [k0 v0] l IH]; cbn [fieldSet fmap list_fmap fst].
  - rewrite decide_False by apply not_elem_of_nil. done.
  - destruct (decide (k0 = key)) as [-> | Hne]; cbn [fmap list_fmap fst].
    + rewrite decide_True by (by left). done.
    + fold (fmap (M:=list) (@fst string (option Dependency))).
      rewrite IH. destruct (decide (key ∈ l.*1)) as [Hin | Hin].
      * rewrite decide_True by (by right). done.
      * rewrite decide_False; [done |].
        intros [? | ?]%elem_of_cons; congruence.
Qed.



(** *** [withProperties] and [toRecord] *)

Lemma fieldGet_NoDup (l : list (string * option Dependency)) key v :
  NoDup l.*1 → (key, v) ∈ l → fieldGet l key = v.
Proof.
  induction l as [| [k0 v0] l IH]; intros Hnd Hin.
  - by apply elem_of_nil in Hin.
  - cbn [fmap list_fmap fst] in Hnd. apply NoDup_cons in Hnd as [Hfresh Hnd].
    cbn [fieldGet]. apply elem_of_cons in Hin as [[= -> ->] | Hin].
    + by rewrite decide_True.
    + rewrite decide_False; [by apply IH |].
      intros ->. apply Hfresh.
      apply list_elem_of_fmap. by exists (key, v).
Qed.

(** The loop of [withProperties] over the keys [l] of [value]. *)
Lemma assignFields_turns (value l : list (string * option Dependency)) :
  NoDup l.*1 →
  ∀ fields key,
    fieldGet (foldl (λ fields kv, assignField fields kv.1 (fieldGet value kv.1))
                    fields l) key
    = if decide (key ∈ l.*1)
      then orElse (BaseBining_definition (fieldGet value key))
                  (fieldGet fields key)
      else fieldGet fields key.
Proof.
  induction l as [| [k0 v0] l IH]; intros Hnd fields key.
  - cbn. by rewrite decide_False by apply not_elem_of_nil.
  - cbn [fmap list_fmap fst] in Hnd. apply NoDup_cons in Hnd as [Hfresh Hnd].
    cbn [foldl fst snd fmap list_fmap]. rewrite IH by done.
    unfold assignField. rewrite fieldGet_fieldSet.
    destruct (decide (key = k0)) as [-> | Hne].
    + rewrite decide_False by done. by rewrite decide_True by (by left).
    + destruct (decide (key ∈ l.*1)) as [Hin | Hin].
      * by rewrite decide_True by (by right).
      * rewrite decide_False; [done |].
        intros [? | ?]%elem_of_cons; congruence.
Qed.

(** X20: [withProperties(value)] goes through the keys of [value]: each of
    them becomes what [value] holds for it, unless that is [undefined] or
    the empty string, in which case the property configured before stays;
    the properties under other keys are not changed, and no other field of
    the definition is. *)
Theorem withProperties_overrides_by_key
    (value : list (string * option Dependency)) (def : addr) (b : Bindings)
    (o : DefObject) :
  objects b !! def = Some o →
  NoDup value.*1 →
  ∃ b' props',
    TypeBinding_withProperties value def b = Some b' ∧
    bindings b' = bindings b ∧
    objects b' = <[def := set_props props' o]> (objects b) ∧
    ∀ key,
      fieldGet props' key
      = if decide (key ∈ value.*1)
        then orElse (BaseBining_definition (fieldGet value key))
                    (fieldGet (TypeBinding_props o) key)
        else fieldGet (TypeBinding_props o) key.
Proof.
  intros Ho Hnd. unfold TypeBinding_withProperties, update. rewrite Ho. cbn.
  eexists _, _. split; [reflexivity |]. split; [done |]. split; [done |].
  intros key. by apply assignFields_turns.
Qed.

Lemma withProperties_overrides_by_key_witness :
  let o := objectOf (toClass "foo" "Foo" None (Some [("a", Some (DRef "A"))])) in
  let b := mkBindings [o] {[ "foo" := 0 ]} in
  let value := [("b", Some (DRef "B")); ("a", None)] in
  ∃ b' props',
    TypeBinding_withProperties value 0 b = Some b' ∧
    bindings b' = bindings b ∧
    objects b' = <[0 := set_props props' o]> (objects b) ∧
    ∀ key,
      fieldGet props' key
      = if decide (key ∈ value.*1)
        then orElse (BaseBining_definition (fieldGet value key))
                    (fieldGet (TypeBinding_props o) key)
        else fieldGet (TypeBinding_props o) key.
Proof.
  intros o b value.
  apply (withProperties_overrides_by_key value 0 b o).
  - reflexivity.
  - apply (bool_decide_unpack _). vm_compute. exact I.
Defined.

(** The loop of [toRecord] over the keys [l] of [rec]. *)
Lemma copyFields_turns (rec l : list (string * option Dependency)) :
  ∀ elems,
    NoDup (elems.*1 ++ l.*1) →
    (∀ kv, kv ∈ l → fieldGet rec kv.1 = kv.2) →
    foldl (λ elems kv,
             fieldSet elems kv.1 (BaseBining_definition (fieldGet rec kv.1)))
          elems l
    = elems ++ map (λ kv, (kv.1, BaseBining_definition kv.2)) l.
Proof.
  induction l as [| [k0 v0] l IH]; intros elems Hnd Hget.
  - cbn. by rewrite app_nil_r.
  - cbn [foldl map fst snd].
    assert (Hfresh : k0 ∉ elems.*1).
    { apply NoDup_app in Hnd as (_ & Hdisj & _).
      intros Hin. apply (Hdisj _ Hin). by left. }
    rewrite fieldSet_fresh by done.
    assert (Hk0 : fieldGet rec k0 = v0) by (apply (Hget (k0, v0)); by left).
    rewrite Hk0.
    rewrite IH.
    + by rewrite <- app_assoc.
    + rewrite fmap_app. cbn [fmap list_fmap fst]. rewrite <- app_assoc.
      exact Hnd.
    + intros kv Hkv. apply Hget. by right.
Qed.

(** X21: [toRecord(rec)] replaces the elements of the definition by a copy
    of [rec]: the same keys in the same order, each with the dependency
    [rec] holds for it, and [undefined] where [rec] holds [undefined] or the
    empty string.  The engine reads the definition as this record, whatever
    it was bound to before. *)
Theorem toRecord_copies_fields (rec : list (string * option Dependency))
    (def : addr) (b : Bindings) (o : DefObject) :
  objects b !! def = Some o →
  NoDup rec.*1 →
  ∃ b' o',
    Binding_toRecord (Some rec) def b = Some b' ∧
    bindings b' = bindings b ∧
    objects b' = <[def := o']> (objects b) ∧
    view o'
    = Some (makeRecord (map (λ kv, (kv.1, BaseBining_definition kv.2)) rec)).
Proof.
  intros Ho Hnd. unfold Binding_toRecord, update. rewrite Ho. cbn.
  eexists _, _. split; [reflexivity |]. split; [done |]. split; [done |].
  unfold view, copyFields. cbn.
  rewrite (copyFields_turns rec rec []); [done | done |].
  intros [k v] Hkv. by apply fieldGet_NoDup.
Qed.

Lemma toRecord_copies_fields_witness :
  let o := objectOf (makeType "options") in
  let b := mkBindings [o] {[ "options" := 0 ]} in
  let rec := [("log", Some (DRef "Logger")); ("cache", None)] in
  ∃ b' o',
    Binding_toRecord (Some rec) 0 b = Some b' ∧
    bindings b' = bindings b ∧
    objects b' = <[0 := o']> (objects b) ∧
    view o'
    = Some (makeRecord (map (λ kv, (kv.1, BaseBining_definition kv.2)) rec)).
Proof.
  intros o b rec.
  apply (toRecord_copies_fields rec 0 b o).
  - reflexivity.
  - apply (bool_decide_unpack _). vm_compute. exact I.
Defined.

(** *** [withElements] and [withFields] *)

(** X22: [withElements(args)] on a binding whose [elements] is an array (or
    is not set) overrides the elements by position, like [withArguments]
    does for the arguments: every index below the length of [args] becomes
    what [args] holds there, or keeps the element configured before when
    that is [undefined], a hole or the empty string; higher indices stay.
    The kind of the definition is not changed: on a binding that was not
    made an array with [toArray], the engine does not read the elements. *)
Theorem withElements_overrides_by_position (args : list slot) (def : addr)
    (b : Bindings) (o : DefObject) (elems : list slot) :
  objects b !! def = Some o →
  ArrayBinding_elements o = Some elems →
  ∃ b' elems',
    ArrayBinding_withElements args def b = Some b' ∧
    bindings b' = bindings b ∧
    objects b' = <[def := set_elements (EArray elems') o]> (objects b) ∧
    def_kind (set_elements (EArray elems') o) = def_kind o ∧
    (def_kind o ≠ KArray → def_kind o ≠ KRecord →
     view (set_elements (EArray elems') o) = view o) ∧
    length elems' = length elems `max` length args ∧
    (∀ i, i < length args →
       elems' !! i
       = Some (Some (orElse (BaseBining_definition (slotGet args i))
                            (slotGet elems i)))) ∧
    (∀ i, length args ≤ i → elems' !! i = elems !! i).
Proof.
  intros Ho He. unfold ArrayBinding_withElements, update. rewrite Ho. cbn.
  rewrite He. cbn.
  eexists _, _. split; [reflexivity |]. split; [done |]. split; [done |].
  split; [done |]. split.
  - intros Hka Hkr. unfold view. cbn. by destruct (def_kind o).
  - apply (assignSlots_turns args elems (length args)).
Qed.

Lemma withElements_overrides_by_position_witness :
  let o := objectOf (makeArray [Some (Some (DRef "a"))]) in
  let b := mkBindings [o] {[ "list" := 0 ]} in
  let args := [Some None; Some (Some (DRef "b"))] in
  ∃ b' elems',
    ArrayBinding_withElements args 0 b = Some b' ∧
    bindings b' = bindings b ∧
    objects b' = <[0 := set_elements (EArray elems') o]> (objects b) ∧
    def_kind (set_elements (EArray elems') o) = def_kind o ∧
    (def_kind o ≠ KArray → def_kind o ≠ KRecord →
     view (set_elements (EArray elems') o) = view o) ∧
    length elems' = length [Some (Some (DRef "a"))] `max` length args ∧
    (∀ i, i < length args →
       elems' !! i
       = Some (Some (orElse (BaseBining_definition (slotGet args i))
                            (slotGet [Some (Some (DRef "a"))] i)))) ∧
    (∀ i, length args ≤ i → elems' !! i = [Some (Some (DRef "a"))] !! i).
Proof.
  intros o b args.
  apply (withElements_overrides_by_position args 0 b o [Some (Some (DRef "a"))]).
  - reflexivity.
  - reflexivity.
Defined.

(** X23: [withFields(props)] on a binding whose [elements] is a plain
    object (or is not set) overrides the fields by key: each key of [props]
    becomes what [props] holds for it, or keeps the field configured before
    when that is [undefined] or the empty string; other keys stay.  The
    kind of the definition is not changed. *)
Theorem withFields_overrides_by_key
    (props : list (string * option Dependency)) (def : addr) (b : Bindings)
    (o : DefObject) (fields : list (string * option Dependency)) :
  objects b !! def = Some o →
  RecordBinding_fields o = Some fields →
  NoDup props.*1 →
  ∃ b' fields',
    RecordBinding_withFields props def b = Some b' ∧
    bindings b' = bindings b ∧
    objects b' = <[def := set_elements (ERecord fields') o]> (objects b) ∧
    def_kind (set_elements (ERecord fields') o) = def_kind o ∧
    ∀ key,
      fieldGet fields' key
      = if decide (key ∈ props.*1)
        then orElse (BaseBining_definition (fieldGet props key))
                    (fieldGet fields key)
        else fieldGet fields key.
Proof.
  intros Ho Hf Hnd. unfold RecordBinding_withFields, update. rewrite Ho. cbn.
  rewrite Hf. cbn.
  eexists _, _. split; [reflexivity |]. split; [done |]. split; [done |].
  split; [done |].
  intros key. by apply assignFields_turns.
Qed.

Lemma withFields_overrides_by_key_witness :
  let o := objectOf (makeRecord [("log", Some (DRef "Logger"))]) in
  let b := mkBindings [o] {[ "options" := 0 ]} in
  let props := [("log", None); ("cache", Some (DRef "Cache"))] in
  ∃ b' fields',
    RecordBinding_withFields props 0 b = Some b' ∧
    bindings b' = bindings b ∧
    objects b' = <[0 := set_elements (ERecord fields') o]> (objects b) ∧
    def_kind (set_elements (ERecord fields') o) = def_kind o ∧
    ∀ key,
      fieldGet fields' key
      = if decide (key ∈ props.*1)
        then orElse (BaseBining_definition (fieldGet props key))
                    (fieldGet [("log", Some (DRef "Logger"))] key)
        else fieldGet [("log", Some (DRef "Logger"))] key.
Proof.
  intros o b props.
  apply (withFields_overrides_by_key props 0 b o [("log", Some (DRef "Logger"))]).
  - reflexivity.
  - reflexivity.
  - apply (bool_decide_unpack _). vm_compute. exact I.
Defined.

Lemma chain_nil def b : chain [] def b = Some b.
Proof. reflexivity. Qed.

Lemma chain_cons m ms def b :
  chain (m :: ms) def b = m def b ≫= chain ms def.
Proof.
  unfold chain. cbn [foldl mbind option_bind].
  destruct (m def b) as [b1 |]; [done |].
  cbn. induction ms as [| m' ms IH]; [done | by cbn].
Qed.

Lemma chain_app ms ms' def b :
  chain (ms ++ ms') def b = chain ms def b ≫= chain ms' def.
Proof.
  revert b. induction ms as [| m ms IH]; intros b; [done |].
  cbn [app]. rewrite !chain_cons.
  destruct (m def b) as [b1 |]; [apply IH | done].
Qed.

(** A [to...] method changes the kind and the field it sets. *)
Lemma Rebinding_keeps m def b o :
  Rebinding m → objects b !! def = Some o →
  ∃ o', m def b = Some (mkBindings (<[def := o']> (objects b)) (bindings b)) ∧
        def_type o' = def_type o ∧ def_shared o' = def_shared o ∧
        def_args o' = def_args o ∧ def_props o' = def_props o.
Proof.
  intros [] Ho.
  all: unfold Binding_toClass, Binding_toArray, Binding_toRecord,
         Binding_toType, Binding_toValue, Binding_toFactory, update.
  all: rewrite Ho; cbn; eexists; split; [reflexivity | done].
Qed.

(** X24: the [to...] methods never reset what [shared], [withArgument(s)]
    and [withProperty(ies)] configured.  Whatever the binding was switched
    to in between (a value, an alias, an array, ...), once it is bound with
    [toClass] the engine reads a class definition with the sharing flag, the
    arguments and the properties the definition object had before; so
    arguments given before [toClass] count, and a binding switched to a
    value and back to a class has its old arguments again. *)
Theorem rebinding_keeps_configuration
    (ms : list (addr → Bindings → option Bindings)) (ctor : string)
    (def : addr) (b : Bindings) (o : DefObject) (t : TypeToken) :
  objects b !! def = Some o →
  def_type o = Some t →
  Forall Rebinding ms →
  ∃ b' o',
    chain (ms ++ [Binding_toClass ctor]) def b = Some b' ∧
    bindings b' = bindings b ∧
    objects b' = <[def := o']> (objects b) ∧
    view o' = Some (DType t (def_shared o) (Some (Construct ctor))
                      (def_args o) (def_props o)).
Proof.
  intros Ho Ht Hms. revert b o Ho Ht.
  induction Hms as [| m ms Hm Hms IH]; intros b o Ho Ht.
  - cbn [app]. rewrite chain_cons.
    unfold Binding_toClass, update. rewrite Ho. cbn.
    eexists _, _. split; [reflexivity |]. split; [done |]. split; [done |].
    unfold view. cbn. by rewrite Ht.
  - cbn [app]. rewrite chain_cons.
    destruct (Rebinding_keeps m def b o Hm Ho)
      as (o1 & -> & Hty & Hsh & Har & Hpr).
    cbn [mbind option_bind].
    assert (Hlt : def < length (objects b)) by (by eapply lookup_lt_Some).
    destruct (IH (mkBindings (<[def := o1]> (objects b)) (bindings b)) o1)
      as (b' & o' & Hch & Hbi & Hob & Hview).
    { cbn. by apply list_lookup_insert_eq. }
    { congruence. }
    exists b', o'. split; [done |]. split; [done |]. split.
    + rewrite Hob. cbn. apply list_insert_insert_eq.
    + rewrite Hview. by rewrite Hsh, Har, Hpr.
Qed.

Lemma rebinding_keeps_configuration_witness :
  let o := objectOf (toClass "foo" "Foo" (Some [Some (Some (DRef "a"))]) None) in
  let b := mkBindings [o] {[ "foo" := 0 ]} in
  ∃ b' o',
    chain ([Binding_toValue (VStr "x"); Binding_toType "bar"]
             ++ [Binding_toClass "Foo2"]) 0 b = Some b' ∧
    bindings b' = bindings b ∧
    objects b' = <[0 := o']> (objects b) ∧
    view o' = Some (DType "foo" (def_shared o) (Some (Construct "Foo2"))
                      (def_args o) (def_props o)).
Proof.
  intros o b.
  apply (rebinding_keeps_configuration
           [Binding_toValue (VStr "x"); Binding_toType "bar"] "Foo2" 0 b o "foo").
  - reflexivity.
  - reflexivity.
  - repeat constructor.
Defined.

(** The calls after the first, on the array the first call made. *)
Lemma tags_appended (tag : TypeToken) (ds : list addr) :
  ∀ l objs binds,
    binds !! tag = Some (length objs) →
    foldl (λ acc def, acc ≫= TypeBinding_tag tag def)
      (Some (mkBindings (objs ++ [objectOf (makeArray l)]) binds)) ds
    = Some (mkBindings
              (objs ++ [objectOf (makeArray
                          (l ++ map (λ def, Some (Some (DDef def))) ds))])
              binds).
Proof.
  induction ds as [| d ds IH]; intros l objs binds Hb.
  - cbn. by rewrite app_nil_r.
  - cbn [foldl mbind option_bind map].
    unfold TypeBinding_tag at 2, BaseBining_tagType, update.
    cbn [bindings objects]. rewrite Hb. cbn [bindings objects].
    rewrite lookup_fresh0. cbn.
    rewrite insert_fresh0. cbn [insert list_insert].
    rewrite (IH (l ++ [Some (Some (DDef d))])) by done.
    by rewrite <- app_assoc.
Qed.

(** X25: tags.  [tag(t)] on the bindings of the definitions [d1, ..., dn], in
    that order, for a tag type that has no definition: the first call binds
    the tag to a new array, and the array lists the definition objects
    (not their types) in the order of the calls. *)
Theorem tags_are_collected_in_order (tag : TypeToken) (d : addr)
    (ds : list addr) (b : Bindings) :
  bindings b !! tag = None →
  ∃ b',
    foldl (λ acc def, acc ≫= TypeBinding_tag tag def) (Some b) (d :: ds)
      = Some b' ∧
    bindings b' = <[tag := length (objects b)]> (bindings b) ∧
    objects b'
    = objects b
      ++ [objectOf (makeArray (map (λ def, Some (Some (DDef def))) (d :: ds)))].
Proof.
  intros Htag.
  destruct b as [objs binds]. cbn [bindings objects] in *.
  eexists. split.
  - cbn [foldl mbind option_bind].
    unfold TypeBinding_tag at 2, BaseBining_tagType, update.
    cbn [bindings objects]. rewrite Htag. cbn [bindings objects].
    rewrite lookup_fresh0. cbn. rewrite insert_fresh0. cbn [insert list_insert].
    apply (tags_appended tag ds [Some (Some (DDef d))] objs).
    apply lookup_insert_eq.
  - split; reflexivity.
Qed.

Lemma tags_are_collected_in_order_witness :
  let b := mkBindings [objectOf (makeType "a"); objectOf (makeType "b")]
             {[ "a" := 0; "b" := 1 ]} in
  ∃ b',
    foldl (λ acc def, acc ≫= TypeBinding_tag "plugins" def) (Some b) (1 :: [0])
      = Some b' ∧
    bindings b' = <["plugins" := length (objects b)]> (bindings b) ∧
    objects b'
    = objects b
      ++ [objectOf (makeArray (map (λ def, Some (Some (DDef def))) (1 :: [0])))].
Proof.
  intros b.
  apply (tags_are_collected_in_order "plugins" 1 [0] b).
  vm_compute. reflexivity.
Defined.

(** X26: a tag type that is bound to something that is not an array: [tag]
    changes nothing and raises nothing; the binding is not collected. *)
Theorem tag_bound_to_non_array_is_ignored (tag : TypeToken) (d g : addr)
    (o : DefObject) (b : Bindings) :
  bindings b !! tag = Some g →
  objects b !! g = Some o →
  def_kind o ≠ KArray →
  TypeBinding_tag tag d b = Some b.
Proof.
  intros Hg Ho Hk.
  unfold TypeBinding_tag, BaseBining_tagType, update. rewrite Hg, Ho.
  destruct b as [objs binds]. cbn in *.
  destruct (def_kind o); try done; cbn; by rewrite list_insert_id.
Qed.

Lemma tag_bound_to_non_array_is_ignored_witness :
  let b := mkBindings [objectOf (makeType "a"); objectOf (makeValue (VStr "x"))]
             {[ "a" := 0; "plugins" := 1 ]} in
  TypeBinding_tag "plugins" 0 b = Some b.
Proof.
  intros b.
  apply (tag_bound_to_non_array_is_ignored "plugins" 0 1
           (objectOf (makeValue (VStr "x"))) b).
  - vm_compute. reflexivity.
  - reflexivity.
  - discriminate.
Defined.

(** *** From the bindings to the store of the engine *)

Lemma mapM_view_snoc (l : list DefObject) (o : DefObject) ds d :
  mapM view l = Some ds → view o = Some d →
  mapM view (l ++ [o]) = Some (ds ++ [d]).
Proof.
  revert ds. induction l as [| x l IH]; intros ds Hl Ho.
  - cbn in Hl. injection Hl as <-. cbn. by rewrite Ho.
  - cbn in Hl. destruct (view x) as [y |] eqn:Hx; [| done]. cbn in Hl.
    destruct (mapM view l) as [ys |] eqn:Hys; [| done]. cbn in Hl.
    injection Hl as <-. cbn. rewrite Hx. cbn.
    by rewrite (IH ys eq_refl Ho).
Qed.

(** An array literal of references that are not the empty string is taken
    as it is. *)
Lemma assignSlots_refs (ts : list TypeToken) :
  EmptyString ∉ ts → assignSlots (refs ts) [] = refs ts.
Proof.
  intros Hts. apply list_eq. intros i.
  assert (Hmap : ∀ l j, refs l !! j = (λ t, Some (Some (DRef t))) <$> l !! j).
  { induction l as [| x l IH]; intros [| j]; cbn; try done. }
  destruct (assignSlots_turns (refs ts) [] (length (refs ts)))
    as (Hlen & Hlow & _).
  fold (assignSlots (refs ts) []) in Hlen, Hlow.
  destruct (decide (i < length (refs ts))) as [Hi | Hi].
  - rewrite Hlow by done.
    unfold refs in Hi. rewrite length_map in Hi.
    destruct (lookup_lt_is_Some_2 ts i Hi) as [t Ht].
    unfold slotGet. rewrite !Hmap, Ht. cbn.
    destruct t as [| c t']; [| done].
    exfalso. apply Hts. by eapply list_elem_of_lookup_2.
  - rewrite !lookup_ge_None_2; [done | unfold slot in *; lia |].
    unfold slot in *. cbn [length] in Hlen. lia.
Qed.

(** X27: the stores of the scenarios are those the bindings make.  When a
    type that has no binding is bound with
    [dm.bind(t).toClass(C).withArguments([t1, ..., tn])], the engine starts
    from the store [bound t (toClass t C [t1, ..., tn])]: a new class
    definition for [t], with that factory and those arguments, registered
    under [t], shared by default and without properties. *)
Theorem class_binding_store (t : TypeToken) (ctor : string)
    (ts : list TypeToken) (b : Bindings) (h : Heap) :
  heapOfBindings b = Some h →
  bindings b !! t = None →
  EmptyString ∉ ts →
  ∃ b',
    bindThen t [Binding_toClass ctor; TypeBinding_withArguments (refs ts)] b
      = Some b' ∧
    heapOfBindings b' = Some (bound t (toClass t ctor (Some (refs ts)) None) h).
Proof.
  intros Hh Ht Hts.
  unfold heapOfBindings in Hh.
  destruct (mapM view (objects b)) as [ds |] eqn:Hds; [| done].
  cbn in Hh. injection Hh as <-.
  destruct b as [objs binds]. cbn [objects bindings] in *.
  unfold bindThen, DependencyManager_bind. cbn [objects bindings]. rewrite Ht.
  unfold chain. cbn [foldl mbind option_bind].
  unfold Binding_toClass at 1, update. cbn [objects bindings].
  rewrite lookup_fresh0. cbn [lookup list_lookup mbind option_bind].
  rewrite insert_fresh0. cbn [insert list_insert].
  unfold TypeBinding_withArguments, update. cbn [objects bindings mbind option_bind].
  rewrite lookup_fresh0. cbn [lookup list_lookup mbind option_bind].
  rewrite insert_fresh0. cbn [insert list_insert].
  eexists. split; [reflexivity |].
  unfold heapOfBindings. cbn [objects bindings].
  erewrite mapM_view_snoc; [| done |].
  2:{ unfold view, TypeBinding_args. cbn. rewrite assignSlots_refs by done.
      reflexivity. }
  cbn. unfold bound, toClass. cbn.
  rewrite (length_mapM _ _ _ Hds) || rewrite <- (mapM_length _ _ _ Hds).
  reflexivity.
Qed.

Lemma class_binding_store_witness :
  ∃ b',
    bindThen "boo" [Binding_toClass "Boo"; TypeBinding_withArguments (refs ["foo"])]
      noBindings = Some b' ∧
    heapOfBindings b'
    = Some (bound "boo" (toClass "boo" "Boo" (Some (refs ["foo"])) None) emptyHeap).
Proof.
  apply (class_binding_store "boo" "Boo" ["foo"] noBindings emptyHeap).
  - reflexivity.
  - reflexivity.
  - apply (bool_decide_unpack _). vm_compute. exact I.
Defined.

(** X28: the bindings of [bootstrap] describe the engine itself, and the
    engine can build it: [dm.get(IDependencyManager)] resolves to a
    DependencyManager over one DependencyProvider and one
    DefinitionRegistry.  The provider has as [factory] one ObjectFactory and
    as [provider] one ObjectProvider; these share one InstanceRegistry, the
    ObjectProvider holds that ObjectFactory and the ObjectFactory holds the
    provider it is a property of.  Every class is built once (seven factory
    calls), no "Cyclic dependency" is raised, and the list of plugins of the
    DefinitionResolver is an empty array. *)
Theorem bootstrap_builds_an_engine :
  match bootstrap ≫= heapOfBindings with
  | None => False
  | Some h =>
      let '(res, cfg) := getOnce h api_IDependencyManager in
      res = Some (Fulfilled (VObj 6)) ∧
      instances cfg.2
      = [ mkInstance "Map" [] (Some lib_DefinitionRegistry) [];
          mkInstance "DefinitionResolver" [VObj 0; VArr 4]
            (Some lib_DefinitionResolver) [];
          mkInstance "DependencyProvider" [VObj 1] (Some lib_DependencyProvider)
            [("factory", VObj 4); ("provider", VObj 5)];
          mkInstance "WeakMap" [] (Some lib_InstanceRegistry) [];
          mkInstance "ObjectFactory" [VObj 2; VObj 3] (Some lib_ObjectFactory) [];
          mkInstance "ObjectProvider" [VObj 4; VObj 3] (Some lib_ObjectProvider) [];
          mkInstance "DependencyManager" [VObj 2; VObj 0]
            (Some lib_DependencyManager) [] ] ∧
      arrays cfg.2 !! 4 = Some [] ∧
      length (factoryLog cfg.2) = 7 ∧
      quiescent cfg
  end.
Proof. vm_compute. repeat split. Qed.
